(** * Voice assistant core: a shallow embedding of [voice_assistance_advance/ai.py]

    The development follows the source file top-down (the classes
    [PiperTTS] and [WakeWordDetector] are the same in
    [voice_assitance_mini/ai.py]):

    - [PyStr]      the [str] methods the assistant uses ([lower], [strip],
                   [in], [replace]) on ASCII text;
    - [Audio]      the two signal filters [is_significant_audio] and
                   [noise_gate] on sample buffers;
    - [Wake]       [WakeWordDetector];
    - [Assistant]  [VoiceAssistant]: the skills, [handle_command],
                   [transcribe_audio] and one pass of the [listen] loop,
                   written as state passing with a log of the calls made;
    - [TTS]        [PiperTTS] together with its worker thread, as a
                   transition system over atomic steps;
    - [Calls]      the calls of the assistant on the [PiperTTS] object as
                   steps of the calling thread in that system;
    - [ConfigFile] [load_config] and its deep merge of the configuration
                   file into the defaults;
    - [QuickTune]  the dotted-path [set_value] and [get_value] of
                   [voice_assitance_mini/quick_tune.py];
    - [Loader]     [Config] of [voice_assitance_mini/config_loader.py],
                   with the section objects its instances share with the
                   class attribute [DEFAULT_CONFIG].

    Numbers: audio samples, thresholds and clock readings are Python/NumPy
    floats in the source.  They are modelled by exact rationals ([Q]): a
    sample is the rational its float32 stands for, and infinite samples and
    NaN are outside the model.  Rounding is modelled where [noise_gate]
    compares float32 samples with a Python float, which NumPy first
    converts to float32 ([Audio.python_float], [Audio.np_float32]); the
    arithmetic of [is_significant_audio] and of the clock is exact. *)

From Stdlib Require Import Bool List Sorted Arith ZArith QArith Qabs Qminmax Lia.
From Stdlib Require Import Ascii String.
From Stdlib Require Import Reals Qreals.
From Stdlib Require Lqa Lra SpecFloat.
Import ListNotations.

(** Linear arithmetic over the rationals and over the reals. *)
Ltac qlra := Lqa.lra.
Ltac rlra := Lra.lra.

Set Implicit Arguments.

(* ================================================================== *)
(** ** Python string methods *)
(* ================================================================== *)

Module PyStr.
Local Open Scope nat_scope.

(** [str.isspace] restricted to ASCII: TAB, LF, VT, FF, CR, the four
    separators 0x1c-0x1f and the blank. *)
Definition is_space (c : ascii) : bool :=
  let n := nat_of_ascii c in
  ((9 <=? n) && (n <=? 13)) || ((28 <=? n) && (n <=? 32)).

(** [str.lower] restricted to ASCII. *)
Definition lower_char (c : ascii) : ascii :=
  let n := nat_of_ascii c in
  if (65 <=? n) && (n <=? 90) then ascii_of_nat (n + 32) else c.

Fixpoint lower (s : string) : string :=
  match s with
  | EmptyString => EmptyString
  | String c s' => String (lower_char c) (lower s')
  end.

Fixpoint lstrip (s : string) : string :=
  match s with
  | EmptyString => EmptyString
  | String c s' => if is_space c then lstrip s' else s
  end.

Fixpoint rstrip (s : string) : string :=
  match s with
  | EmptyString => EmptyString
  | String c s' =>
      match rstrip s' with
      | EmptyString => if is_space c then EmptyString else String c EmptyString
      | r => String c r
      end
  end.

(** [s.strip()] *)
Definition strip (s : string) : string := rstrip (lstrip s).

(** [p in s]: [p] occurs in [s] as a contiguous substring. *)
Fixpoint contains (p s : string) : bool :=
  prefix p s ||
  match s with
  | EmptyString => false
  | String _ s' => contains p s'
  end.

(** Scan of [s.replace(old, new)] for a non-empty [old]: occurrences are
    taken left to right and do not overlap; [skip] counts the characters of
    the occurrence just replaced that are still to be passed over. *)
Fixpoint replace_from (old new : string) (skip : nat) (s : string) : string :=
  match s with
  | EmptyString => EmptyString
  | String c s' =>
      match skip with
      | S k => replace_from old new k s'
      | O =>
          if prefix old s
          then append new (replace_from old new (String.length old - 1) s')
          else String c (replace_from old new 0 s')
      end
  end.

(** With an empty [old], Python puts [new] before every character and at
    the end. *)
Fixpoint intersperse (new s : string) : string :=
  match s with
  | EmptyString => new
  | String c s' => append new (String c (intersperse new s'))
  end.

(** [s.replace(old, new)] *)
Definition replace (s old new : string) : string :=
  match old with
  | EmptyString => intersperse new s
  | _ => replace_from old new 0 s
  end.

(** The first, respectively the last, character is white space. *)
Definition starts_with_space (s : string) : bool :=
  match s with
  | EmptyString => false
  | String c _ => is_space c
  end.

Fixpoint ends_with_space (s : string) : bool :=
  match s with
  | EmptyString => false
  | String c EmptyString => is_space c
  | String _ s' => ends_with_space s'
  end.

(** [c.isupper()] restricted to ASCII, and whether a string has such a
    character. *)
Definition is_upper (c : ascii) : bool :=
  let n := nat_of_ascii c in (65 <=? n) && (n <=? 90).

Fixpoint has_upper (s : string) : bool :=
  match s with
  | EmptyString => false
  | String c s' => is_upper c || has_upper s'
  end.

(** Truth value of a string: [not s] is [is_empty s]. *)
Definition is_empty (s : string) : bool :=
  match s with EmptyString => true | _ => false end.

End PyStr.

(* ================================================================== *)
(** ** Rational comparisons as booleans *)
(* ================================================================== *)

(** [x < y] *)
Definition Qltb (x y : Q) : bool := negb (Qle_bool y x).

(* ================================================================== *)
(** ** Configuration *)
(* ================================================================== *)

(** The entries of the global [CONFIG] dictionary that the modelled code
    reads, with the module constants [WAKE_WORD] and [WAKE_WORD_TIMEOUT]
    taken from it. *)
Record Config : Type := mkConfig {
  WAKE_WORD : string;             (* wake_word.phrase *)
  WAKE_WORD_TIMEOUT : Q;          (* wake_word.timeout *)
  wake_threshold : Q;             (* wake_word.threshold *)
  sample_rate : Z;                (* audio.sample_rate *)
  chunk_duration_seconds : Z;     (* audio.chunk_duration_seconds *)
  rms_threshold : Q;              (* audio.rms_threshold *)
  peak_threshold : Q;             (* audio.peak_threshold *)
  noise_gate_threshold : Q;       (* audio.noise_gate_threshold *)
  max_restart_attempts : nat;     (* error_recovery.max_restart_attempts *)
  restart_delay_seconds : Q       (* error_recovery.restart_delay_seconds *)
}.

(** [default_config] of [load_config]. *)
Definition default_config : Config :=
  {| WAKE_WORD := "assistant"%string;
     WAKE_WORD_TIMEOUT := 10;
     wake_threshold := 7 # 10;
     sample_rate := 16000;
     chunk_duration_seconds := 3;
     rms_threshold := 15 # 1000;
     peak_threshold := 4 # 100;
     noise_gate_threshold := 1 # 100;
     max_restart_attempts := 3;
     restart_delay_seconds := 1 |}.

(* ================================================================== *)
(** ** Utility audio filters *)
(* ================================================================== *)

Module Audio.

(** A one-dimensional sample buffer. *)
Definition buffer : Type := list Q.

(** [audio ** 2], elementwise *)
Definition square (audio : buffer) : buffer := map (fun x => x * x) audio.

(** [np.abs(audio)], elementwise *)
Definition np_abs (audio : buffer) : buffer := map Qabs audio.

Definition np_sum (xs : buffer) : Q := fold_right Qplus 0 xs.

(** [np.mean(xs)] *)
Definition np_mean (xs : buffer) : Q :=
  np_sum xs / inject_Z (Z.of_nat (List.length xs)).

(** [np.max] of the non-empty buffer [x :: xs] *)
Definition np_max (x : Q) (xs : buffer) : Q := fold_left Qmax xs x.

(** [np.sqrt(m) > t] for [0 <= m].  The rationals have no square root, so
    the comparison is decided on the squares: the root of a non-negative
    number exceeds [t] exactly when [t] is negative or [t * t < m]
    ([sqrt_gt_spec] relates this to the real square root). *)
Definition sqrt_gt (m t : Q) : bool := Qltb t 0 || Qltb (t * t) m.

(** [is_significant_audio(audio, rms_threshold, peak_threshold)]; an
    argument left as [None] is read from the configuration.  The squares,
    their mean and its root are taken exactly here; NumPy rounds each of
    them to float32. *)
Definition is_significant_audio (cfg : Config) (audio : buffer)
    (rms_thr peak_thr : option Q) : bool :=
  let rms_thr := match rms_thr with Some t => t | None => rms_threshold cfg end in
  let peak_thr := match peak_thr with Some t => t | None => peak_threshold cfg end in
  match audio with
  | [] => false
  | x :: xs =>
      let rms_exceeds := sqrt_gt (np_mean (square audio)) rms_thr in
      let peak := np_max (Qabs x) (np_abs xs) in
      rms_exceeds || Qltb peak_thr peak
  end.

(** A boolean mask entry as a factor: [True] is 1 and [False] is 0. *)
Definition of_bool (b : bool) : Q := if b then 1 else 0.

(** Binary floating-point numbers, as the standard library specifies
    them: zeros, infinities, NaN, and [(-1)^s * m * 2^e]. *)
Definition float : Type := SpecFloat.spec_float.

(** The Python float written [q]: the binary64 number nearest to the
    rational [q], ties to even. *)
Definition python_float (q : Q) : float :=
  match Qnum q with
  | Z0 => SpecFloat.S754_zero false
  | Zpos n =>
      SpecFloat.SFdiv 53 1024 (SpecFloat.S754_finite false n 0)
                              (SpecFloat.S754_finite false (Qden q) 0)
  | Zneg n =>
      SpecFloat.SFdiv 53 1024 (SpecFloat.S754_finite true n 0)
                              (SpecFloat.S754_finite false (Qden q) 0)
  end.

(** The conversion of a Python float to [np.float32] that NumPy applies to
    the scalar operand of an operation on a float32 array: the nearest
    binary32 number, ties to even, an infinity beyond the range. *)
Definition np_float32 (x : float) : float :=
  match x with
  | SpecFloat.S754_finite s m e => SpecFloat.binary_round 24 128 s m e
  | _ => x
  end.

(** The number a finite float stands for. *)
Definition float_value (x : float) : Q :=
  match x with
  | SpecFloat.S754_finite s m e =>
      inject_Z (if s then Zneg m else Zpos m) * 2 ^ e
  | _ => 0
  end.

(** [a > t] for a finite sample [a] and a float [t]. *)
Definition np_greater (a : Q) (t : float) : bool :=
  match t with
  | SpecFloat.S754_infinity negative => negative
  | SpecFloat.S754_nan => false
  | _ => Qltb (float_value t) a
  end.

(** [noise_gate(audio, threshold)] on a float32 buffer.  The comparison
    [np.abs(audio) > threshold] is made in float32, on the threshold
    converted to float32; [np.abs] and the product with the mask are
    exact. *)
Definition noise_gate (cfg : Config) (audio : buffer) (thr : option Q)
  : buffer :=
  let thr := match thr with Some t => t | None => noise_gate_threshold cfg end in
  let thr32 := np_float32 (python_float thr) in
  let mask := map (fun a => np_greater a thr32) (np_abs audio) in
  map (fun xm => fst xm * of_bool (snd xm)) (combine audio mask).

(** The threshold as the comparison of [noise_gate] sees it. *)
Definition gate_threshold (cfg : Config) (thr : option Q) : float :=
  np_float32 (python_float (match thr with
                            | Some t => t
                            | None => noise_gate_threshold cfg
                            end)).

(** The mathematical quantities the filters are specified by, over the
    reals: the root mean square and the peak absolute amplitude of a
    buffer. *)
Definition root_mean_square (audio : buffer) : R :=
  sqrt (fold_right Rplus 0%R (map (fun x => (Q2R x * Q2R x)%R) audio)
        / INR (List.length audio)).

Definition is_peak (audio : buffer) (p : Q) : Prop :=
  (exists x, In x audio /\ Qabs x == p) /\
  (forall x, In x audio -> Qabs x <= p).

Definition all_zero (audio : buffer) : Prop := Forall (fun x => x == 0) audio.

End Audio.

(* ================================================================== *)
(** ** WakeWordDetector *)
(* ================================================================== *)

Module Wake.
Import PyStr.

(** The attributes of a [WakeWordDetector] object.  [threshold] is stored
    by [__init__] and read nowhere. *)
Record WakeWordDetector : Type := mkDetector {
  wake_word : string;
  threshold : Q;
  is_awake : bool;
  last_wake_time : Q;
  timeout : Q
}.

(** [WakeWordDetector.__init__(wake_word, threshold)]; [wake_word_timeout]
    is the module constant [WAKE_WORD_TIMEOUT]. *)
Definition init (wake_word_timeout : Q) (phrase : string) (thr : Q)
  : WakeWordDetector :=
  {| wake_word := lower phrase;
     threshold := thr;
     is_awake := false;
     last_wake_time := 0;
     timeout := wake_word_timeout |}.

Definition set_awake (d : WakeWordDetector) (now : Q) : WakeWordDetector :=
  {| wake_word := wake_word d;
     threshold := threshold d;
     is_awake := true;
     last_wake_time := now;
     timeout := timeout d |}.

Definition set_asleep (d : WakeWordDetector) : WakeWordDetector :=
  {| wake_word := wake_word d;
     threshold := threshold d;
     is_awake := false;
     last_wake_time := last_wake_time d;
     timeout := timeout d |}.

(** The local [text_lower] of [check]. *)
Definition text_lower (text : string) : string := strip (lower text).

(** [WakeWordDetector.check(text)].  Every path reads the clock at most
    once; [now] is that reading of [time.time()]. *)
Definition check (d : WakeWordDetector) (now : Q) (text : string)
  : bool * WakeWordDetector :=
  if contains (wake_word d) (text_lower text) then
    (true, set_awake d now)
  else if is_awake d then
    if Qltb (now - last_wake_time d) (timeout d) then (true, d)
    else (false, set_asleep d)
  else (false, d).

(** [WakeWordDetector.reset()] *)
Definition reset (d : WakeWordDetector) : WakeWordDetector :=
  {| wake_word := wake_word d;
     threshold := threshold d;
     is_awake := false;
     last_wake_time := 0;
     timeout := timeout d |}.

(** Successive calls of [check], each with its clock reading and its text:
    the values returned and the detector after the last call. *)
Fixpoint checks (d : WakeWordDetector) (l : list (Q * string))
  : list bool * WakeWordDetector :=
  match l with
  | [] => ([], d)
  | (now, text) :: rest =>
      let r := check d now text in
      let rs := checks (snd r) rest in
      (fst r :: fst rs, snd rs)
  end.

(** No text of the list contains the detector's phrase. *)
Definition phrase_free (d : WakeWordDetector) (l : list (Q * string)) : Prop :=
  Forall (fun nt => contains (wake_word d) (text_lower (snd nt)) = false) l.

End Wake.

(* ================================================================== *)
(** ** VoiceAssistant *)
(* ================================================================== *)

Module Assistant.
Import PyStr Audio.
Local Open Scope string_scope.

(** The bound methods stored in [command_map]. *)
Inductive skill : Type :=
| TellJoke      (* self._skill_tell_joke *)
| TellTime      (* self._skill_tell_time *)
| Exit          (* self._skill_exit *)
| Sleep.        (* self._skill_sleep *)

(** The calls the supervising thread makes to its collaborators, logged in
    the order they are made. *)
Inductive call : Type :=
| CallIsSignificant (audio : buffer)          (* is_significant_audio(audio_buffer) *)
| CallNoiseGate (audio : buffer)              (* noise_gate(audio_buffer) *)
| CallTranscribe (audio : buffer)             (* self.model.transcribe(audio_buffer, ...) *)
| CallSkill (trigger : string) (sk : skill)   (* skill_func() *)
| CallSpeak (text : string)                   (* self.tts.speak(text) *)
| CallWaitUntilDone                           (* self.tts.wait_until_done() *)
| CallSleep (seconds : Q)                     (* time.sleep(restart_delay) *)
| CallShutdown.                               (* self.tts.shutdown() *)

(** Exceptions: [queue.Empty], and any other [Exception]. *)
Inductive exn : Type := QueueEmpty | Error.

Inductive result (A : Type) : Type :=
| Ok (a : A)
| Raise (e : exn).
Arguments Ok {A} a.
Arguments Raise {A} e.

(** The places at which a collaborator can raise. *)
Inductive site : Type :=
| AtConcatenate      (* np.concatenate((audio_buffer, data.flatten())) *)
| AtIsSignificant    (* is_significant_audio *)
| AtNoiseGate        (* noise_gate *)
| AtTranscribe       (* self.model.transcribe / list(segments) *)
| AtSegmentText      (* segment.text.strip() *)
| AtGetJoke          (* pyjokes.get_joke() *)
| AtNow              (* datetime.datetime.now() / strftime *)
| AtSpeak            (* self.tts.speak *)
| AtWaitUntilDone    (* self.tts.wait_until_done *)
| AtSleep.           (* time.sleep *)

(** What the surroundings answer while one utterance is handled. *)
Record Env : Type := mkEnv {
  now : Q;                 (* time.time() *)
  joke : string;           (* pyjokes.get_joke() *)
  time_str : string;       (* now.strftime(...) *)
  raises : site -> bool    (* the call at this site raises *)
}.

(** What the surroundings answer during one pass of the loop of [listen]. *)
Record World : Type := mkWorld {
  queue_item : option buffer;        (* audio_q.get(timeout=0.5); None: queue.Empty;
                                        Some: data.flatten() *)
  is_speaking : bool;                (* self.tts.is_speaking.is_set() *)
  segments : list (string * Env);    (* segment.text of each segment returned,
                                        with the surroundings while it is handled *)
  fails : site -> bool               (* the call at this site raises *)
}.

(** The attributes of a [VoiceAssistant] the modelled methods use, the
    local [audio_buffer] of [listen], and the log of calls. *)
Record state : Type := mkState {
  command_map : list (string * skill);
  restart_count : nat;
  wake_word_detector : Wake.WakeWordDetector;
  keep_running : bool;
  audio_buffer : buffer;
  calls : list call
}.

(** The table built by [__init__], in insertion order. *)
Definition initial_command_map : list (string * skill) :=
  [("joke", TellJoke); ("time", TellTime); ("date", TellTime);
   ("stop", Exit); ("exit", Exit); ("goodbye", Exit); ("sleep", Sleep)].

(** The object after [__init__], at the point where [listen] enters its
    loop with an empty buffer. *)
Definition initial_state (cfg : Config) : state :=
  {| command_map := initial_command_map;
     restart_count := 0;
     wake_word_detector :=
       Wake.init (WAKE_WORD_TIMEOUT cfg) (WAKE_WORD cfg) (wake_threshold cfg);
     keep_running := true;
     audio_buffer := [];
     calls := [] |}.

(** *** State and exceptions *)

Definition M (A : Type) : Type := state -> result A * state.

Definition ret {A} (a : A) : M A := fun s => (Ok a, s).

Definition bind {A B} (m : M A) (k : A -> M B) : M B :=
  fun s =>
    match m s with
    | (Ok a, s') => k a s'
    | (Raise e, s') => (Raise e, s')
    end.

Definition raise {A} (e : exn) : M A := fun s => (Raise e, s).

(** [try: m  except Exception: h] *)
Definition try_except {A} (m : M A) (h : M A) : M A :=
  fun s =>
    match m s with
    | (Ok a, s') => (Ok a, s')
    | (Raise _, s') => h s'
    end.

Notation "x <- m ;; k" := (bind m (fun x => k))
  (at level 61, m at next level, right associativity).
Notation "m ;; k" := (bind m (fun _ => k))
  (at level 61, right associativity).

(** A call that raises when the surroundings say so. *)
Definition guard (bad : bool) : M unit :=
  if bad then raise Error else ret tt.

Definition log (c : call) : M unit :=
  fun s =>
    (Ok tt,
     {| command_map := command_map s;
        restart_count := restart_count s;
        wake_word_detector := wake_word_detector s;
        keep_running := keep_running s;
        audio_buffer := audio_buffer s;
        calls := (calls s ++ [c])%list |}).

Definition set_detector (d : Wake.WakeWordDetector) : M unit :=
  fun s =>
    (Ok tt,
     {| command_map := command_map s;
        restart_count := restart_count s;
        wake_word_detector := d;
        keep_running := keep_running s;
        audio_buffer := audio_buffer s;
        calls := calls s |}).

Definition set_keep_running (b : bool) : M unit :=
  fun s =>
    (Ok tt,
     {| command_map := command_map s;
        restart_count := restart_count s;
        wake_word_detector := wake_word_detector s;
        keep_running := b;
        audio_buffer := audio_buffer s;
        calls := calls s |}).

Definition set_audio_buffer (b : buffer) : M unit :=
  fun s =>
    (Ok tt,
     {| command_map := command_map s;
        restart_count := restart_count s;
        wake_word_detector := wake_word_detector s;
        keep_running := keep_running s;
        audio_buffer := b;
        calls := calls s |}).

Definition set_restart_count (n : nat) : M unit :=
  fun s =>
    (Ok tt,
     {| command_map := command_map s;
        restart_count := n;
        wake_word_detector := wake_word_detector s;
        keep_running := keep_running s;
        audio_buffer := audio_buffer s;
        calls := calls s |}).

Definition gets {A} (f : state -> A) : M A := fun s => (Ok (f s), s).

(** *** Collaborators *)

(** [self.tts.speak(text)] *)
Definition tts_speak (e : Env) (text : string) : M unit :=
  log (CallSpeak text) ;; guard (raises e AtSpeak).

(** [self.tts.wait_until_done()] *)
Definition tts_wait_until_done (e : Env) : M unit :=
  log CallWaitUntilDone ;; guard (raises e AtWaitUntilDone).

(** The lengths [time.sleep] refuses on every platform: a negative one
    (ValueError), and one of 2^64 nanoseconds or more, which is beyond the
    64-bit count of nanoseconds the length is converted to
    (OverflowError). *)
Definition sleep_refused (seconds : Q) : bool :=
  Qltb seconds 0 || Qle_bool (18446744073709551616 # 1) (seconds * 1000000000).

(** [time.sleep(seconds)]; [AtSleep] stands for every other way the call
    can raise (a length that the conversion rounds beyond the count, an
    error of the system call). *)
Definition time_sleep (w : World) (seconds : Q) : M unit :=
  log (CallSleep seconds) ;; guard (sleep_refused seconds || fails w AtSleep).

(** [self.wake_word_detector.check(text)] *)
Definition detector_check (e : Env) (text : string) : M bool :=
  d <- gets wake_word_detector ;;
  let r := Wake.check d (now e) text in
  set_detector (snd r) ;;
  ret (fst r).

(** *** Skills *)

Definition _skill_tell_joke (e : Env) : M unit :=
  try_except
    (guard (raises e AtGetJoke) ;;
     tts_speak e (joke e))
    (tts_speak e "Sorry, I couldn't think of a joke right now.").

Definition _skill_tell_time (e : Env) : M unit :=
  try_except
    (guard (raises e AtNow) ;;
     tts_speak e (time_str e))
    (tts_speak e "Sorry, I couldn't get the current time.").

Definition _skill_sleep (cfg : Config) (e : Env) : M unit :=
  d <- gets wake_word_detector ;;
  set_detector (Wake.reset d) ;;
  tts_speak e ("Going to sleep. Say " ++ WAKE_WORD cfg ++ " to wake me up.").

Definition _skill_exit (e : Env) : M unit :=
  tts_speak e "Goodbye! Shutting down now." ;;
  tts_wait_until_done e ;;
  set_keep_running false.

(** [skill_func()] for an entry of the table. *)
Definition run_skill (cfg : Config) (e : Env) (sk : skill) : M unit :=
  match sk with
  | TellJoke => _skill_tell_joke e
  | TellTime => _skill_tell_time e
  | Exit => _skill_exit e
  | Sleep => _skill_sleep cfg e
  end.

(** *** Command handling *)

(** The [for trigger, skill_func in self.command_map.items()] loop of
    [handle_command] over the entries still to be visited, followed by the
    statements after the loop. *)
Fixpoint dispatch (cfg : Config) (e : Env) (table : list (string * skill))
    (command_text : string) : M unit :=
  match table with
  | [] =>
      tts_speak e ("I heard you say " ++ command_text
                   ++ ", but I don't know what to do with that yet.")%string
  | (trigger, skill_func) :: rest =>
      if contains trigger command_text then
        try_except
          (log (CallSkill trigger skill_func) ;; run_skill cfg e skill_func)
          (tts_speak e "Sorry, something went wrong.")
      else dispatch cfg e rest command_text
  end.

(** [handle_command(text)] *)
Definition handle_command (cfg : Config) (e : Env) (text : string) : M unit :=
  let text := strip (lower text) in
  if is_empty text then ret tt
  else
    awake <- detector_check e text ;;
    if negb awake then ret tt
    else
      let command_text := strip (replace text (WAKE_WORD cfg) "") in
      if is_empty command_text && negb (text =? WAKE_WORD cfg) then ret tt
      else if is_empty command_text || (command_text =? WAKE_WORD cfg) then
        tts_speak e "Yes? I'm listening."
      else
        table <- gets command_map ;;
        dispatch cfg e table command_text.

(** *** Transcription *)

(** [transcribe_audio(audio_buffer)]: the engine's segments, or the empty
    list when the engine raises. *)
Definition transcribe_audio (w : World) (audio : buffer)
  : M (list (string * Env)) :=
  try_except
    (log (CallTranscribe audio) ;;
     guard (fails w AtTranscribe) ;;
     ret (segments w))
    (ret []).

(** *** The loop of [listen] *)

(** [for segment in segments: ...] *)
Fixpoint for_segments (cfg : Config) (w : World)
    (segs : list (string * Env)) : M unit :=
  match segs with
  | [] => ret tt
  | (segment_text, e) :: rest =>
      guard (fails w AtSegmentText) ;;
      let text := strip segment_text in
      (if is_empty text then ret tt else handle_command cfg e text) ;;
      for_segments cfg w rest
  end.

(** [CHUNK_SIZE_SAMPLES] *)
Definition CHUNK_SIZE_SAMPLES (cfg : Config) : Z :=
  (sample_rate cfg * chunk_duration_seconds cfg)%Z.

(** The body of the [try] statement inside [while self.keep_running]. *)
Definition listen_try (cfg : Config) (w : World) : M unit :=
  data <- match queue_item w with
          | Some data => ret data
          | None => raise QueueEmpty
          end ;;
  buf <- gets audio_buffer ;;
  guard (fails w AtConcatenate) ;;
  set_audio_buffer (buf ++ data)%list ;;
  buf <- gets audio_buffer ;;
  if (CHUNK_SIZE_SAMPLES cfg <=? Z.of_nat (List.length buf))%Z then
    log (CallIsSignificant buf) ;;
    guard (fails w AtIsSignificant) ;;
    if negb (is_significant_audio cfg buf None None) then
      set_audio_buffer []
    else
      log (CallNoiseGate buf) ;;
      guard (fails w AtNoiseGate) ;;
      set_audio_buffer (noise_gate cfg buf None) ;;
      buf <- gets audio_buffer ;;
      (if negb (is_speaking w) then
         segs <- transcribe_audio w buf ;;
         for_segments cfg w segs
       else ret tt) ;;
      set_audio_buffer []
  else ret tt.

(** How one pass of the loop ends. *)
Inductive pass : Type :=
| Continue     (* back to the loop test *)
| Reraised.    (* an exception leaves the loop *)

(** One pass of [while self.keep_running]: the [try] body with its two
    [except] clauses.  An exception raised by [time.sleep] inside the
    second clause is not handled there: it leaves the loop like the bare
    [raise] of the [else] branch. *)
Definition listen_pass (cfg : Config) (w : World) (s : state) : pass * state :=
  match listen_try cfg w s with
  | (Ok _, s') => (Continue, s')
  | (Raise QueueEmpty, s') => (Continue, s')
  | (Raise Error, s') =>
      if (restart_count s' <? max_restart_attempts cfg)%nat then
        match (set_restart_count (restart_count s' + 1) ;;
               time_sleep w (restart_delay_seconds cfg)) s' with
        | (Ok _, s'') => (Continue, s'')
        | (Raise _, s'') => (Reraised, s'')
        end
      else (Reraised, s')
  end.

(** How [listen] ends. *)
Inductive ending : Type :=
| Stopped      (* keep_running became false *)
| Fatal        (* an exception was re-raised out of listen *)
| Listening.   (* the supplied passes are used up and the loop goes on *)

(** [while self.keep_running: ...] over the given passes. *)
Fixpoint listen_loop (cfg : Config) (ws : list World) (s : state)
  : ending * state :=
  if keep_running s then
    match ws with
    | [] => (Listening, s)
    | w :: ws' =>
        match listen_pass cfg w s with
        | (Continue, s') => listen_loop cfg ws' s'
        | (Reraised, s') => (Fatal, s')
        end
    end
  else (Stopped, s).

(** [_cleanup()] *)
Definition _cleanup : M unit := log CallShutdown.

(** [listen()] from the loop on: the loop, then the [finally] clause. *)
Definition listen (cfg : Config) (ws : list World) (s : state)
  : ending * state :=
  match listen_loop cfg ws s with
  | (Listening, s') => (Listening, s')
  | (r, s') => (r, snd (_cleanup s'))
  end.

(** Number of calls to the transcription engine in a log. *)
Definition transcriptions (l : list call) : nat :=
  List.length (filter (fun c => match c with CallTranscribe _ => true | _ => false end) l).

(** Number of handler invocations in a log. *)
Definition skill_calls (l : list call) : nat :=
  List.length (filter (fun c => match c with CallSkill _ _ => true | _ => false end) l).

(** The reply of [handle_command] when no trigger matches. *)
Definition fallback (command_text : string) : string :=
  "I heard you say " ++ command_text
  ++ ", but I don't know what to do with that yet.".

(** Number of calls of [time.sleep] in a log. *)
Definition sleeps (l : list call) : nat :=
  List.length (filter (fun c => match c with CallSleep _ => true | _ => false end) l).

(** [s'] comes from [s] by appending calls that satisfy [Q] to the log,
    with the table and the restart counter as they were. *)
Definition extends (Q : call -> Prop) (s s' : state) : Prop :=
  command_map s' = command_map s /\
  restart_count s' = restart_count s /\
  exists l, calls s' = (calls s ++ l)%list /\ Forall Q l.

(** Every run of [m] extends the state in this way. *)
Definition keeps {A} (Q : call -> Prop) (m : M A) : Prop :=
  forall s, extends Q s (snd (m s)).

(** The calls made while a command is handled. *)
Definition command_call (c : call) : Prop :=
  match c with
  | CallSkill _ _ | CallSpeak _ | CallWaitUntilDone => True
  | _ => False
  end.

(** The calls made inside the [try] body of the loop. *)
Definition body_call (c : call) : Prop :=
  match c with
  | CallSleep _ | CallShutdown => False
  | _ => True
  end.

(** The calls made to the two filters. *)
Definition gate_call (c : call) : Prop :=
  match c with
  | CallIsSignificant _ | CallNoiseGate _ => True
  | _ => False
  end.

(** Number of calls of [tts.shutdown()] in a log. *)
Definition shutdowns (l : list call) : nat :=
  List.length (filter (fun c => match c with CallShutdown => true | _ => false end) l).

(** The calls made on the way to the transcription engine. *)
Definition engine_call (c : call) : Prop :=
  match c with
  | CallIsSignificant _ | CallNoiseGate _ | CallTranscribe _ => True
  | _ => False
  end.

(** The samples handed over by a run of passes, in the order of the
    passes. *)
Definition delivered (ws : list World) : buffer :=
  flat_map (fun w => match queue_item w with
                     | Some data => data
                     | None => []
                     end) ws.

(** [m] leaves the local [audio_buffer] of [listen] as it is. *)
Definition keeps_buffer {A} (m : M A) : Prop :=
  forall s, audio_buffer (snd (m s)) = audio_buffer s.

(** [m] always returns normally. *)
Definition never_raises (m : M unit) : Prop :=
  forall s, fst (m s) = Ok tt.

(** The state with another buffer. *)
Definition with_buffer (b : buffer) (s : state) : state :=
  snd (set_audio_buffer b s).

End Assistant.

(* ================================================================== *)
(** ** PiperTTS and its worker thread *)
(* ================================================================== *)

Module TTS.
Local Open Scope string_scope.
Local Open Scope nat_scope.

(** The two threads that touch a [PiperTTS] object: [speech_thread], which
    runs [_speech_worker], and the thread that calls the public methods
    (the assistant's main thread). *)
Inductive thread : Type := Worker | Client.

(** An entry of [speech_queue]: the text passed to [put], [None] for the
    shutdown signal.  Every [put] is numbered, so that a request can be
    followed through the queue. *)
Definition item : Type := (nat * option string)%type.

(** Where [_speech_worker] stands. *)
Inductive worker_pc : Type :=
| WTest                                 (* while not self.shutdown_flag.is_set() *)
| WGet                                  (* text = self.speech_queue.get(timeout=0.5) *)
| WGot (id : nat) (text : string)       (* before self.is_speaking.set() *)
| WLock (id : nat) (text : string)      (* _speak_blocking: with self.lock *)
| WPlay (id : nat) (text : string)      (* _speak_blocking: synthesis and playback *)
| WClear (id : nat)                     (* before self.is_speaking.clear() *)
| WTaskDone (id : nat)                  (* before self.speech_queue.task_done() *)
| WExcept                               (* except Exception: before is_speaking.clear() *)
| WExit.                                (* the thread has ended *)

(** Where the calling thread stands. *)
Inductive client_pc : Type :=
| CIdle                                 (* between calls *)
| CLock (text : string)                 (* speak(text, True): with self.lock *)
| CPlay (text : string)                 (* speak(text, True): synthesis and playback *)
| CJoin                                 (* wait_until_done: self.speech_queue.join() *)
| CWait                                 (* wait_until_done: while self.is_speaking.is_set() *)
| CShutdownPut                          (* shutdown: before self.speech_queue.put(None) *)
| CShutdownJoin.                        (* shutdown: self.speech_thread.join(timeout=2) *)

(** The observable events, each with the flags as they stand when it
    happens. *)
Inductive event : Type :=
| EvPut (id : nat) (text : option string) (after_shutdown : bool)
    (* speech_queue.put; after_shutdown: shutdown_flag is set *)
| EvPlayStart (who : thread) (id : option nat) (text : string)
              (speaking after_shutdown : bool)
    (* _speak_blocking begins synthesis and playback *)
| EvPlayEnd (who : thread) (id : option nat) (text : string) (returned : bool)
            (speaking : bool)
    (* _speak_blocking ends: it returns, or an exception leaves it *)
| EvShutdown.
    (* shutdown() is called *)

Record state : Type := mkState {
  (* the PiperTTS object *)
  speech_queue : list item;        (* head first *)
  unfinished_tasks : nat;          (* of speech_queue: put adds one, task_done takes one *)
  is_speaking : bool;
  shutdown_flag : bool;
  lock : option thread;            (* who holds self.lock *)
  (* the threads *)
  worker : worker_pc;
  client : client_pc;
  (* bookkeeping *)
  next_id : nat;                   (* number of put calls so far *)
  sentinel : option nat;           (* number of the first put(None) *)
  lost : nat;                      (* entries taken without a task_done *)
  history : list event             (* oldest first *)
}.

(** After [__init__]: the worker thread has been started. *)
Definition init : state :=
  {| speech_queue := [];
     unfinished_tasks := 0;
     is_speaking := false;
     shutdown_flag := false;
     lock := None;
     worker := WTest;
     client := CIdle;
     next_id := 0;
     sentinel := None;
     lost := 0;
     history := [] |}.

(** *** Field updates *)

Definition set_worker (pc : worker_pc) (s : state) : state :=
  mkState (speech_queue s) (unfinished_tasks s) (is_speaking s)
          (shutdown_flag s) (lock s) pc (client s)
          (next_id s) (sentinel s) (lost s) (history s).

Definition set_client (pc : client_pc) (s : state) : state :=
  mkState (speech_queue s) (unfinished_tasks s) (is_speaking s)
          (shutdown_flag s) (lock s) (worker s) pc
          (next_id s) (sentinel s) (lost s) (history s).

Definition set_is_speaking (b : bool) (s : state) : state :=
  mkState (speech_queue s) (unfinished_tasks s) b
          (shutdown_flag s) (lock s) (worker s) (client s)
          (next_id s) (sentinel s) (lost s) (history s).

Definition set_shutdown_flag (b : bool) (s : state) : state :=
  mkState (speech_queue s) (unfinished_tasks s) (is_speaking s)
          b (lock s) (worker s) (client s)
          (next_id s) (sentinel s) (lost s) (history s).

Definition set_lock (l : option thread) (s : state) : state :=
  mkState (speech_queue s) (unfinished_tasks s) (is_speaking s)
          (shutdown_flag s) l (worker s) (client s)
          (next_id s) (sentinel s) (lost s) (history s).

Definition set_queue (q : list item) (s : state) : state :=
  mkState q (unfinished_tasks s) (is_speaking s)
          (shutdown_flag s) (lock s) (worker s) (client s)
          (next_id s) (sentinel s) (lost s) (history s).

Definition set_unfinished (n : nat) (s : state) : state :=
  mkState (speech_queue s) n (is_speaking s)
          (shutdown_flag s) (lock s) (worker s) (client s)
          (next_id s) (sentinel s) (lost s) (history s).

Definition add_lost (s : state) : state :=
  mkState (speech_queue s) (unfinished_tasks s) (is_speaking s)
          (shutdown_flag s) (lock s) (worker s) (client s)
          (next_id s) (sentinel s) (S (lost s)) (history s).

Definition record (e : event) (s : state) : state :=
  mkState (speech_queue s) (unfinished_tasks s) (is_speaking s)
          (shutdown_flag s) (lock s) (worker s) (client s)
          (next_id s) (sentinel s) (lost s) (history s ++ [e]).

(** [self.speech_queue.put(text)] *)
Definition put (text : option string) (s : state) : state :=
  let id := next_id s in
  let first_none :=
    match text, sentinel s with
    | None, None => Some id
    | _, old => old
    end in
  mkState (speech_queue s ++ [(id, text)]) (S (unfinished_tasks s))
          (is_speaking s) (shutdown_flag s) (lock s)
          (worker s) (client s)
          (S id) first_none (lost s)
          (history s ++ [EvPut id text (shutdown_flag s)]).

(** *** Atomic steps *)

Inductive action : Type :=
(* the calling thread *)
| ASpeak (text : string)           (* speak(text): the put *)
| ASpeakBlocking (text : string)   (* speak(text, True): enter _speak_blocking *)
| AClientAcquire                   (* take self.lock, start synthesis and playback *)
| AClientFinish (returned : bool)  (* playback over, self.lock released *)
| AWaitUntilDone                   (* wait_until_done(): enter join() *)
| AJoinReturn                      (* join() returns *)
| AWaitReturn                      (* is_speaking found clear, wait_until_done returns *)
| AShutdown                        (* shutdown(): self.shutdown_flag.set() *)
| AShutdownPut                     (* shutdown(): self.speech_queue.put(None) *)
| AShutdownJoined                  (* shutdown(): join(timeout=2) returns *)
(* the worker thread *)
| AWorkerTest                      (* evaluate the loop test *)
| AWorkerGet                       (* get() returns the head of the queue *)
| AWorkerTimeout                   (* get() raises queue.Empty: continue *)
| AWorkerSet                       (* self.is_speaking.set() *)
| AWorkerAcquire                   (* take self.lock, start synthesis and playback *)
| AWorkerFinish (returned : bool)  (* playback over, self.lock released *)
| AWorkerClear                     (* self.is_speaking.clear() *)
| AWorkerTaskDone                  (* self.speech_queue.task_done() *)
| AWorkerHandle.                   (* the except clause: self.is_speaking.clear() *)

(** One atomic step; [None] when the step cannot be taken in [s]. *)
Definition exec (a : action) (s : state) : option state :=
  match a, client s, worker s with
  (* ---- calling thread ---- *)
  | ASpeak text, CIdle, _ =>
      Some (put (Some text) s)
  | ASpeakBlocking text, CIdle, _ =>
      Some (set_client (CLock text) s)
  | AClientAcquire, CLock text, _ =>
      match lock s with
      | None =>
          Some (record (EvPlayStart Client None text (is_speaking s) (shutdown_flag s))
                 (set_lock (Some Client) (set_client (CPlay text) s)))
      | Some _ => None
      end
  | AClientFinish returned, CPlay text, _ =>
      Some (record (EvPlayEnd Client None text returned (is_speaking s))
             (set_lock None (set_client CIdle s)))
  | AWaitUntilDone, CIdle, _ =>
      Some (set_client CJoin s)
  | AJoinReturn, CJoin, _ =>
      if unfinished_tasks s =? 0 then Some (set_client CWait s) else None
  | AWaitReturn, CWait, _ =>
      if is_speaking s then None else Some (set_client CIdle s)
  | AShutdown, CIdle, _ =>
      Some (record EvShutdown (set_shutdown_flag true (set_client CShutdownPut s)))
  | AShutdownPut, CShutdownPut, _ =>
      Some (set_client CShutdownJoin (put None s))
  | AShutdownJoined, CShutdownJoin, _ =>
      Some (set_client CIdle s)
  (* ---- worker thread ---- *)
  | AWorkerTest, _, WTest =>
      Some (set_worker (if shutdown_flag s then WExit else WGet) s)
  | AWorkerGet, _, WGet =>
      match speech_queue s with
      | [] => None
      | (id, Some text) :: q => Some (set_worker (WGot id text) (set_queue q s))
      | (id, None) :: q => Some (add_lost (set_worker WExit (set_queue q s)))
      end
  | AWorkerTimeout, _, WGet =>
      match speech_queue s with
      | [] => Some (set_worker WTest s)
      | _ :: _ => None
      end
  | AWorkerSet, _, WGot id text =>
      Some (set_is_speaking true (set_worker (WLock id text) s))
  | AWorkerAcquire, _, WLock id text =>
      match lock s with
      | None =>
          Some (record (EvPlayStart Worker (Some id) text (is_speaking s) (shutdown_flag s))
                 (set_lock (Some Worker) (set_worker (WPlay id text) s)))
      | Some _ => None
      end
  | AWorkerFinish returned, _, WPlay id text =>
      Some (record (EvPlayEnd Worker (Some id) text returned (is_speaking s))
             (set_lock None
               (if returned then set_worker (WClear id) s
                else add_lost (set_worker WExcept s))))
  | AWorkerClear, _, WClear id =>
      Some (set_is_speaking false (set_worker (WTaskDone id) s))
  | AWorkerTaskDone, _, WTaskDone id =>
      match unfinished_tasks s with
      | 0 => Some (set_worker WExcept s)       (* task_done raises ValueError *)
      | S n => Some (set_unfinished n (set_worker WTest s))
      end
  | AWorkerHandle, _, WExcept =>
      Some (set_is_speaking false (set_worker WTest s))
  | _, _, _ => None
  end.

(** A schedule: the steps in the order they are taken. *)
Fixpoint run (acts : list action) (s : state) : option state :=
  match acts with
  | [] => Some s
  | a :: rest =>
      match exec a s with
      | Some s' => run rest s'
      | None => None
      end
  end.

(** The states the system can be in. *)
Definition reachable (s : state) : Prop :=
  exists acts, run acts init = Some s.

(** The worker is processing no request. *)
Definition worker_idle (s : state) : bool :=
  match worker s with
  | WTest | WGet | WExit => true
  | _ => false
  end.

(** The steps of the calling thread. *)
Definition client_action (a : action) : bool :=
  match a with
  | ASpeak _ | ASpeakBlocking _ | AClientAcquire | AClientFinish _
  | AWaitUntilDone | AJoinReturn | AWaitReturn
  | AShutdown | AShutdownPut | AShutdownJoined => true
  | _ => false
  end.

(** *** Invariants *)

(** The flag agrees with the worker's program point. *)
Definition flag_inv (s : state) : Prop :=
  match worker s with
  | WLock _ _ | WPlay _ _ | WClear _ => is_speaking s = true
  | WExcept => True
  | _ => is_speaking s = false
  end.

(** Every playback of the worker was logged with the flag set. *)
Definition worker_events_flagged (s : state) : Prop :=
  forall e, In e (history s) ->
    match e with
    | EvPlayStart Worker _ _ b _ => b = true
    | EvPlayEnd Worker _ _ _ b => b = true
    | _ => True
    end.

(** Entries the worker has taken and not yet marked done. *)
Definition held (s : state) : nat :=
  match worker s with
  | WGot _ _ | WLock _ _ | WPlay _ _ | WClear _ | WTaskDone _ => 1
  | _ => 0
  end.

(** The request the worker is processing. *)
Definition worker_id (s : state) : option nat :=
  match worker s with
  | WGot id _ | WLock id _ | WPlay id _ | WClear id | WTaskDone id => Some id
  | _ => None
  end.

(** [unfinished_tasks] counts the entries queued, held and lost. *)
Definition count_inv (s : state) : Prop :=
  unfinished_tasks s = List.length (speech_queue s) + held s + lost s /\
  (worker s = WExcept -> 0 < lost s).

(** [_speak_blocking] has returned in the worker for request [id]. *)
Definition spoken (s : state) (id : nat) (text : string) : Prop :=
  exists b, In (EvPlayEnd Worker (Some id) text true b) (history s).

(** Where a request is once it has been put: lost with a worker that
    broke off, still queued, in the worker's hands, or spoken. *)
Definition request_inv (s : state) : Prop :=
  forall id text late, In (EvPut id (Some text) late) (history s) ->
    0 < lost s \/
    In (id, Some text) (speech_queue s) \/
    worker s = WGot id text \/
    worker s = WLock id text \/
    worker s = WPlay id text \/
    spoken s id text.

(** Nothing is queued and the worker is processing nothing. *)
Definition quiet (s : state) : Prop :=
  speech_queue s = [] /\ worker_idle s = true /\
  lost s = 0 /\ unfinished_tasks s = 0.

(** The queue is in order of the numbers, all of them already given out. *)
Definition queue_ok (s : state) : Prop :=
  StronglySorted (fun a b : item => fst a < fst b) (speech_queue s) /\
  Forall (fun it : item => fst it < next_id s) (speech_queue s).

(** The numbers of the requests the worker has touched have been given
    out. *)
Definition ids_inv (s : state) : Prop :=
  (forall id, worker_id s = Some id -> id < next_id s) /\
  (forall id text b late,
     In (EvPlayStart Worker (Some id) text b late) (history s) -> id < next_id s).

(** Before the first [put(None)]: the flag can only be set in the middle of
    [shutdown()], and no request has been put with the flag set. *)
Definition before_sentinel (s : state) : Prop :=
  sentinel s = None ->
  Forall (fun it : item => snd it <> None) (speech_queue s) /\
  (shutdown_flag s = true -> client s = CShutdownPut) /\
  (forall id text, ~ In (EvPut id (Some text) true) (history s)).

(** After the first [put(None)], numbered [sid]: the signal stays queued
    until the worker ends, the requests put with the flag set come after
    it, and what the worker touches comes before it. *)
Definition after_sentinel (s : state) : Prop :=
  forall sid, sentinel s = Some sid ->
    sid < next_id s /\
    (worker s <> WExit -> In (sid, None) (speech_queue s)) /\
    (forall id text, In (EvPut id (Some text) true) (history s) -> sid < id) /\
    (forall id, worker_id s = Some id -> id < sid) /\
    (forall id text b late,
       In (EvPlayStart Worker (Some id) text b late) (history s) -> id < sid).

(** What holds around [shutdown()]. *)
Definition shutdown_inv (s : state) : Prop :=
  queue_ok s /\ ids_inv s /\ before_sentinel s /\ after_sentinel s.

(** The numbers of the requests whose playback the worker has started,
    in the order in which it started them. *)
Fixpoint started (h : list event) : list nat :=
  match h with
  | [] => []
  | EvPlayStart Worker (Some id) _ _ _ :: rest => id :: started rest
  | _ :: rest => started rest
  end.

(** [self.lock] is held exactly by the thread that is inside synthesis and
    playback. *)
Definition lock_inv (s : state) : Prop :=
  match lock s with
  | None =>
      (forall id t, worker s <> WPlay id t) /\ (forall t, client s <> CPlay t)
  | Some Worker =>
      (exists id t, worker s = WPlay id t) /\ (forall t, client s <> CPlay t)
  | Some Client =>
      (forall id t, worker s <> WPlay id t) /\ (exists t, client s = CPlay t)
  end.

(** The requests started so far are in order, and older than the one in
    the worker's hands and than everything still queued. *)
Definition fifo_inv (s : state) : Prop :=
  StronglySorted lt (started (history s)) /\
  (forall id q, In id (started (history s)) ->
                In q (map fst (speech_queue s)) -> id < q) /\
  (forall w q, worker_id s = Some w ->
               In q (map fst (speech_queue s)) -> w < q) /\
  (forall id w, In id (started (history s)) -> worker_id s = Some w -> id <= w) /\
  (forall id w t, In id (started (history s)) ->
                  worker s = WGot w t \/ worker s = WLock w t -> id < w).

(** Request [id] was put with this text. *)
Definition was_put (s : state) (id : nat) (text : string) : Prop :=
  exists late, In (EvPut id (Some text) late) (history s).

(** Whatever is queued, in the worker's hands or played by the worker came
    from a [put] with the same text. *)
Definition origin_inv (s : state) : Prop :=
  (forall id text, In (id, Some text) (speech_queue s) -> was_put s id text) /\
  (forall id text,
     worker s = WGot id text \/ worker s = WLock id text \/
     worker s = WPlay id text -> was_put s id text) /\
  (forall id text b late,
     In (EvPlayStart Worker (Some id) text b late) (history s) ->
     was_put s id text).

(** An entry will never be marked done: it was taken without [task_done],
    or it is a shutdown signal still queued. *)
Definition undone (s : state) : Prop :=
  0 < lost s \/ exists id, In (id, None) (speech_queue s).

End TTS.

(* ================================================================== *)
(** ** The assistant's calls as steps of the calling thread *)
(* ================================================================== *)

Module Calls.
Local Open Scope string_scope.

(** The atomic steps the calling thread takes on the [PiperTTS] object
    during one call of the log that returns. *)
Definition steps (c : Assistant.call) : list TTS.action :=
  match c with
  | Assistant.CallSpeak text => [TTS.ASpeak text]
  | Assistant.CallWaitUntilDone =>
      [TTS.AWaitUntilDone; TTS.AJoinReturn; TTS.AWaitReturn]
  | Assistant.CallShutdown =>
      [TTS.AShutdown; TTS.AShutdownPut; TTS.AShutdownJoined]
  | _ => []
  end.

(** The calls [m] adds to the log when it runs in [s]. *)
Definition made {A : Type} (m : Assistant.M A) (s : Assistant.state)
  : list Assistant.call :=
  skipn (List.length (Assistant.calls s)) (Assistant.calls (snd (m s))).

End Calls.


(* ================================================================== *)
(** ** Concrete situations *)
(* ================================================================== *)

Module Scenario.
Import Assistant.
Local Open Scope string_scope.

(** Three seconds of full-scale samples at 16 kHz: one chunk under the
    default configuration. *)
Definition loud_chunk : Audio.buffer := repeat 1 (Z.to_nat 48000).

(** Surroundings in which no call raises. *)
Definition calm : Env :=
  {| now := 100;
     joke := "Why do programmers prefer dark mode?";
     time_str := "It is 09:30 AM, on Monday, June 02.";
     raises := fun _ => false |}.

(** A pass in which the chunk arrives while the synthesizer speaks. *)
Definition while_speaking : World :=
  {| queue_item := Some loud_chunk;
     is_speaking := true;
     segments := [("assistant tell me a joke", calm)];
     fails := fun _ => false |}.

(** A pass in which the transcription engine raises. *)
Definition engine_glitch : World :=
  {| queue_item := Some loud_chunk;
     is_speaking := false;
     segments := [];
     fails := fun site => match site with AtTranscribe => true | _ => false end |}.

(** A pass in which joining the delivered block to the buffer raises. *)
Definition concatenate_failure : World :=
  {| queue_item := Some [1; 1];
     is_speaking := false;
     segments := [];
     fails := fun site => match site with AtConcatenate => true | _ => false end |}.

(** The default configuration with a negative back-off delay. *)
Definition negative_delay : Config :=
  {| WAKE_WORD := WAKE_WORD default_config;
     WAKE_WORD_TIMEOUT := WAKE_WORD_TIMEOUT default_config;
     wake_threshold := wake_threshold default_config;
     sample_rate := sample_rate default_config;
     chunk_duration_seconds := chunk_duration_seconds default_config;
     rms_threshold := rms_threshold default_config;
     peak_threshold := peak_threshold default_config;
     noise_gate_threshold := noise_gate_threshold default_config;
     max_restart_attempts := max_restart_attempts default_config;
     restart_delay_seconds := -1 # 1 |}.

End Scenario.

(* ================================================================== *)
(** ** The configuration document *)
(* ================================================================== *)

Module ConfigFile.
Local Open Scope string_scope.

(** What [yaml.safe_load] yields, as far as the merge looks at it: a
    mapping, or something that is not a mapping (sequences are not
    modelled apart; the code treats them like scalars). *)
Inductive scalar : Type :=
| SStr (s : string)
| SNum (q : Q)
| SBool (b : bool)
| SNull.

Unset Elimination Schemes.
Inductive value : Type :=
| Leaf (x : scalar)
| Dict (entries : list (string * value)).
Set Elimination Schemes.

(** A Python [dict]: the entries in insertion order. *)
Definition dict : Type := list (string * value).

Definition keys (d : dict) : list string := map fst d.

(** [d[key]], with [None] for a missing key ([key in d] is its test). *)
Fixpoint lookup (key : string) (d : dict) : option value :=
  match d with
  | [] => None
  | (k, v) :: rest => if k =? key then Some v else lookup key rest
  end.

(** [d[key] = v]: an existing key keeps its place, a new one goes last. *)
Fixpoint assign (key : string) (v : value) (d : dict) : dict :=
  match d with
  | [] => [(key, v)]
  | (k, v0) :: rest =>
      if k =? key then (k, v) :: rest else (k, v0) :: assign key v rest
  end.

(** [merge_dict(base, update)] of [load_config], for the mapping [update];
    the result is [base] after the in-place merge. *)
Fixpoint merge_value (update : value) (base : dict) : dict :=
  match update with
  | Leaf _ => base
  | Dict entries =>
      (fix items (es : list (string * value)) (base : dict) : dict :=
         match es with
         | [] => base
         | (key, v) :: rest =>
             items rest
               match lookup key base, v with
               | Some (Dict b), Dict _ => assign key (Dict (merge_value v b)) base
               | _, _ => assign key v base
               end
         end) entries base
  end.

Definition merge_dict (base update : dict) : dict :=
  merge_value (Dict update) base.

(** The configuration file as [load_config] finds it. *)
Inductive file : Type :=
| Missing                 (* os.path.exists(config_file) is false *)
| Unreadable              (* open or yaml.safe_load raises *)
| Parsed (v : value).     (* what yaml.safe_load returns *)

(** [default_config] of [load_config]. *)
Definition default_config : dict :=
  [("wake_word", Dict
      [("phrase", Leaf (SStr "assistant"));
       ("timeout", Leaf (SNum 10));
       ("threshold", Leaf (SNum (7 # 10)))]);
   ("whisper", Dict
      [("model_dir", Leaf (SStr "whisper_model"));
       ("device", Leaf (SStr "cpu"));
       ("compute_type", Leaf (SStr "int8"));
       ("vad", Dict
          [("enabled", Leaf (SBool true));
           ("threshold", Leaf (SNum (45 # 100)));
           ("min_speech_duration_ms", Leaf (SNum 200));
           ("max_speech_duration_s", Leaf (SNum 30));
           ("min_silence_duration_ms", Leaf (SNum 500));
           ("speech_pad_ms", Leaf (SNum 600));
           ("no_speech_threshold", Leaf (SNum (5 # 10)))]);
       ("transcription", Dict
          [("language", Leaf (SStr "en"));
           ("beam_size", Leaf (SNum 3));
           ("best_of", Leaf (SNum 3));
           ("temperature", Leaf (SNum 0));
           ("compression_ratio_threshold", Leaf (SNum (24 # 10)));
           ("log_prob_threshold", Leaf (SNum (- (1))));
           ("no_speech_threshold", Leaf (SNum (5 # 10)))]);
       ("accent_prompt", Leaf (SStr
          "Nigerian English. West African accent. Common Nigerian names and expressions."))]);
   ("piper", Dict
      [("model_file", Leaf (SStr "voices/en_US-bryce-medium.onnx"));
       ("blocking_mode", Leaf (SBool false))]);
   ("audio", Dict
      [("sample_rate", Leaf (SNum 16000));
       ("chunk_duration_seconds", Leaf (SNum 3));
       ("blocksize", Leaf (SNum 4096));
       ("channels", Leaf (SNum 1));
       ("rms_threshold", Leaf (SNum (15 # 1000)));
       ("peak_threshold", Leaf (SNum (4 # 100)));
       ("noise_gate_threshold", Leaf (SNum (1 # 100)))]);
   ("logging", Dict
      [("level", Leaf (SStr "INFO"));
       ("file", Leaf (SStr "voice_assistant.log"));
       ("console", Leaf (SBool true))]);
   ("error_recovery", Dict
      [("max_restart_attempts", Leaf (SNum 3));
       ("restart_delay_seconds", Leaf (SNum 1))])].

(** [load_config(config_file)].  A file that does not parse to a mapping
    makes [merge_dict] raise on [update.items()] before anything is merged;
    the [except] clause then keeps the defaults. *)
Definition load_config (f : file) : dict :=
  match f with
  | Missing => default_config
  | Unreadable => default_config
  | Parsed (Leaf _) => default_config
  | Parsed (Dict user_config) => merge_dict default_config user_config
  end.

(** Reading along a list of keys, as [CONFIG[k1][k2]...] does; [None] where
    Python raises [KeyError] or [TypeError]. *)
Fixpoint get_path (v : value) (path : list string) : option value :=
  match path with
  | [] => Some v
  | key :: rest =>
      match v with
      | Dict d =>
          match lookup key d with
          | Some v' => get_path v' rest
          | None => None
          end
      | Leaf _ => None
      end
  end.

(** The keys of every mapping in the document are distinct. *)
Fixpoint well_formed (v : value) : Prop :=
  match v with
  | Leaf _ => True
  | Dict entries =>
      NoDup (map fst entries) /\
      (fix all (es : list (string * value)) : Prop :=
         match es with
         | [] => True
         | (_, v') :: rest => well_formed v' /\ all rest
         end) entries
  end.

(** [update] puts a mapping where [base] has a mapping and a scalar where
    [base] has a scalar. *)
Fixpoint same_shape (update : value) (base : dict) : Prop :=
  match update with
  | Leaf _ => True
  | Dict entries =>
      (fix all (es : list (string * value)) : Prop :=
         match es with
         | [] => True
         | (key, v) :: rest =>
             match lookup key base, v with
             | Some (Dict b), Dict _ => same_shape v b
             | Some (Leaf _), Leaf _ => True
             | None, _ => True
             | _, _ => False
             end /\ all rest
         end) entries
  end.

End ConfigFile.

(* ================================================================== *)
(** ** Dotted paths: [set_value] and [get_value] of [quick_tune.py],
       [Config.get] of [config_loader.py] *)
(* ================================================================== *)

Module QuickTune.
Import ConfigFile.
Local Open Scope string_scope.

(** [key_path.split('.')] *)
Fixpoint split_dot (key_path : string) : list string :=
  match key_path with
  | EmptyString => [EmptyString]
  | String c rest =>
      if Ascii.eqb c "." then EmptyString :: split_dot rest
      else
        match split_dot rest with
        | [] => [String c EmptyString]
        | k :: ks => String c k :: ks
        end
  end.

(** The body of [set_value] for the list [keys]: the loop over
    [keys[:-1]], which creates the mappings that are missing and steps
    into the ones that are there, then the assignment at [keys[-1]].
    [None] where Python raises ([TypeError] on anything that is not a
    mapping, [IndexError] on an empty list); this happens before anything
    has been changed, since a mapping created by the loop is never left
    again.  The source assigns in place.  The result here is the
    configuration as it reads from the top along the path written; where
    the file makes one mapping the value of two keys (a YAML alias), the
    assignment shows under the other key as well, and of that the result
    says nothing. *)
Fixpoint set_keys (keys : list string) (v : value) (config : value)
  : option value :=
  match config, keys with
  | Dict d, key :: rest =>
      match rest with
      | [] => Some (Dict (assign key v d))
      | _ :: _ =>
          match
            match lookup key d with
            | Some inner => set_keys rest v inner
            | None => set_keys rest v (Dict [])
            end
          with
          | Some inner' => Some (Dict (assign key inner' d))
          | None => None
          end
      end
  | _, _ => None
  end.

(** The loop of [get_value] / [Config.get] for the list [keys]. *)
Fixpoint get_keys (keys : list string) (v default : value) : value :=
  match keys with
  | [] => v
  | key :: rest =>
      match v with
      | Dict d =>
          match lookup key d with
          | Some inner => get_keys rest inner default
          | None => default
          end
      | Leaf _ => default
      end
  end.

(** [set_value(key_path, value)] on [self.config] *)
Definition set_value (key_path : string) (v : value) (config : value)
  : option value :=
  set_keys (split_dot key_path) v config.

(** [get_value(key_path, default)] on [self.config] *)
Definition get_value (key_path : string) (default : value) (config : value)
  : value :=
  get_keys (split_dot key_path) config default.

End QuickTune.

(* ================================================================== *)
(** ** [Config] of [config_loader.py]: the class defaults and the
       instances that share their sections *)
(* ================================================================== *)

Module Loader.
Import ConfigFile.


















End Loader.

(* ================================================================== *)
(** * Properties *)
(* ================================================================== *)

Lemma Qltb_lt (x y : Q) : Qltb x y = true <-> x < y.
Proof.
  unfold Qltb. rewrite negb_true_iff.
  destruct (Qle_bool y x) eqn:E.
  - apply Qle_bool_iff in E. split; [discriminate | intros H; exfalso; qlra].
  - split; [intros _ | reflexivity].
    destruct (Qlt_le_dec x y) as [H|H]; [exact H|].
    apply Qle_bool_iff in H. congruence.
Qed.

Lemma Qltb_ge (x y : Q) : Qltb x y = false <-> y <= x.
Proof.
  unfold Qltb. rewrite negb_false_iff. apply Qle_bool_iff.
Qed.


(* ------------------------------------------------------------------ *)
(** ** The wake word gate *)
(* ------------------------------------------------------------------ *)

Section Stripping.
Import PyStr.

Lemma prefix_empty s : prefix EmptyString s = true.
Proof. destruct s; reflexivity. Qed.

Lemma contains_empty s : contains EmptyString s = true.
Proof. destruct s; reflexivity. Qed.

Lemma contains_cons p c s :
  contains p (String c s) = prefix p (String c s) || contains p s.
Proof. reflexivity. Qed.

Lemma contains_lstrip p s :
  starts_with_space p = false -> contains p (lstrip s) = contains p s.
Proof.
  intros Hp. destruct p as [|a p]; [now rewrite !contains_empty|].
  simpl in Hp.
  induction s as [|c s IH]; [reflexivity|].
  simpl lstrip. destruct (is_space c) eqn:Sp; [|reflexivity].
  rewrite IH, contains_cons. simpl prefix.
  destruct (ascii_dec a c) as [->|]; [congruence | reflexivity].
Qed.

Lemma rstrip_cons c s :
  rstrip (String c s) =
  if is_empty (rstrip s) && is_space c then EmptyString
  else String c (rstrip s).
Proof.
  simpl. destruct (rstrip s); simpl; [|reflexivity].
  now destruct (is_space c).
Qed.

Lemma ends_with_space_tail a p :
  ends_with_space (String a p) = false -> ends_with_space p = false.
Proof. destruct p; [reflexivity | simpl; auto]. Qed.

Lemma prefix_rstrip p s :
  ends_with_space p = false -> prefix p (rstrip s) = prefix p s.
Proof.
  revert p. induction s as [|c s IH]; intros p Hp; [reflexivity|].
  destruct p as [|a p]; [now rewrite !prefix_empty|].
  pose proof (ends_with_space_tail _ _ Hp) as Hp'.
  rewrite rstrip_cons.
  destruct (is_empty (rstrip s) && is_space c) eqn:Both.
  - apply andb_true_iff in Both. destruct Both as [Em Sp].
    simpl. destruct (ascii_dec a c) as [->|]; [|reflexivity].
    rewrite <- (IH p Hp').
    destruct (rstrip s); [|discriminate Em].
    destruct p; [simpl in Hp; congruence | reflexivity].
  - simpl. destruct (ascii_dec a c); [apply IH, Hp' | reflexivity].
Qed.

Lemma contains_rstrip p s :
  ends_with_space p = false -> contains p (rstrip s) = contains p s.
Proof.
  intros Hp. induction s as [|c s IH]; [reflexivity|].
  rewrite contains_cons, <- (prefix_rstrip _ (String c s) Hp), <- IH.
  rewrite rstrip_cons.
  destruct (is_empty (rstrip s) && is_space c) eqn:Both.
  - apply andb_true_iff in Both. destruct Both as [Em _].
    destruct (rstrip s); [|discriminate Em].
    simpl. now destruct p.
  - apply contains_cons.
Qed.

(** Stripping the text does not change whether a phrase without white
    space at its ends occurs in it. *)
Lemma contains_strip p s :
  starts_with_space p = false -> ends_with_space p = false ->
  contains p (strip s) = contains p s.
Proof.
  intros H1 H2. unfold strip.
  now rewrite contains_rstrip, contains_lstrip.
Qed.

End Stripping.

Section WakeWordGate.
Import PyStr Wake.

Variable d : WakeWordDetector.
Variable now : Q.
Variable text : string.

(** The activation phrase occurs in the normalised utterance. *)
Let phrase_present : bool := contains (wake_word d) (text_lower text).

Lemma check_phrase :
  phrase_present = true -> check d now text = (true, set_awake d now).
Proof. unfold phrase_present, check. now intros ->. Qed.

Lemma check_awake_within :
  phrase_present = false -> is_awake d = true ->
  now - last_wake_time d < timeout d ->
  check d now text = (true, d).
Proof.
  unfold phrase_present, check. intros -> -> H.
  apply Qltb_lt in H. now rewrite H.
Qed.

Lemma check_awake_expired :
  phrase_present = false -> is_awake d = true ->
  timeout d <= now - last_wake_time d ->
  check d now text = (false, set_asleep d).
Proof.
  unfold phrase_present, check. intros -> -> H.
  apply Qltb_ge in H. now rewrite H.
Qed.

Lemma check_asleep :
  phrase_present = false -> is_awake d = false ->
  check d now text = (false, d).
Proof. unfold phrase_present, check. now intros -> ->. Qed.

End WakeWordGate.

(** C1.  [WakeWordDetector.check] is a two-state machine over
    [is_awake] and [last_wake_time].  For every detector state [d], clock
    reading [now] and utterance [text]:
    - when the normalised (lower-cased, stripped) text contains the phrase,
      the detector becomes awake, [last_wake_time] becomes [now] and the
      call returns [True];
    - when the phrase is absent, the detector is awake and
      [now - last_wake_time < timeout], the call returns [True] and the
      detector, its timer included, is unchanged;
    - when the phrase is absent and [now - last_wake_time >= timeout], the
      call returns [False], the detector is asleep afterwards and the timer
      is not touched;
    - when the phrase is absent and the detector is asleep, the call returns
      [False] and the detector stays asleep.
    The phrase is looked for in the stripped text; for a phrase without
    white space at its ends this is the same as looking for it in the
    lower-cased text. *)
Theorem wake_word_check_state_machine
    (d : Wake.WakeWordDetector) (now : Q) (text : string) :
  let present := PyStr.contains (Wake.wake_word d) (Wake.text_lower text) in
  let r := Wake.check d now text in
  (present = true ->
     fst r = true /\ Wake.is_awake (snd r) = true /\
     Wake.last_wake_time (snd r) = now) /\
  (present = false -> Wake.is_awake d = true ->
   now - Wake.last_wake_time d < Wake.timeout d ->
     fst r = true /\ snd r = d) /\
  (present = false -> Wake.timeout d <= now - Wake.last_wake_time d ->
     fst r = false /\ Wake.is_awake (snd r) = false /\
     Wake.last_wake_time (snd r) = Wake.last_wake_time d) /\
  (present = false -> Wake.is_awake d = false ->
     fst r = false /\ snd r = d) /\
  (PyStr.starts_with_space (Wake.wake_word d) = false ->
   PyStr.ends_with_space (Wake.wake_word d) = false ->
   present = PyStr.contains (Wake.wake_word d) (PyStr.lower text)).
Proof.
  cbv zeta.
  split; [|split; [|split; [|split]]];
    [| | | | intros H1 H2; now apply contains_strip].
  all: repeat split.
  - now rewrite check_phrase.
  - now rewrite check_phrase.
  - now rewrite check_phrase.
  - now rewrite check_awake_within.
  - now rewrite check_awake_within.
  - destruct (Wake.is_awake d) eqn:A.
    + now rewrite check_awake_expired.
    + now rewrite check_asleep.
  - destruct (Wake.is_awake d) eqn:A.
    + now rewrite check_awake_expired.
    + now rewrite check_asleep.
  - destruct (Wake.is_awake d) eqn:A.
    + now rewrite check_awake_expired.
    + now rewrite check_asleep.
  - now rewrite check_asleep.
  - now rewrite check_asleep.
Qed.

(** The phrase "assistant" with a timeout of ten seconds: "hello assistant"
    wakes the detector; "joke" five seconds later is still accepted and
    leaves the detector as it is; "joke" eleven seconds after the
    activation is refused and puts the detector to sleep. *)
Lemma wake_word_check_state_machine_witness :
  let d0 := Wake.init 10 "assistant" (7 # 10) in
  let r1 := Wake.check d0 100 "hello assistant" in
  let r2 := Wake.check (snd r1) 105 "joke" in
  let r3 := Wake.check (snd r1) 111 "joke" in
  let r4 := Wake.check (snd r3) 112 "joke" in
  (fst r1 = true /\ Wake.is_awake (snd r1) = true /\
   Wake.last_wake_time (snd r1) = 100) /\
  (fst r2 = true /\ snd r2 = snd r1) /\
  (fst r3 = false /\ Wake.is_awake (snd r3) = false /\
   Wake.last_wake_time (snd r3) = Wake.last_wake_time (snd r1)) /\
  (fst r4 = false /\ snd r4 = snd r3) /\
  PyStr.contains (Wake.wake_word d0) (Wake.text_lower " Hello Assistant ") =
  PyStr.contains (Wake.wake_word d0) (PyStr.lower " Hello Assistant ").
Proof.
  cbv zeta.
  set (d0 := Wake.init 10 "assistant" (7 # 10)).
  set (d1 := snd (Wake.check d0 100 "hello assistant")).
  set (d3 := snd (Wake.check d1 111 "joke")).
  split; [|split; [|split; [|split]]].
  - destruct (wake_word_check_state_machine d0 100 "hello assistant")
      as [H _].
    apply H. reflexivity.
  - destruct (wake_word_check_state_machine d1 105 "joke")
      as [_ [H _]].
    apply H; reflexivity.
  - destruct (wake_word_check_state_machine d1 111 "joke")
      as [_ [_ [H _]]].
    apply H; [reflexivity | discriminate].
  - destruct (wake_word_check_state_machine d3 112 "joke")
      as [_ [_ [_ [H _]]]].
    apply H; reflexivity.
  - destruct (wake_word_check_state_machine d0 0 " Hello Assistant ")
      as [_ [_ [_ [_ H]]]].
    apply H; reflexivity.
Defined.

(* ------------------------------------------------------------------ *)
(** ** The signal gate *)
(* ------------------------------------------------------------------ *)

Section SignalGate.
Import Audio.

Lemma np_abs_cons x xs : np_abs (x :: xs) = Qabs x :: np_abs xs.
Proof. reflexivity. Qed.

Lemma Forall2_right (A B : Type) (P : A -> B -> Prop) (G : B -> Prop) l l' :
  (forall x y, P x y -> G y) -> Forall2 P l l' -> Forall G l'.
Proof.
  intros H. induction 1 as [|x y l l' Hxy _ IH]; constructor; eauto.
Qed.

Lemma noise_gate_cons cfg x xs thr :
  noise_gate cfg (x :: xs) thr =
  x * of_bool (np_greater (Qabs x) (gate_threshold cfg thr))
  :: noise_gate cfg xs thr.
Proof. reflexivity. Qed.

Lemma noise_gate_length cfg audio thr :
  List.length (noise_gate cfg audio thr) = List.length audio.
Proof.
  induction audio as [|x xs IH]; [reflexivity|].
  rewrite noise_gate_cons. simpl. now rewrite IH.
Qed.

(** The comparison does not tell equal rationals apart. *)
Lemma np_greater_compat a b t : a == b -> np_greater a t = np_greater b t.
Proof.
  intros E. destruct t as [z|i| |sg m e]; try reflexivity;
    unfold np_greater;
    destruct (Qltb _ b) eqn:K.
  all: try (apply Qltb_lt; apply Qltb_lt in K; now rewrite E).
  all: apply Qltb_ge; apply Qltb_ge in K; now rewrite E.
Qed.

(** What the gate does to one sample. *)
Lemma gate_sample_muted t x :
  np_greater (Qabs x) t = false -> x * of_bool (np_greater (Qabs x) t) == 0.
Proof.
  intros ->. simpl. ring.
Qed.

Lemma gate_sample_kept t x :
  np_greater (Qabs x) t = true -> x * of_bool (np_greater (Qabs x) t) == x.
Proof.
  intros ->. simpl. ring.
Qed.

Lemma noise_gate_pointwise cfg audio thr :
  Forall2 (fun x y =>
             (np_greater (Qabs x) (gate_threshold cfg thr) = false -> y == 0) /\
             (np_greater (Qabs x) (gate_threshold cfg thr) = true -> y == x))
          audio (noise_gate cfg audio thr).
Proof.
  induction audio as [|x xs IH]; [constructor|].
  rewrite noise_gate_cons. constructor; [|exact IH].
  split; [apply gate_sample_muted | apply gate_sample_kept].
Qed.

End SignalGate.

(** C5, amended at the boundary and for the rounding of the threshold.
    [noise_gate(audio, threshold)] returns a new buffer of the same length;
    every output sample has magnitude 0 or the magnitude of the input
    sample, and a zero input sample gives a zero output sample.  The
    samples are compared with [threshold] as converted to float32: when
    this is a number, every sample whose absolute value is at most that
    number (below it or equal to it) is zero in the output and every sample
    whose absolute value is strictly above it equals the input sample; when
    [threshold] is beyond the float32 range, every sample is muted (above
    the range) or every sample is kept (below it). *)
Theorem noise_gate_mutes_up_to_threshold
    (cfg : Config) (audio : Audio.buffer) (thr : option Q) :
  let t := match thr with Some t => t | None => noise_gate_threshold cfg end in
  let t32 := Audio.np_float32 (Audio.python_float t) in
  let out := Audio.noise_gate cfg audio thr in
  List.length out = List.length audio /\
  Forall2 (fun x y =>
             (Qabs y == 0 \/ Qabs y == Qabs x) /\
             (x == 0 -> y == 0))
          audio out /\
  match t32 with
  | SpecFloat.S754_zero _ | SpecFloat.S754_finite _ _ _ =>
      Forall2 (fun x y =>
                 (Qabs x <= Audio.float_value t32 -> y == 0) /\
                 (Audio.float_value t32 < Qabs x -> y == x))
              audio out
  | SpecFloat.S754_infinity false | SpecFloat.S754_nan =>
      Forall (fun y => y == 0) out
  | SpecFloat.S754_infinity true =>
      Forall2 (fun x y => y == x) audio out
  end.
Proof.
  cbv zeta. fold (Audio.gate_threshold cfg thr).
  pose proof (noise_gate_pointwise cfg audio thr) as P.
  split; [apply noise_gate_length|]. split.
  - eapply Forall2_impl; [|exact P].
    intros x y [Hm Hk].
    destruct (Audio.np_greater (Qabs x) (Audio.gate_threshold cfg thr)).
    + specialize (Hk eq_refl). split.
      * right. now rewrite Hk.
      * intros X. now rewrite Hk.
    + specialize (Hm eq_refl). split.
      * left. now rewrite Hm.
      * intros _. exact Hm.
  - destruct (Audio.gate_threshold cfg thr) as [z|[|]| |sg m e].
    + eapply Forall2_impl; [|exact P].
      intros x y [Hm Hk]. unfold Audio.np_greater in Hm, Hk.
      split; intros H; [apply Hm, Qltb_ge | apply Hk, Qltb_lt]; exact H.
    + eapply Forall2_impl; [|exact P].
      intros x y [_ Hk]. now apply Hk.
    + eapply Forall2_right; [|exact P].
      intros x y [Hm _]. now apply Hm.
    + eapply Forall2_right; [|exact P].
      intros x y [Hm _]. now apply Hm.
    + eapply Forall2_impl; [|exact P].
      intros x y [Hm Hk]. unfold Audio.np_greater in Hm, Hk.
      split; intros H; [apply Hm, Qltb_ge | apply Hk, Qltb_lt]; exact H.
Qed.

(** The filter applied to the buffer [0.5, -0.005, 0] with the configured
    threshold 0.01, which float32 holds as 5368709 / 2^29: the first sample
    passes, the second is muted. *)
Lemma noise_gate_mutes_up_to_threshold_witness :
  let out := Audio.noise_gate default_config [1 # 2; - (5 # 1000); 0] None in
  Audio.float_value (Audio.np_float32 (Audio.python_float (1 # 100)))
  == 5368709 # 536870912 /\
  List.length out = 3%nat /\ nth 0 out 0 == 1 # 2 /\ nth 1 out 0 == 0.
Proof.
  cbv zeta.
  destruct (noise_gate_mutes_up_to_threshold
              default_config [1 # 2; - (5 # 1000); 0] None) as [L [_ F]].
  split; [vm_compute; reflexivity|].
  split; [exact L|].
  change (Audio.np_float32 (Audio.python_float (noise_gate_threshold default_config)))
    with (SpecFloat.S754_finite false 10737418 (-30)) in F.
  cbv iota in F.
  inversion F as [|x y xs ys [_ K] F1]; subst.
  inversion F1 as [|x' y' xs' ys' [M _] F2]; subst.
  split.
  - apply K. vm_compute. reflexivity.
  - apply M. vm_compute. discriminate.
Defined.

(** C5 as worded fails in two ways.  A sample whose magnitude equals the
    threshold is not below the threshold, yet it is muted.  And the sample
    13421773 / 2^27, the float32 nearest to 0.1, lies strictly above the
    threshold 0.1, yet it is muted: the comparison is made with the
    threshold converted to float32, which is that very sample. *)
Lemma noise_gate_at_threshold_counterexample :
  (let audio := [1 # 2] in
   let t := 1 # 2 in
   ~ Forall2 (fun x y => (Qabs x < t -> y == 0) /\ (~ Qabs x < t -> y == x))
             audio (Audio.noise_gate default_config audio (Some t))) /\
  (let x := 13421773 # 134217728 in
   let t := 1 # 10 in
   t < Qabs x /\
   Audio.float_value (Audio.np_float32 (Audio.python_float t)) == x /\
   Audio.noise_gate default_config [x] (Some t) = [x * 0]).
Proof.
  split.
  - cbv zeta. intros F.
    inversion F as [|x y xs ys [_ K] _]; subst.
    assert (N : ~ Qabs (1 # 2) < 1 # 2) by (intros L; discriminate L).
    specialize (K N). discriminate K.
  - cbv zeta. split; [reflexivity|]. split; vm_compute; reflexivity.
Qed.

(* ------------------------------------------------------------------ *)
(** ** The significance test *)
(* ------------------------------------------------------------------ *)

Section Significance.
Import Audio.

Lemma Q2R_zero : Q2R 0 = 0%R.
Proof. unfold Q2R. simpl. rlra. Qed.

Lemma Q2R_of_nat (n : nat) : Q2R (inject_Z (Z.of_nat n)) = INR n.
Proof.
  unfold Q2R. simpl. rewrite <- INR_IZR_INZ. rewrite Rinv_1. apply Rmult_1_r.
Qed.

(** [sqrt_gt] decides the comparison with the real square root. *)
Lemma sqrt_gt_spec (m t : Q) :
  0 <= m -> (sqrt_gt m t = true <-> (Q2R t < sqrt (Q2R m))%R).
Proof.
  intros Hm. unfold sqrt_gt. rewrite orb_true_iff, !Qltb_lt.
  assert (HmR : (0 <= Q2R m)%R) by (rewrite <- Q2R_zero; now apply Qle_Rle).
  pose proof (sqrt_pos (Q2R m)) as Hs.
  split.
  - intros [H|H]; apply Qlt_Rlt in H.
    + rewrite Q2R_zero in H. rlra.
    + rewrite Q2R_mult in H.
      destruct (Rlt_le_dec (Q2R t) 0) as [N|N]; [rlra|].
      rewrite <- (sqrt_square (Q2R t)) by exact N.
      apply sqrt_lt_1_alt. split; [|exact H].
      now apply Rmult_le_pos.
  - intros H. destruct (Qlt_le_dec t 0) as [N|N]; [now left|right].
    apply Rlt_Qlt. rewrite Q2R_mult.
    assert (NR : (0 <= Q2R t)%R) by (rewrite <- Q2R_zero; now apply Qle_Rle).
    apply sqrt_lt_0_alt. now rewrite sqrt_square.
Qed.

Lemma np_sum_square_R (audio : buffer) :
  Q2R (np_sum (square audio)) =
  fold_right Rplus 0%R (map (fun x => (Q2R x * Q2R x)%R) audio).
Proof.
  induction audio as [|x xs IH]; simpl.
  - apply Q2R_zero.
  - rewrite Q2R_plus, Q2R_mult. f_equal. exact IH.
Qed.

Lemma np_sum_square_nonneg (audio : buffer) : 0 <= np_sum (square audio).
Proof.
  induction audio as [|x xs IH]; simpl.
  - apply Qle_refl.
  - assert (S : 0 <= x * x) by Lqa.nra.
    qlra.
Qed.

Lemma np_mean_square_nonneg (audio : buffer) : 0 <= np_mean (square audio).
Proof.
  unfold np_mean, Qdiv. apply Qmult_le_0_compat.
  - apply np_sum_square_nonneg.
  - apply Qinv_le_0_compat.
    change 0 with (inject_Z 0). rewrite <- Zle_Qle. apply Nat2Z.is_nonneg.
Qed.

Lemma np_mean_square_R (audio : buffer) :
  audio <> [] ->
  Q2R (np_mean (square audio)) =
  (fold_right Rplus 0 (map (fun x => Q2R x * Q2R x) audio)
   / INR (List.length audio))%R.
Proof.
  intros NE. unfold np_mean.
  assert (L : List.length (square audio) = List.length audio)
    by apply length_map.
  rewrite L, Q2R_div.
  - now rewrite np_sum_square_R, Q2R_of_nat.
  - change 0 with (inject_Z 0). rewrite inject_Z_injective.
    destruct audio; [congruence | discriminate].
Qed.

(** The first disjunct of the source's result is the comparison of the root
    mean square with the threshold. *)
Lemma rms_exceeds_spec (audio : buffer) (t : Q) :
  audio <> [] ->
  (sqrt_gt (np_mean (square audio)) t = true <->
   (Q2R t < root_mean_square audio)%R).
Proof.
  intros NE. unfold root_mean_square.
  rewrite <- np_mean_square_R by exact NE.
  apply sqrt_gt_spec, np_mean_square_nonneg.
Qed.

Lemma np_max_spec (l : buffer) (a : Q) :
  let m := np_max a l in
  (m == a \/ exists y, In y l /\ m == y) /\
  a <= m /\
  (forall y, In y l -> y <= m).
Proof.
  unfold np_max. revert a. induction l as [|y l IH]; intros a; simpl.
  - split; [left; reflexivity|]. split; [apply Qle_refl | tauto].
  - destruct (IH (Qmax a y)) as [E [LB UB]].
    pose proof (Q.le_max_l a y) as La. pose proof (Q.le_max_r a y) as Ly.
    split; [|split].
    + destruct E as [E|[z [Hz E]]].
      * destruct (Q.max_spec a y) as [[_ M]|[_ M]].
        -- right. exists y. split; [now left | exact (Qeq_trans _ _ _ E M)].
        -- left. exact (Qeq_trans _ _ _ E M).
      * right. exists z. auto.
    + qlra.
    + intros z [<-|Hz]; [qlra | now apply UB].
Qed.

(** [np.max(np.abs(audio))] is the peak absolute amplitude. *)
Lemma np_max_is_peak (x : Q) (xs : buffer) :
  is_peak (x :: xs) (np_max (Qabs x) (np_abs xs)).
Proof.
  destruct (np_max_spec (np_abs xs) (Qabs x)) as [E [LB UB]].
  split.
  - destruct E as [E|[y [Hy E]]].
    + exists x. split; [now left | now symmetry].
    + apply in_map_iff in Hy. destruct Hy as [z [<- Hz]].
      exists z. split; [now right | now symmetry].
  - intros z [<-|Hz]; [exact LB|].
    apply UB. now apply in_map.
Qed.

Lemma is_peak_unique (audio : buffer) (p q : Q) :
  is_peak audio p -> is_peak audio q -> p == q.
Proof.
  intros [[x [Hx Ex]] Up] [[y [Hy Ey]] Uq].
  pose proof (Up y Hy). pose proof (Uq x Hx). qlra.
Qed.

Lemma all_zero_np_sum_square (audio : buffer) :
  all_zero audio -> np_sum (square audio) == 0.
Proof.
  induction 1 as [|x xs Hx _ IH]; simpl; [reflexivity|].
  rewrite IH, Hx. ring.
Qed.

Lemma all_zero_peak (audio : buffer) (p : Q) :
  all_zero audio -> is_peak audio p -> p == 0.
Proof.
  intros Z [[x [Hx E]] _].
  unfold all_zero in Z. rewrite Forall_forall in Z.
  rewrite <- E, (Z x Hx). reflexivity.
Qed.

(** On a non-empty silent buffer the test succeeds exactly when one of the
    thresholds is negative. *)
Lemma is_significant_audio_all_zero cfg (audio : buffer) (rt pt : Q) :
  audio <> [] -> all_zero audio ->
  (is_significant_audio cfg audio (Some rt) (Some pt) = true <->
   rt < 0 \/ pt < 0).
Proof.
  intros NE Z. destruct audio as [|x xs]; [congruence|].
  unfold is_significant_audio, sqrt_gt.
  rewrite !orb_true_iff, !Qltb_lt.
  pose proof (all_zero_peak Z (np_max_is_peak x xs)) as P.
  assert (M : np_mean (square (x :: xs)) == 0).
  { unfold np_mean. rewrite (all_zero_np_sum_square Z).
    unfold Qdiv. ring. }
  rewrite P, M.
  assert (0 <= rt * rt) by Lqa.nra.
  split; [intros [[H1|H1]|H1] | intros [H1|H1]]; try tauto.
  exfalso. qlra.
Qed.

End Significance.

(* ------------------------------------------------------------------ *)
(** ** The speech queue: stepping through schedules *)
(* ------------------------------------------------------------------ *)

Section Schedules.
Import TTS.

(** A property that holds initially and is kept by every step holds in
    every reachable state. *)
Lemma run_invariant (P : state -> Prop) :
  (forall a s s', P s -> exec a s = Some s' -> P s') ->
  forall acts s s', P s -> run acts s = Some s' -> P s'.
Proof.
  intros Step. induction acts as [|a rest IH]; simpl; intros s s' Ps R.
  - now inversion R; subst.
  - destruct (exec a s) as [s1|] eqn:E; [|discriminate].
    eapply IH; [|exact R]. eapply Step; eauto.
Qed.

Lemma reachable_invariant (P : state -> Prop) :
  P init ->
  (forall a s s', P s -> exec a s = Some s' -> P s') ->
  forall s, reachable s -> P s.
Proof.
  intros P0 Step s [acts R]. eapply run_invariant; eauto.
Qed.

Lemma reachable_init : reachable init.
Proof. now exists []. Qed.

Lemma run_app acts1 acts2 s :
  run (acts1 ++ acts2) s =
  match run acts1 s with
  | Some s' => run acts2 s'
  | None => None
  end.
Proof.
  revert s. induction acts1 as [|a rest IH]; simpl; intros s; [reflexivity|].
  destruct (exec a s); [apply IH | reflexivity].
Qed.

Lemma reachable_step a s s' :
  reachable s -> exec a s = Some s' -> reachable s'.
Proof.
  intros [acts R] E. exists (acts ++ [a]).
  rewrite run_app, R. simpl. now rewrite E.
Qed.

Lemma reachable_run acts s s' :
  reachable s -> run acts s = Some s' -> reachable s'.
Proof.
  intros [pre P] R. exists (pre ++ acts)%list. now rewrite run_app, P.
Qed.

End Schedules.

(** Case analysis of one step: every combination of action and program
    points in which the step is enabled, with the successor state
    substituted. *)
Ltac step_cases E :=
  match type of E with
  | TTS.exec ?a ?s = Some ?s' =>
      unfold TTS.exec in E;
      destruct a;
      destruct (TTS.client s) eqn:HC;
      try discriminate E;
      destruct (TTS.worker s) eqn:HW;
      try discriminate E;
      repeat match type of E with
             | context [match ?x with _ => _ end] =>
                 let Q := fresh "Q" in destruct x eqn:Q; try discriminate E
             | context [if ?x then _ else _] =>
                 let Q := fresh "Q" in destruct x eqn:Q; try discriminate E
             end;
      injection E as <-
  end.

(** Rewrite the goal with the equations on fields found in the context. *)
Ltac use_eqs :=
  repeat match goal with
         | H : ?f ?s = _ |- context [?f ?s] => rewrite H
         end.

Section SpeakingFlag.
Import TTS.

Lemma flag_inv_step a s s' :
  flag_inv s -> exec a s = Some s' -> flag_inv s'.
Proof.
  unfold flag_inv. intros I E.
  step_cases E; simpl in *; rewrite ?HW in *; simpl in *; auto; congruence.
Qed.

Lemma worker_events_flagged_step a s s' :
  flag_inv s -> worker_events_flagged s -> exec a s = Some s' ->
  worker_events_flagged s'.
Proof.
  unfold flag_inv, worker_events_flagged. intros I H E.
  step_cases E; simpl in *; rewrite ?HW in *; auto;
    intros e In_e; apply in_app_iff in In_e;
    (destruct In_e as [In_e|[<-|[]]]; [now apply H|]); simpl; auto.
Qed.

Lemma flag_invariant s :
  reachable s -> flag_inv s /\ worker_events_flagged s.
Proof.
  revert s.
  apply (reachable_invariant (fun s => flag_inv s /\ worker_events_flagged s)).
  - split; [reflexivity | intros e []].
  - intros a s0 s1 [I H] E. split.
    + eapply flag_inv_step; eauto.
    + eapply worker_events_flagged_step; eauto.
Qed.

(** The calling thread never writes the flag. *)
Lemma client_step_keeps_flag a s s' :
  client_action a = true -> exec a s = Some s' ->
  is_speaking s' = is_speaking s.
Proof.
  intros CA E. step_cases E; simpl in *; try discriminate CA; congruence.
Qed.

End SpeakingFlag.

(** C3, amended for the blocking call.  For every request processed by the
    background worker, [is_speaking] is set when synthesis and playback
    begin and still set when they end, whether [_speak_blocking] returns or
    raises; it is set for as long as the worker is inside
    [_speak_blocking]; and it is clear whenever the worker is back at its
    loop, that is, it has been cleared after the request whatever its
    outcome.  A [speak(text, blocking=True)] on the calling thread, like
    every other step of that thread, leaves the flag as it is. *)
Theorem worker_playback_sets_is_speaking (s : TTS.state) :
  TTS.reachable s ->
  (forall id text b late,
     In (TTS.EvPlayStart TTS.Worker id text b late) (TTS.history s) -> b = true) /\
  (forall id text returned b,
     In (TTS.EvPlayEnd TTS.Worker id text returned b) (TTS.history s) -> b = true) /\
  (forall id text,
     TTS.worker s = TTS.WLock id text \/ TTS.worker s = TTS.WPlay id text ->
     TTS.is_speaking s = true) /\
  (TTS.worker_idle s = true -> TTS.is_speaking s = false) /\
  (forall a s',
     TTS.client_action a = true -> TTS.exec a s = Some s' ->
     TTS.is_speaking s' = TTS.is_speaking s).
Proof.
  intros R. destruct (flag_invariant R) as [I H].
  unfold TTS.flag_inv in I. unfold TTS.worker_events_flagged in H.
  repeat split.
  - intros id text b late In_e. exact (H _ In_e).
  - intros id text returned b In_e. exact (H _ In_e).
  - intros id text [W|W]; now rewrite W in I.
  - unfold TTS.worker_idle. destruct (TTS.worker s); try discriminate; auto.
  - intros a s' CA E. eapply client_step_keeps_flag; eauto.
Qed.

(** A request spoken by the worker: the flag is set during playback. *)
Lemma worker_playback_sets_is_speaking_witness :
  exists s,
    TTS.run [TTS.ASpeak "hello"; TTS.AWorkerTest; TTS.AWorkerGet;
             TTS.AWorkerSet; TTS.AWorkerAcquire] TTS.init = Some s /\
    TTS.worker s = TTS.WPlay 0 "hello" /\
    TTS.is_speaking s = true.
Proof.
  eexists. split; [vm_compute; reflexivity|]. split; [reflexivity|].
  eapply worker_playback_sets_is_speaking.
  - exists [TTS.ASpeak "hello"; TTS.AWorkerTest; TTS.AWorkerGet;
            TTS.AWorkerSet; TTS.AWorkerAcquire].
    vm_compute. reflexivity.
  - right. reflexivity.
Defined.

(** C3 as worded fails for the blocking call: the calling thread is inside
    synthesis and playback while [is_speaking] is clear. *)
Lemma blocking_speak_flag_counterexample :
  exists s,
    TTS.run [TTS.ASpeakBlocking "hello"; TTS.AClientAcquire] TTS.init = Some s /\
    TTS.client s = TTS.CPlay "hello" /\
    TTS.is_speaking s = false /\
    In (TTS.EvPlayStart TTS.Client None "hello" false false) (TTS.history s).
Proof.
  eexists. split; [vm_compute; reflexivity|]. repeat split. now left.
Qed.

(* ------------------------------------------------------------------ *)
(** ** Command dispatch *)
(* ------------------------------------------------------------------ *)

Section Dispatch.
Import PyStr Assistant.

Variable cfg : Config.
Variable e : Env.

(** The loop passes over entries whose trigger does not occur. *)
Lemma dispatch_skip pre rest command_text :
  (forall t k, In (t, k) pre -> contains t command_text = false) ->
  dispatch cfg e (pre ++ rest) command_text = dispatch cfg e rest command_text.
Proof.
  induction pre as [|[t k] pre IH]; intros H; [reflexivity|].
  simpl. rewrite (H t k) by now left.
  apply IH. intros t' k' I. apply (H t' k'). now right.
Qed.

Lemma dispatch_hit trigger sk rest command_text :
  contains trigger command_text = true ->
  dispatch cfg e ((trigger, sk) :: rest) command_text =
  try_except (bind (log (CallSkill trigger sk)) (fun _ => run_skill cfg e sk))
             (tts_speak e "Sorry, something went wrong.").
Proof. simpl. now intros ->. Qed.

Lemma dispatch_nil command_text :
  dispatch cfg e [] command_text = tts_speak e (fallback command_text).
Proof. reflexivity. Qed.

(** Logging, speaking and the skills never enter a handler. *)
Lemma skill_calls_app l1 l2 :
  skill_calls (l1 ++ l2) = (skill_calls l1 + skill_calls l2)%nat.
Proof. unfold skill_calls. now rewrite filter_app, length_app. Qed.

Lemma tts_speak_skill_calls text s :
  skill_calls (calls (snd (tts_speak e text s))) = skill_calls (calls s).
Proof.
  unfold tts_speak, bind, log, guard. simpl.
  destruct (raises e AtSpeak); simpl;
    unfold skill_calls; rewrite filter_app, length_app; simpl; lia.
Qed.

Lemma run_skill_skill_calls sk s :
  skill_calls (calls (snd (run_skill cfg e sk s))) = skill_calls (calls s).
Proof.
  destruct sk; simpl;
    unfold _skill_tell_joke, _skill_tell_time, _skill_exit, _skill_sleep,
           try_except, tts_wait_until_done, tts_speak, bind, log, guard,
           gets, set_detector, set_keep_running, raise, ret;
    simpl;
    repeat match goal with
           | |- context [if ?b then _ else _] => destruct b; simpl
           end;
    unfold skill_calls; rewrite ?filter_app, ?length_app; simpl; lia.
Qed.

End Dispatch.

(** C4.  Command dispatch is first-match-wins over the table in its order:
    for every command text, the first entry whose trigger occurs in the
    text is the one handler that is invoked (wrapped so that its failure
    becomes a spoken apology), and dispatch stops there; if no trigger
    occurs in the text, no handler runs and the fallback reply is spoken.
    In every case at most one handler runs. *)
Theorem dispatch_first_match_wins
    (cfg : Config) (e : Assistant.Env)
    (table : list (string * Assistant.skill)) (command_text : string)
    (s : Assistant.state) :
  let r := Assistant.dispatch cfg e table command_text s in
  (forall pre trigger sk post,
     table = pre ++ (trigger, sk) :: post ->
     (forall t k, In (t, k) pre -> PyStr.contains t command_text = false) ->
     PyStr.contains trigger command_text = true ->
     r = match Assistant.run_skill cfg e sk
                 (snd (Assistant.log (Assistant.CallSkill trigger sk) s)) with
         | (Assistant.Ok _, s1) => (Assistant.Ok tt, s1)
         | (Assistant.Raise _, s1) =>
             Assistant.tts_speak e "Sorry, something went wrong." s1
         end /\
     Assistant.skill_calls (Assistant.calls (snd r)) =
     (Assistant.skill_calls (Assistant.calls s) + 1)%nat) /\
  ((forall t k, In (t, k) table -> PyStr.contains t command_text = false) ->
     r = Assistant.tts_speak e (Assistant.fallback command_text) s /\
     Assistant.skill_calls (Assistant.calls (snd r)) =
     Assistant.skill_calls (Assistant.calls s)) /\
  (Assistant.skill_calls (Assistant.calls (snd r)) <=
   Assistant.skill_calls (Assistant.calls s) + 1)%nat.
Proof.
  cbv zeta.
  assert (Hit : forall pre trigger sk post,
     table = pre ++ (trigger, sk) :: post ->
     (forall t k, In (t, k) pre -> PyStr.contains t command_text = false) ->
     PyStr.contains trigger command_text = true ->
     Assistant.dispatch cfg e table command_text s =
       match Assistant.run_skill cfg e sk
               (snd (Assistant.log (Assistant.CallSkill trigger sk) s)) with
       | (Assistant.Ok _, s1) => (Assistant.Ok tt, s1)
       | (Assistant.Raise _, s1) =>
           Assistant.tts_speak e "Sorry, something went wrong." s1
       end /\
     Assistant.skill_calls
       (Assistant.calls (snd (Assistant.dispatch cfg e table command_text s))) =
     (Assistant.skill_calls (Assistant.calls s) + 1)%nat).
  { intros pre trigger sk post -> Pre Here.
    rewrite (dispatch_skip cfg e pre _ command_text Pre).
    rewrite (dispatch_hit cfg e trigger sk post command_text Here).
    unfold Assistant.try_except, Assistant.bind. simpl.
    set (s0 := Assistant.mkState _ _ _ _ _ _).
    pose proof (run_skill_skill_calls cfg e sk s0) as N.
    assert (N0 : Assistant.skill_calls (Assistant.calls s0) =
                 (Assistant.skill_calls (Assistant.calls s) + 1)%nat).
    { unfold s0. simpl. unfold Assistant.skill_calls.
      rewrite filter_app, length_app. reflexivity. }
    destruct (Assistant.run_skill cfg e sk s0) as [[[]|x] s1]; simpl in *.
    - split; [reflexivity | lia].
    - split; [reflexivity|]. rewrite tts_speak_skill_calls. lia. }
  assert (Miss :
     (forall t k, In (t, k) table -> PyStr.contains t command_text = false) ->
     Assistant.dispatch cfg e table command_text s =
       Assistant.tts_speak e (Assistant.fallback command_text) s /\
     Assistant.skill_calls
       (Assistant.calls (snd (Assistant.dispatch cfg e table command_text s))) =
     Assistant.skill_calls (Assistant.calls s)).
  { intros None_hit.
    rewrite <- (app_nil_r table).
    rewrite (dispatch_skip cfg e table [] command_text None_hit).
    rewrite dispatch_nil. split; [reflexivity | apply tts_speak_skill_calls]. }
  split; [exact Hit|]. split; [exact Miss|].
  (* either some entry is the first to match, or none matches *)
  assert (Cases :
     (exists pre trigger sk post,
        table = pre ++ (trigger, sk) :: post /\
        (forall t k, In (t, k) pre -> PyStr.contains t command_text = false) /\
        PyStr.contains trigger command_text = true) \/
     (forall t k, In (t, k) table -> PyStr.contains t command_text = false)).
  { clear Hit Miss. induction table as [|[t k] rest IH].
    - right. intros ? ? [].
    - destruct (PyStr.contains t command_text) eqn:C.
      + left. exists [], t, k, rest. split; [reflexivity|].
        split; [intros ? ? []| exact C].
      + destruct IH as [[pre [tr [sk [post [-> [Pre Here]]]]]]|None_hit].
        * left. exists ((t, k) :: pre), tr, sk, post.
          split; [reflexivity|]. split; [|exact Here].
          intros t' k' [Eq|I]; [now inversion Eq; subst | eauto].
        * right. intros t' k' [Eq|I]; [now inversion Eq; subst | eauto]. }
  destruct Cases as [[pre [tr [sk [post [Eq [Pre Here]]]]]]|None_hit].
  - destruct (Hit pre tr sk post Eq Pre Here) as [_ N]. lia.
  - destruct (Miss None_hit) as [_ N]. lia.
Qed.

(** The table [("joke", jokeFn), ("time", timeFn)] on "tell me a joke
    please": the joke handler runs, and it alone. *)
Lemma dispatch_first_match_wins_witness :
  let e := Assistant.mkEnv 0 "a joke" "noon" (fun _ => false) in
  let table := [("joke"%string, Assistant.TellJoke);
                ("time"%string, Assistant.TellTime)] in
  Assistant.calls
    (snd (Assistant.dispatch default_config e table "tell me a joke please"
            (Assistant.initial_state default_config))) =
  [Assistant.CallSkill "joke" Assistant.TellJoke; Assistant.CallSpeak "a joke"].
Proof.
  cbv zeta.
  destruct (dispatch_first_match_wins default_config
              (Assistant.mkEnv 0 "a joke" "noon" (fun _ => false))
              [("joke"%string, Assistant.TellJoke);
               ("time"%string, Assistant.TellTime)]
              "tell me a joke please"
              (Assistant.initial_state default_config)) as [Hit _].
  destruct (Hit [] "joke"%string Assistant.TellJoke
                [("time"%string, Assistant.TellTime)]) as [-> _].
  - reflexivity.
  - intros t k [].
  - reflexivity.
  - reflexivity.
Defined.

(* ------------------------------------------------------------------ *)
(** ** Utterances made of the activation phrase alone *)
(* ------------------------------------------------------------------ *)

(** C10.  For every utterance whose lower-cased, stripped text is not the
    activation phrase itself and from which removing every occurrence of
    the phrase leaves nothing (nothing but white space, which
    [handle_command] strips), [handle_command] returns without making any
    call: no acknowledgment is spoken, no handler is dispatched and no
    fallback reply is produced.  Of the assistant's state only the wake
    word detector can have changed. *)
Theorem handle_command_repeated_phrase_is_silent
    (cfg : Config) (e : Assistant.Env) (text : string) (s : Assistant.state) :
  let t := PyStr.strip (PyStr.lower text) in
  PyStr.strip (PyStr.replace t (WAKE_WORD cfg) "") = EmptyString ->
  t <> WAKE_WORD cfg ->
  let r := Assistant.handle_command cfg e text s in
  fst r = Assistant.Ok tt /\
  Assistant.calls (snd r) = Assistant.calls s /\
  Assistant.keep_running (snd r) = Assistant.keep_running s /\
  Assistant.command_map (snd r) = Assistant.command_map s /\
  Assistant.restart_count (snd r) = Assistant.restart_count s /\
  Assistant.audio_buffer (snd r) = Assistant.audio_buffer s.
Proof.
  cbv zeta. intros Gone Differs.
  unfold Assistant.handle_command.
  destruct (PyStr.is_empty (PyStr.strip (PyStr.lower text))); [now simpl|].
  unfold Assistant.bind, Assistant.detector_check, Assistant.gets,
         Assistant.set_detector, Assistant.ret.
  simpl.
  destruct (fst (Wake.check (Assistant.wake_word_detector s) (Assistant.now e)
                   (PyStr.strip (PyStr.lower text)))); simpl; [|now auto].
  rewrite Gone. simpl.
  apply String.eqb_neq in Differs. rewrite Differs. simpl. now auto.
Qed.

(** The activation phrase said twice in a row. *)
Lemma handle_command_repeated_phrase_witness :
  let e := Assistant.mkEnv 100 "a joke" "noon" (fun _ => false) in
  Assistant.calls
    (snd (Assistant.handle_command default_config e "Assistant assistant"
            (Assistant.initial_state default_config))) = [].
Proof.
  cbv zeta.
  apply (handle_command_repeated_phrase_is_silent default_config
           (Assistant.mkEnv 100 "a joke" "noon" (fun _ => false))
           "Assistant assistant" (Assistant.initial_state default_config)).
  - reflexivity.
  - discriminate.
Defined.

(* ------------------------------------------------------------------ *)
(** ** What a computation adds to the log *)
(* ------------------------------------------------------------------ *)

Create HintDb keeps.

Section Keeps.
Import PyStr Assistant.

Variable Q : call -> Prop.

Lemma extends_refl s : extends Q s s.
Proof.
  split; [reflexivity|]. split; [reflexivity|].
  exists []. split; [now rewrite app_nil_r | constructor].
Qed.

Lemma extends_trans s1 s2 s3 :
  extends Q s1 s2 -> extends Q s2 s3 -> extends Q s1 s3.
Proof.
  intros [M1 [R1 [l1 [E1 F1]]]] [M2 [R2 [l2 [E2 F2]]]].
  split; [congruence|]. split; [congruence|].
  exists (l1 ++ l2). split.
  - now rewrite E2, E1, app_assoc.
  - apply Forall_app. now split.
Qed.

Lemma keeps_ret {A} (a : A) : keeps Q (ret a).
Proof. intros s. apply extends_refl. Qed.

Lemma keeps_raise {A} (x : exn) : keeps Q (@raise A x).
Proof. intros s. apply extends_refl. Qed.

Lemma keeps_gets {A} (f : state -> A) : keeps Q (gets f).
Proof. intros s. apply extends_refl. Qed.

Lemma keeps_guard b : keeps Q (guard b).
Proof. destruct b; [apply keeps_raise | apply keeps_ret]. Qed.

Lemma keeps_bind {A B} (m : M A) (k : A -> M B) :
  keeps Q m -> (forall a, keeps Q (k a)) -> keeps Q (bind m k).
Proof.
  intros Hm Hk s. unfold bind. specialize (Hm s).
  destruct (m s) as [[a|x] s1]; simpl in *; [|exact Hm].
  eapply extends_trans; [exact Hm | apply Hk].
Qed.

Lemma keeps_try_except {A} (m h : M A) :
  keeps Q m -> keeps Q h -> keeps Q (try_except m h).
Proof.
  intros Hm Hh s. unfold try_except. specialize (Hm s).
  destruct (m s) as [[a|x] s1]; simpl in *; [exact Hm|].
  eapply extends_trans; [exact Hm | apply Hh].
Qed.

Lemma keeps_log c : Q c -> keeps Q (log c).
Proof.
  intros Qc s. split; [reflexivity|]. split; [reflexivity|].
  exists [c]. split; [reflexivity | now constructor].
Qed.

Lemma keeps_set_detector d : keeps Q (set_detector d).
Proof. intros s. unfold extends. simpl. repeat split. exists []. now rewrite app_nil_r. Qed.

Lemma keeps_set_keep_running b : keeps Q (set_keep_running b).
Proof. intros s. unfold extends. simpl. repeat split. exists []. now rewrite app_nil_r. Qed.

Lemma keeps_set_audio_buffer b : keeps Q (set_audio_buffer b).
Proof. intros s. unfold extends. simpl. repeat split. exists []. now rewrite app_nil_r. Qed.

Hint Resolve keeps_ret keeps_raise keeps_gets keeps_guard keeps_log
  keeps_set_detector keeps_set_keep_running keeps_set_audio_buffer : keeps.

Ltac keeps_steps :=
  repeat first
    [ apply keeps_bind; [|intros ?]
    | apply keeps_try_except
    | solve [auto with keeps] ].

Variable cfg : Config.

Section Commands.
Hypothesis Q_command : forall c, command_call c -> Q c.

Lemma keeps_tts_speak e text : keeps Q (tts_speak e text).
Proof. unfold tts_speak. keeps_steps. apply keeps_log, Q_command. exact I. Qed.

Lemma keeps_run_skill e sk : keeps Q (run_skill cfg e sk).
Proof.
  destruct sk; simpl;
    unfold _skill_tell_joke, _skill_tell_time, _skill_exit, _skill_sleep,
           tts_wait_until_done;
    keeps_steps; try apply keeps_tts_speak;
    apply keeps_log, Q_command; exact I.
Qed.

Lemma keeps_dispatch e table command_text :
  keeps Q (dispatch cfg e table command_text).
Proof.
  induction table as [|[t k] rest IH]; simpl.
  - apply keeps_tts_speak.
  - destruct (contains t command_text); [|exact IH].
    apply keeps_try_except; [|apply keeps_tts_speak].
    apply keeps_bind; [|intros _; apply keeps_run_skill].
    apply keeps_log, Q_command. exact I.
Qed.

Lemma keeps_handle_command e text : keeps Q (handle_command cfg e text).
Proof.
  unfold handle_command.
  destruct (is_empty (strip (lower text))); [apply keeps_ret|].
  apply keeps_bind.
  - unfold detector_check. keeps_steps.
  - intros awake. destruct (negb awake); [apply keeps_ret|].
    destruct (_ && _); [apply keeps_ret|].
    destruct (_ || _); [apply keeps_tts_speak|].
    apply keeps_bind; [apply keeps_gets|]. intros table.
    apply keeps_dispatch.
Qed.

Lemma keeps_for_segments w segs : keeps Q (for_segments cfg w segs).
Proof.
  induction segs as [|[text e] rest IH]; simpl; [apply keeps_ret|].
  apply keeps_bind; [apply keeps_guard | intros _].
  apply keeps_bind; [|intros _; exact IH].
  destruct (is_empty (strip text)); [apply keeps_ret | apply keeps_handle_command].
Qed.

End Commands.

Lemma keeps_transcribe_audio w audio :
  Q (CallTranscribe audio) -> keeps Q (transcribe_audio w audio).
Proof. intros Qc. unfold transcribe_audio. keeps_steps. Qed.

End Keeps.

(* ------------------------------------------------------------------ *)
(** ** One pass of the supervising loop *)
(* ------------------------------------------------------------------ *)

Section ListenPass.
Import PyStr Audio Assistant.

Variable cfg : Config.
Variable w : World.

(** The [try] body logs neither a pause nor a shutdown and leaves the
    restart counter alone. *)
Lemma keeps_listen_try : keeps body_call (listen_try cfg w).
Proof.
  assert (QC : forall c, command_call c -> body_call c)
    by (intros []; simpl; tauto).
  unfold listen_try.
  apply keeps_bind; [destruct (queue_item w); [apply keeps_ret | apply keeps_raise]|].
  intros data.
  apply keeps_bind; [apply keeps_gets | intros buf].
  apply keeps_bind; [apply keeps_guard | intros _].
  apply keeps_bind; [apply keeps_set_audio_buffer | intros _].
  apply keeps_bind; [apply keeps_gets | intros buf'].
  destruct (_ <=? _)%Z; [|apply keeps_ret].
  apply keeps_bind; [now apply keeps_log | intros _].
  apply keeps_bind; [apply keeps_guard | intros _].
  destruct (negb _); [apply keeps_set_audio_buffer|].
  apply keeps_bind; [now apply keeps_log | intros _].
  apply keeps_bind; [apply keeps_guard | intros _].
  apply keeps_bind; [apply keeps_set_audio_buffer | intros _].
  apply keeps_bind; [apply keeps_gets | intros gated].
  apply keeps_bind; [|intros _; apply keeps_set_audio_buffer].
  destruct (negb (is_speaking w)); [|apply keeps_ret].
  apply keeps_bind; [now apply keeps_transcribe_audio | intros segs].
  now apply keeps_for_segments.
Qed.

(** While the synthesizer is speaking, the [try] body calls the two filters
    and nothing else. *)
Lemma keeps_listen_try_speaking :
  is_speaking w = true -> keeps gate_call (listen_try cfg w).
Proof.
  intros Sp. unfold listen_try.
  apply keeps_bind; [destruct (queue_item w); [apply keeps_ret | apply keeps_raise]|].
  intros data.
  apply keeps_bind; [apply keeps_gets | intros buf].
  apply keeps_bind; [apply keeps_guard | intros _].
  apply keeps_bind; [apply keeps_set_audio_buffer | intros _].
  apply keeps_bind; [apply keeps_gets | intros buf'].
  destruct (_ <=? _)%Z; [|apply keeps_ret].
  apply keeps_bind; [now apply keeps_log | intros _].
  apply keeps_bind; [apply keeps_guard | intros _].
  destruct (negb _); [apply keeps_set_audio_buffer|].
  apply keeps_bind; [now apply keeps_log | intros _].
  apply keeps_bind; [apply keeps_guard | intros _].
  apply keeps_bind; [apply keeps_set_audio_buffer | intros _].
  apply keeps_bind; [apply keeps_gets | intros gated].
  apply keeps_bind; [|intros _; apply keeps_set_audio_buffer].
  rewrite Sp. apply keeps_ret.
Qed.

(** Calls outside a class do not change the count of that class. *)
Lemma extends_count (Q : call -> Prop) (f : call -> bool) s s' :
  (forall c, Q c -> f c = false) ->
  extends Q s s' ->
  List.length (filter f (calls s')) = List.length (filter f (calls s)).
Proof.
  intros Out [_ [_ [l [-> F]]]].
  rewrite filter_app, length_app.
  assert (E : filter f l = []).
  { induction F as [|c l Qc _ IH]; simpl; [reflexivity|].
    now rewrite (Out c Qc). }
  rewrite E. simpl. lia.
Qed.

(** The full chunk met while the synthesizer speaks, when no call raises:
    both filters run, nothing is transcribed, the chunk is dropped. *)
Lemma listen_try_speaking_full_chunk s data :
  queue_item w = Some data ->
  let chunk := (audio_buffer s ++ data)%list in
  (CHUNK_SIZE_SAMPLES cfg <= Z.of_nat (List.length chunk))%Z ->
  is_speaking w = true ->
  fails w AtConcatenate = false ->
  fails w AtIsSignificant = false ->
  fails w AtNoiseGate = false ->
  listen_try cfg w s =
  (Ok tt,
   {| command_map := command_map s;
      restart_count := restart_count s;
      wake_word_detector := wake_word_detector s;
      keep_running := keep_running s;
      audio_buffer := [];
      calls :=
        (calls s ++
         CallIsSignificant chunk ::
         (if is_significant_audio cfg chunk None None
          then [CallNoiseGate chunk] else []))%list |}).
Proof.
  cbv zeta. intros Get Full Sp F1 F2 F3.
  apply Z.leb_le in Full.
  unfold listen_try, bind, gets, guard, log, set_audio_buffer, ret, raise.
  rewrite Get, F1. simpl. rewrite Full, F2. simpl.
  destruct (is_significant_audio cfg (audio_buffer s ++ data) None None); simpl.
  - rewrite F3, Sp. simpl. now rewrite <- app_assoc.
  - reflexivity.
Qed.

End ListenPass.

Section ListenPassOutcome.
Import Assistant.

Variable cfg : Config.
Variable w : World.
Variable s : state.

Lemma listen_pass_ok s1 u :
  listen_try cfg w s = (Ok u, s1) -> listen_pass cfg w s = (Continue, s1).
Proof. unfold listen_pass. now intros ->. Qed.

Lemma listen_pass_empty s1 :
  listen_try cfg w s = (Raise QueueEmpty, s1) ->
  listen_pass cfg w s = (Continue, s1).
Proof. unfold listen_pass. now intros ->. Qed.

Lemma listen_pass_retry s1 :
  listen_try cfg w s = (Raise Error, s1) ->
  (restart_count s1 < max_restart_attempts cfg)%nat ->
  listen_pass cfg w s =
  ((if sleep_refused (restart_delay_seconds cfg) || fails w AtSleep
    then Reraised else Continue),
   {| command_map := command_map s1;
      restart_count := restart_count s1 + 1;
      wake_word_detector := wake_word_detector s1;
      keep_running := keep_running s1;
      audio_buffer := audio_buffer s1;
      calls := calls s1 ++ [CallSleep (restart_delay_seconds cfg)] |}).
Proof.
  unfold listen_pass. intros -> Lt.
  apply Nat.ltb_lt in Lt. rewrite Lt.
  unfold time_sleep, bind, set_restart_count, log, guard, raise, ret.
  cbn [fst snd command_map restart_count wake_word_detector keep_running
       audio_buffer calls].
  now destruct (sleep_refused (restart_delay_seconds cfg) || fails w AtSleep).
Qed.

Lemma listen_pass_exhausted s1 :
  listen_try cfg w s = (Raise Error, s1) ->
  (max_restart_attempts cfg <= restart_count s1)%nat ->
  listen_pass cfg w s = (Reraised, s1).
Proof.
  unfold listen_pass. intros -> Ge.
  apply Nat.ltb_ge in Ge. now rewrite Ge.
Qed.

(** The [except] clauses add nothing but the pause to the log. *)
Lemma listen_pass_count (f : call -> bool) :
  (forall d, f (CallSleep d) = false) ->
  List.length (filter f (calls (snd (listen_pass cfg w s)))) =
  List.length (filter f (calls (snd (listen_try cfg w s)))).
Proof.
  intros NoSleep. unfold listen_pass.
  destruct (listen_try cfg w s) as [[u|[|]] s1]; simpl; try reflexivity.
  destruct (_ <? _)%nat; simpl; [|reflexivity].
  unfold time_sleep, bind, set_restart_count, log, guard, raise, ret.
  cbn [fst snd command_map restart_count wake_word_detector keep_running
       audio_buffer calls].
  destruct (sleep_refused (restart_delay_seconds cfg) || fails w AtSleep);
    cbn [snd calls];
    rewrite filter_app, length_app; simpl; rewrite NoSleep; simpl; lia.
Qed.

End ListenPassOutcome.

(** C2, amended for the two filters.  In every pass of the loop in which a
    full chunk is ready while [is_speaking] is set, the chunk is not
    transcribed (the number of transcription calls does not grow) and no
    command is handled; when no call raises, [is_significant_audio] is
    still called on the chunk, [noise_gate] is called on it exactly when it
    is significant, these are the only calls, and the chunk is discarded. *)
Theorem speaking_chunk_is_not_transcribed
    (cfg : Config) (w : Assistant.World) (s : Assistant.state)
    (data : Audio.buffer) :
  Assistant.queue_item w = Some data ->
  let chunk := (Assistant.audio_buffer s ++ data)%list in
  (Assistant.CHUNK_SIZE_SAMPLES cfg <= Z.of_nat (List.length chunk))%Z ->
  Assistant.is_speaking w = true ->
  let r := Assistant.listen_pass cfg w s in
  Assistant.transcriptions (Assistant.calls (snd r)) =
    Assistant.transcriptions (Assistant.calls s) /\
  Assistant.skill_calls (Assistant.calls (snd r)) =
    Assistant.skill_calls (Assistant.calls s) /\
  (Assistant.fails w Assistant.AtConcatenate = false ->
   Assistant.fails w Assistant.AtIsSignificant = false ->
   Assistant.fails w Assistant.AtNoiseGate = false ->
   fst r = Assistant.Continue /\
   Assistant.audio_buffer (snd r) = [] /\
   Assistant.calls (snd r) =
     (Assistant.calls s ++
      Assistant.CallIsSignificant chunk ::
      (if Audio.is_significant_audio cfg chunk None None
       then [Assistant.CallNoiseGate chunk] else []))%list).
Proof.
  cbv zeta. intros Get Full Sp.
  pose proof (@keeps_listen_try_speaking cfg w Sp s) as K.
  split; [|split].
  - unfold Assistant.transcriptions. rewrite listen_pass_count by reflexivity.
    eapply extends_count; [|exact K].
    intros []; simpl; tauto.
  - unfold Assistant.skill_calls. rewrite listen_pass_count by reflexivity.
    eapply extends_count; [|exact K].
    intros []; simpl; tauto.
  - intros F1 F2 F3.
    pose proof (@listen_try_speaking_full_chunk cfg w s data Get Full Sp F1 F2 F3) as E.
    rewrite (@listen_pass_ok cfg w s _ _ E). simpl. auto.
Qed.

Section LoudChunk.
Import Assistant Scenario.

Lemma loud_chunk_is_full :
  (CHUNK_SIZE_SAMPLES default_config <=
   Z.of_nat (List.length (audio_buffer (initial_state default_config)
                          ++ loud_chunk)))%Z.
Proof. vm_compute. discriminate. Qed.

Lemma loud_chunk_is_significant :
  Audio.is_significant_audio default_config loud_chunk None None = true.
Proof. vm_compute. reflexivity. Qed.

Lemma while_speaking_pass :
  listen_pass default_config while_speaking (initial_state default_config) =
  (Continue,
   {| command_map := initial_command_map;
      restart_count := 0;
      wake_word_detector :=
        Wake.init (WAKE_WORD_TIMEOUT default_config) (WAKE_WORD default_config)
                  (wake_threshold default_config);
      keep_running := true;
      audio_buffer := [];
      calls := [CallIsSignificant loud_chunk; CallNoiseGate loud_chunk] |}).
Proof.
  erewrite listen_pass_ok.
  2:{ apply listen_try_speaking_full_chunk with (data := loud_chunk);
        first [exact loud_chunk_is_full | reflexivity]. }
  change (audio_buffer (initial_state default_config) ++ loud_chunk)%list
    with loud_chunk.
  rewrite loud_chunk_is_significant. reflexivity.
Qed.

End LoudChunk.

(** A loud chunk that arrives while the synthesizer speaks. *)
Lemma speaking_chunk_is_not_transcribed_witness :
  let r := Assistant.listen_pass default_config Scenario.while_speaking
             (Assistant.initial_state default_config) in
  Assistant.transcriptions (Assistant.calls (snd r)) = 0%nat /\
  Assistant.audio_buffer (snd r) = [].
Proof.
  cbv zeta.
  destruct (@speaking_chunk_is_not_transcribed default_config
              Scenario.while_speaking (Assistant.initial_state default_config)
              Scenario.loud_chunk eq_refl loud_chunk_is_full eq_refl)
    as [T [_ D]].
  split; [exact T|].
  destruct (D eq_refl eq_refl eq_refl) as [_ [B _]]. exact B.
Defined.

(** C2 as worded fails for the two filters: a full chunk is ready, the
    synthesizer is speaking, and the pass calls [is_significant_audio] and
    [noise_gate] on the chunk all the same. *)
Lemma speaking_chunk_is_gated_counterexample :
  let w := Scenario.while_speaking in
  let s := Assistant.initial_state default_config in
  let r := Assistant.listen_pass default_config w s in
  Assistant.queue_item w = Some Scenario.loud_chunk /\
  (Assistant.CHUNK_SIZE_SAMPLES default_config <=
   Z.of_nat (List.length (Assistant.audio_buffer s ++ Scenario.loud_chunk)))%Z /\
  Assistant.is_speaking w = true /\
  In (Assistant.CallIsSignificant Scenario.loud_chunk) (Assistant.calls (snd r)) /\
  In (Assistant.CallNoiseGate Scenario.loud_chunk) (Assistant.calls (snd r)).
Proof.
  cbv zeta. rewrite while_speaking_pass.
  split; [reflexivity|]. split; [exact loud_chunk_is_full|].
  split; [reflexivity|]. simpl. auto.
Qed.

(* ------------------------------------------------------------------ *)
(** ** Bounded retry *)
(* ------------------------------------------------------------------ *)

Section Retry.
Import Audio Assistant.

Variable cfg : Config.
Variable w : World.

(** [transcribe_audio] never raises: an exception of the engine is turned
    into an empty list of segments. *)
Lemma transcribe_audio_total audio s :
  transcribe_audio w audio s =
  (Ok (if fails w AtTranscribe then [] else segments w),
   snd (log (CallTranscribe audio) s)).
Proof.
  unfold transcribe_audio, try_except, bind, guard, raise, ret, log. simpl.
  destruct (fails w AtTranscribe); reflexivity.
Qed.

(** A pass whose only mishap is the engine raising on a significant chunk. *)
Lemma listen_try_engine_raises s data :
  queue_item w = Some data ->
  let chunk := (audio_buffer s ++ data)%list in
  (CHUNK_SIZE_SAMPLES cfg <= Z.of_nat (List.length chunk))%Z ->
  is_significant_audio cfg chunk None None = true ->
  is_speaking w = false ->
  fails w AtConcatenate = false ->
  fails w AtIsSignificant = false ->
  fails w AtNoiseGate = false ->
  fails w AtTranscribe = true ->
  listen_try cfg w s =
  (Ok tt,
   {| command_map := command_map s;
      restart_count := restart_count s;
      wake_word_detector := wake_word_detector s;
      keep_running := keep_running s;
      audio_buffer := [];
      calls :=
        (calls s ++
         [CallIsSignificant chunk; CallNoiseGate chunk;
          CallTranscribe (noise_gate cfg chunk None)])%list |}).
Proof.
  cbv zeta. intros Get Full Sig Sp F1 F2 F3 F4.
  apply Z.leb_le in Full.
  unfold listen_try, bind, gets, guard, log, set_audio_buffer, ret, raise.
  rewrite Get, F1. cbn [fst snd audio_buffer]. rewrite Full, F2.
  cbn [fst snd audio_buffer calls]. rewrite Sig. cbn [negb].
  rewrite F3. cbn [fst snd audio_buffer calls]. rewrite Sp. cbn [negb].
  rewrite transcribe_audio_total, F4. cbn.
  now rewrite <- !app_assoc.
Qed.

Lemma listen_try_restart_count s :
  restart_count (snd (listen_try cfg w s)) = restart_count s.
Proof. now destruct (keeps_listen_try cfg w s) as [_ [R _]]. Qed.

Lemma listen_try_sleeps s :
  sleeps (calls (snd (listen_try cfg w s))) = sleeps (calls s).
Proof.
  unfold sleeps. eapply extends_count; [|apply (keeps_listen_try cfg w s)].
  intros []; simpl; tauto.
Qed.

Lemma listen_reraised ws s s1 :
  keep_running s = true ->
  listen_pass cfg w s = (Reraised, s1) ->
  listen cfg (w :: ws) s = (Fatal, snd (_cleanup s1)).
Proof.
  intros KR P. unfold listen. simpl. now rewrite KR, P.
Qed.

End Retry.

(** C8, amended for the transcription call and for the pause.  Every
    exception that leaves the [try] body of one pass of the loop,
    [queue.Empty] apart, is met by bounded retry with a fixed pause: while
    the restart counter is below the configured maximum it is incremented
    and [time.sleep] is called with the configured delay; when that call
    returns the loop continues, and when it raises (as it does for a
    delay it refuses, a negative one for instance) its exception leaves
    the loop with budget left and [listen] fails after its clean-up.  Once the counter has reached the
    maximum the exception is re-raised, the loop ends and [listen] fails
    after its clean-up.  A pass from which no such exception escapes
    continues without touching the counter and without pausing.  A failure
    of the transcription engine never leaves [transcribe_audio]: the call
    returns an empty list of segments. *)
Theorem listen_pass_bounded_retry
    (cfg : Config) (w : Assistant.World) (s : Assistant.state) :
  let body := Assistant.listen_try cfg w s in
  let r := Assistant.listen_pass cfg w s in
  (fst body = Assistant.Raise Assistant.Error ->
     ((Assistant.restart_count s < max_restart_attempts cfg)%nat ->
        Assistant.restart_count (snd r) = (Assistant.restart_count s + 1)%nat /\
        Assistant.calls (snd r) =
          (Assistant.calls (snd body)
           ++ [Assistant.CallSleep (restart_delay_seconds cfg)])%list /\
        Assistant.keep_running (snd r) = Assistant.keep_running (snd body) /\
        (Assistant.sleep_refused (restart_delay_seconds cfg) = false ->
         Assistant.fails w Assistant.AtSleep = false ->
         fst r = Assistant.Continue) /\
        (Assistant.sleep_refused (restart_delay_seconds cfg) = true \/
         Assistant.fails w Assistant.AtSleep = true ->
         fst r = Assistant.Reraised /\
         forall ws, Assistant.keep_running s = true ->
           Assistant.listen cfg (w :: ws) s =
           (Assistant.Fatal, snd (Assistant._cleanup (snd r))))) /\
     ((max_restart_attempts cfg <= Assistant.restart_count s)%nat ->
        r = (Assistant.Reraised, snd body) /\
        forall ws, Assistant.keep_running s = true ->
          Assistant.listen cfg (w :: ws) s =
          (Assistant.Fatal, snd (Assistant._cleanup (snd body))))) /\
  (fst body <> Assistant.Raise Assistant.Error ->
     r = (Assistant.Continue, snd body) /\
     Assistant.restart_count (snd r) = Assistant.restart_count s /\
     Assistant.sleeps (Assistant.calls (snd r)) =
       Assistant.sleeps (Assistant.calls s)) /\
  (forall audio s0,
     Assistant.transcribe_audio w audio s0 =
     (Assistant.Ok (if Assistant.fails w Assistant.AtTranscribe
                    then [] else Assistant.segments w),
      snd (Assistant.log (Assistant.CallTranscribe audio) s0))) /\
  (restart_delay_seconds cfg < 0 ->
   Assistant.sleep_refused (restart_delay_seconds cfg) = true).
Proof.
  cbv zeta.
  pose proof (listen_try_restart_count cfg w s) as RC.
  pose proof (listen_try_sleeps cfg w s) as SL.
  destruct (Assistant.listen_try cfg w s) as [res s1] eqn:Body.
  simpl in *. split; [|split; [|split]].
  - intros ->. split.
    + intros Lt. rewrite <- RC in Lt.
      pose proof (@listen_pass_retry cfg w s s1 Body Lt) as P.
      destruct (Assistant.sleep_refused (restart_delay_seconds cfg)
                || Assistant.fails w Assistant.AtSleep) eqn:Bad.
      * split; [rewrite P; cbn [snd Assistant.restart_count];
                now rewrite RC|].
        split; [rewrite P; reflexivity|].
        split; [rewrite P; reflexivity|]. split.
        -- intros Pos Sl.
           rewrite Pos, Sl in Bad. discriminate Bad.
        -- intros _. split; [rewrite P; reflexivity|].
           intros ws KR. rewrite P. cbn [snd].
           apply listen_reraised; [exact KR | exact P].
      * apply Bool.orb_false_iff in Bad. destruct Bad as [Pos Sl].
        split; [rewrite P; cbn [snd Assistant.restart_count];
                now rewrite RC|].
        split; [rewrite P; reflexivity|].
        split; [rewrite P; reflexivity|]. split.
        -- intros _ _. rewrite P. reflexivity.
        -- intros [Neg|Ab].
           ++ rewrite Neg in Pos. discriminate Pos.
           ++ rewrite Ab in Sl. discriminate Sl.
    + intros Ge. rewrite <- RC in Ge.
      pose proof (@listen_pass_exhausted cfg w s s1 Body Ge) as P.
      split; [exact P|]. intros ws KR.
      now apply listen_reraised.
  - intros NotError.
    assert (P : Assistant.listen_pass cfg w s = (Assistant.Continue, s1)).
    { destruct res as [u|[|]].
      - eapply listen_pass_ok; eauto.
      - eapply listen_pass_empty; eauto.
      - congruence. }
    rewrite P. simpl. auto.
  - intros audio s0. apply transcribe_audio_total.
  - intros Neg. unfold Assistant.sleep_refused.
    apply Qltb_lt in Neg. now rewrite Neg.
Qed.

(** The first failure of a pass under the default budget of three
    restarts: the counter goes to one, the loop pauses for a second and
    continues. *)
Lemma listen_pass_bounded_retry_witness :
  let r := Assistant.listen_pass default_config Scenario.concatenate_failure
             (Assistant.initial_state default_config) in
  fst r = Assistant.Continue /\
  Assistant.restart_count (snd r) = 1%nat /\
  Assistant.calls (snd r) = [Assistant.CallSleep 1].
Proof.
  cbv zeta.
  destruct (listen_pass_bounded_retry default_config
              Scenario.concatenate_failure
              (Assistant.initial_state default_config)) as [Escapes _].
  destruct (Escapes eq_refl) as [Retry _].
  destruct Retry as [N [L [_ [C _]]]].
  - simpl. lia.
  - split; [|split; [exact N | exact L]].
    apply C; reflexivity.
Defined.

(** C8 as worded fails twice.  For the transcription glitch: the engine is
    called and raises, yet the restart counter is not incremented and the
    loop does not pause.  For a negative delay: the first failure finds the
    whole budget of three restarts unused, yet the loop does not continue;
    [time.sleep] refuses the delay and [listen] ends fatally with the
    counter at one. *)
Lemma bounded_retry_counterexample :
  (let w := Scenario.engine_glitch in
   let s := Assistant.initial_state default_config in
   let r := Assistant.listen_pass default_config w s in
   Assistant.fails w Assistant.AtTranscribe = true /\
   Assistant.transcriptions (Assistant.calls (snd r)) = 1%nat /\
   fst r = Assistant.Continue /\
   Assistant.restart_count (snd r) = Assistant.restart_count s /\
   Assistant.sleeps (Assistant.calls (snd r)) = 0%nat) /\
  (let cfg := Scenario.negative_delay in
   let w := Scenario.concatenate_failure in
   let s := Assistant.initial_state cfg in
   let r := Assistant.listen cfg [w; w; w; w] s in
   restart_delay_seconds cfg < 0 /\
   max_restart_attempts cfg = 3%nat /\
   fst (Assistant.listen_try cfg w s) = Assistant.Raise Assistant.Error /\
   fst (Assistant.listen_pass cfg w s) = Assistant.Reraised /\
   fst r = Assistant.Fatal /\
   Assistant.restart_count (snd r) = 1%nat /\
   Assistant.calls (snd r)
   = [Assistant.CallSleep (restart_delay_seconds cfg);
      Assistant.CallShutdown]).
Proof.
  split.
  - cbv zeta.
    assert (Body := @listen_try_engine_raises default_config
                      Scenario.engine_glitch
                      (Assistant.initial_state default_config)
                      Scenario.loud_chunk eq_refl loud_chunk_is_full
                      loud_chunk_is_significant eq_refl eq_refl eq_refl
                      eq_refl eq_refl).
    rewrite (listen_pass_ok _ _ _ Body).
    split; [reflexivity|]. split; [reflexivity|]. split; [reflexivity|].
    split; reflexivity.
  - cbv zeta. split; [reflexivity|]. vm_compute. repeat split.
Qed.

(* ------------------------------------------------------------------ *)
(** ** The speech queue: accounting of requests *)
(* ------------------------------------------------------------------ *)

Section Accounting.
Import TTS.
Local Open Scope nat_scope.

Lemma count_inv_step a s s' :
  count_inv s -> exec a s = Some s' -> count_inv s'.
Proof.
  unfold count_inv, held. intros [N X] E.
  step_cases E; simpl in *; rewrite ?HW in *; rewrite ?length_app in *;
    simpl in *; use_eqs; simpl;
    (split; [lia | first [ discriminate | intros _; lia | congruence | auto ] ]).
Qed.

Lemma count_invariant s : reachable s -> count_inv s.
Proof.
  revert s. apply reachable_invariant.
  - split; [reflexivity | discriminate].
  - intros a s s'. apply count_inv_step.
Qed.

Ltac in_history :=
  simpl; rewrite ?in_app_iff; simpl; eauto.

(** The disjunct of [request_inv] that holds after the step. *)
Ltac request_place :=
  first
    [ solve [left; simpl; lia]
    | solve [right; left; in_history]
    | solve [right; left; simpl in *; intuition congruence]
    | solve [do 2 right; left; congruence]
    | solve [do 3 right; left; congruence]
    | solve [do 4 right; left; congruence]
    | solve [do 5 right; eexists; in_history]
    | solve [match goal with
             | D : WPlay _ _ = WPlay _ _ |- _ =>
                 inversion D; subst; do 5 right; eexists; in_history
             end]
    | solve [match goal with
             | D : _ = _ \/ In _ _ |- _ =>
                 destruct D as [D|D]; [inversion D; subst; auto 10 | auto 10]
             end] ].

Lemma request_inv_step a s s' :
  request_inv s -> exec a s = Some s' -> request_inv s'.
Proof.
  unfold request_inv, spoken. intros I E.
  step_cases E; simpl in *; intros rid rtext rlate P.
  all: rewrite ?in_app_iff in P; simpl in P.
  all: try (destruct P as [P|[P|[]]];
            [|try discriminate P; try (injection P as <- <- <-)]).
  all: try (specialize (I rid rtext rlate P)).
  all: try (destruct I as [D|[D|[D|[D|[D|[b D]]]]]]).
  all: try congruence.
  all: request_place.
Qed.

Lemma request_invariant s : reachable s -> request_inv s.
Proof.
  revert s. apply reachable_invariant.
  - intros rid rtext rlate [].
  - intros a s s'. apply request_inv_step.
Qed.

(** Every step only adds to the history. *)
Lemma history_grows a s s' :
  exec a s = Some s' -> incl (history s) (history s').
Proof.
  intros E. step_cases E; simpl; try apply incl_refl;
    apply incl_appl, incl_refl.
Qed.

Lemma history_grows_run acts :
  forall s s', run acts s = Some s' -> incl (history s) (history s').
Proof.
  induction acts as [|a rest IH]; simpl; intros s s' R.
  - injection R as <-. apply incl_refl.
  - destruct (exec a s) as [s1|] eqn:E; [|discriminate R].
    eapply incl_tran; [eapply history_grows; exact E | now apply IH].
Qed.

(** The worker's steps leave the calling thread where it is. *)
Lemma worker_step_client a s s' :
  client_action a = false -> exec a s = Some s' -> client s' = client s.
Proof.
  intros W E. step_cases E; simpl in *; try discriminate W; congruence.
Qed.

(** [join()] returns only when nothing is queued, held or lost. *)
Lemma join_quiet s :
  count_inv s -> unfinished_tasks s = 0 -> quiet s.
Proof.
  unfold count_inv, quiet, worker_idle, held. intros [N X] U.
  assert (QE : speech_queue s = [])
    by (destruct (speech_queue s); [reflexivity | simpl in N; lia]).
  assert (LZ : lost s = 0) by lia.
  split; [exact QE|]. split; [|split; [exact LZ | exact U]].
  destruct (worker s); try reflexivity; try lia.
  specialize (X eq_refl). lia.
Qed.

(** Once all is quiet it stays so until the calling thread puts a new
    request. *)
Lemma quiet_step a s s' :
  client_action a = false \/ a = AJoinReturn \/ a = AWaitReturn ->
  quiet s -> exec a s = Some s' -> quiet s'.
Proof.
  unfold quiet, worker_idle. intros W [QE [WI [LZ U]]] E.
  step_cases E; simpl in *; rewrite ?HW in *;
    try discriminate WI; try discriminate QE;
    try (destruct W as [W|[W|W]]; discriminate W);
    auto.
Qed.

Lemma worker_steps acts :
  Forall (fun a => client_action a = false) acts ->
  forall s s', run acts s = Some s' ->
    client s' = client s /\ (quiet s -> quiet s').
Proof.
  induction 1 as [|a rest W _ IH]; simpl; intros s s' R.
  - injection R as <-. auto.
  - destruct (exec a s) as [s1|] eqn:E; [|discriminate R].
    destruct (IH s1 s' R) as [C Q]. split.
    + rewrite C. eapply worker_step_client; eauto.
    + intros Qs. apply Q.
      apply (@quiet_step a s s1); [left; exact W | exact Qs | exact E].
Qed.

(** A request that was put has been spoken once all is quiet. *)
Lemma quiet_spoken s rid rtext rlate :
  request_inv s -> quiet s ->
  In (EvPut rid (Some rtext) rlate) (history s) -> spoken s rid rtext.
Proof.
  unfold quiet, worker_idle. intros I [QE [WI [LZ _]]] P.
  destruct (I rid rtext rlate P) as [D|[D|[D|[D|[D|D]]]]].
  - lia.
  - rewrite QE in D. destruct D.
  - rewrite D in WI. discriminate WI.
  - rewrite D in WI. discriminate WI.
  - rewrite D in WI. discriminate WI.
  - exact D.
Qed.

Lemma spoken_later s s' rid rtext :
  incl (history s) (history s') -> spoken s rid rtext -> spoken s' rid rtext.
Proof.
  intros H [b B]. exists b. now apply H.
Qed.

End Accounting.

Section SplitSchedule.

Variable A : Type.
Variable f : A -> bool.

Lemma filter_nil_Forall (l : list A) :
  filter f l = [] -> Forall (fun a => f a = false) l.
Proof.
  induction l as [|x l IH]; simpl; [constructor|].
  destruct (f x) eqn:Fx; [discriminate|]. intros H. constructor; auto.
Qed.

Lemma filter_cons_split (l : list A) (x : A) (rest : list A) :
  filter f l = x :: rest ->
  exists l1 l2,
    l = (l1 ++ x :: l2)%list /\
    Forall (fun a => f a = false) l1 /\
    filter f l2 = rest.
Proof.
  induction l as [|y l IH]; simpl; [discriminate|].
  destruct (f y) eqn:Fy.
  - intros H. injection H as -> <-. exists [], l. auto.
  - intros H. destruct (IH H) as [l1 [l2 [-> [F R]]]].
    exists (y :: l1), l2. repeat split; auto.
Qed.

End SplitSchedule.

Section ExitHandler.
Import Assistant.
Local Open Scope string_scope.

Lemma skipn_length_app (A : Type) (l l' : list A) :
  skipn (List.length l) (l ++ l') = l'.
Proof. induction l; simpl; auto. Qed.

(** The handler, call by call. *)
Lemma skill_exit_run e s :
  _skill_exit e s =
  if raises e AtSpeak then
    (Raise Error, snd (log (CallSpeak "Goodbye! Shutting down now.") s))
  else if raises e AtWaitUntilDone then
    (Raise Error,
     snd (log CallWaitUntilDone
            (snd (log (CallSpeak "Goodbye! Shutting down now.") s))))
  else
    (Ok tt,
     snd (set_keep_running false
            (snd (log CallWaitUntilDone
                    (snd (log (CallSpeak "Goodbye! Shutting down now.") s)))))).
Proof.
  unfold _skill_exit, tts_speak, tts_wait_until_done, bind, guard, raise, ret.
  simpl. destruct (raises e AtSpeak); simpl; [reflexivity|].
  destruct (raises e AtWaitUntilDone); reflexivity.
Qed.

End ExitHandler.

Section Against.
Import TTS.

(** The steps of a call of [speak] followed by a call of
    [wait_until_done], interleaved in any way with steps of the worker. *)
Lemma speak_then_wait (text : string) (acts : list action) (t t' : state) :
  reachable t -> client t = CIdle ->
  run acts t = Some t' ->
  filter client_action acts
  = [ASpeak text; AWaitUntilDone; AJoinReturn; AWaitReturn] ->
  exists before after t0,
    acts = (before ++ ASpeak text :: after)%list /\
    Forall (fun x => client_action x = false) before /\
    run before t = Some t0 /\
    spoken t' (next_id t0) text /\
    quiet t' /\
    is_speaking t' = false /\
    client t' = CIdle.
Proof.
  intros R0 C0 Run F.
  destruct (filter_cons_split _ _ F) as [w0 [r0 [-> [W0 F0]]]].
  destruct (filter_cons_split _ _ F0) as [w1 [r1 [-> [W1 F1]]]].
  destruct (filter_cons_split _ _ F1) as [w2 [r2 [-> [W2 F2]]]].
  destruct (filter_cons_split _ _ F2) as [w3 [w4 [-> [W3 F3]]]].
  apply filter_nil_Forall in F3. rename F3 into W4.
  exists w0, (w1 ++ AWaitUntilDone :: w2 ++ AJoinReturn :: w3
              ++ AWaitReturn :: w4)%list.
  rewrite run_app in Run.
  destruct (run w0 t) as [t0|] eqn:R0'; [|discriminate Run].
  exists t0. split; [reflexivity|]. split; [exact W0|].
  split; [reflexivity|].
  cbn [run] in Run.
  destruct (exec (ASpeak text) t0) as [t1|] eqn:E1; [|discriminate Run].
  rewrite run_app in Run.
  destruct (run w1 t1) as [t2|] eqn:R1; [|discriminate Run].
  cbn [run] in Run.
  destruct (exec AWaitUntilDone t2) as [t3|] eqn:E2; [|discriminate Run].
  rewrite run_app in Run.
  destruct (run w2 t3) as [t4|] eqn:R2; [|discriminate Run].
  cbn [run] in Run.
  destruct (exec AJoinReturn t4) as [t5|] eqn:E3; [|discriminate Run].
  rewrite run_app in Run.
  destruct (run w3 t5) as [t6|] eqn:R3; [|discriminate Run].
  cbn [run] in Run.
  destruct (exec AWaitReturn t6) as [t7|] eqn:E4; [|discriminate Run].
  (* the states on the way are reachable *)
  assert (Rt0 : reachable t0) by (eapply reachable_run; eauto).
  assert (Rt1 : reachable t1) by (eapply reachable_step; eauto).
  assert (Rt2 : reachable t2) by (eapply reachable_run; eauto).
  assert (Rt3 : reachable t3) by (eapply reachable_step; eauto).
  assert (Rt4 : reachable t4) by (eapply reachable_run; eauto).
  assert (Rt5 : reachable t5) by (eapply reachable_step; eauto).
  assert (Rt6 : reachable t6) by (eapply reachable_run; eauto).
  assert (Rt7 : reachable t7) by (eapply reachable_step; eauto).
  assert (Rt' : reachable t') by (eapply reachable_run; eauto).
  (* the request is in the history from the put on *)
  assert (P1 : In (EvPut (next_id t0) (Some text) (shutdown_flag t0))
                  (history t1)).
  { unfold exec in E1. destruct (client t0); try discriminate E1.
    injection E1 as <-. simpl. apply in_or_app. right. now left. }
  assert (P4 : In (EvPut (next_id t0) (Some text) (shutdown_flag t0))
                  (history t4)).
  { eapply history_grows_run; [exact R2|].
    eapply history_grows; [exact E2|].
    eapply history_grows_run; [exact R1 | exact P1]. }
  (* join() returns: all is quiet *)
  assert (Q4 : quiet t4).
  { apply join_quiet; [now apply count_invariant|].
    unfold exec in E3. destruct (client t4); try discriminate E3.
    destruct (unfinished_tasks t4 =? 0) eqn:U; [|discriminate E3].
    now apply Nat.eqb_eq. }
  assert (S4 : spoken t4 (next_id t0) text).
  { eapply quiet_spoken; [now apply request_invariant | exact Q4 | exact P4]. }
  assert (Q5 : quiet t5)
    by (apply (@quiet_step AJoinReturn t4 t5); auto).
  destruct (worker_steps W3 _ R3) as [Cl6 Q6]. specialize (Q6 Q5).
  assert (Q7 : quiet t7)
    by (apply (@quiet_step AWaitReturn t6 t7); auto).
  assert (Cl7 : client t7 = CIdle).
  { unfold exec in E4. destruct (client t6); try discriminate E4.
    destruct (is_speaking t6); [discriminate E4|].
    injection E4 as <-. reflexivity. }
  destruct (worker_steps W4 _ Run) as [C' Q']. specialize (Q' Q7).
  split; [|split; [exact Q'|split; [|congruence]]].
  - eapply spoken_later; [|exact S4].
    eapply incl_tran; [eapply history_grows; exact E3|].
    eapply incl_tran; [eapply history_grows_run; exact R3|].
    eapply incl_tran; [eapply history_grows; exact E4|].
    eapply history_grows_run; exact Run.
  - destruct (flag_invariant Rt') as [FI _].
    destruct Q' as [_ [WI _]].
    unfold flag_inv in FI. unfold worker_idle in WI.
    destruct (worker t'); try discriminate WI; exact FI.
Qed.

End Against.

(** C7.  The exit handler enqueues the farewell, then waits in
    [wait_until_done], and only then clears [keep_running]:
    - the calls [_skill_exit] makes are [speak] with the farewell and then,
      if that call returns, [wait_until_done], in this order and no
      others;
    - [keep_running] is cleared exactly when both calls have returned; when
      one of them raises, the handler ends there and leaves
      [keep_running] as it was;
    - when the handler reaches [self.keep_running = False], then in every
      run of the handler against the worker thread (the calling thread
      takes the steps of these two calls, the worker's steps fall between
      them in any way, starting from any reachable state in which the
      calling thread is between calls) the request put by the handler has
      been through [_speak_blocking] in the worker (the call has
      returned), the queue is empty, the worker is idle and [is_speaking]
      is clear.
    So the handler never clears [keep_running] before the farewell has
    been spoken.  ([listen] also clears [keep_running] on
    [KeyboardInterrupt]; that is not the handler's doing.) *)
Theorem skill_exit_stops_after_farewell
    (e : Assistant.Env) (a : Assistant.state)
    (acts : list TTS.action) (t t' : TTS.state) :
  let farewell := "Goodbye! Shutting down now."%string in
  let r := Assistant._skill_exit e a in
  let made := Calls.made (Assistant._skill_exit e) a in
  made = Assistant.CallSpeak farewell ::
         (if Assistant.raises e Assistant.AtSpeak then []
          else [Assistant.CallWaitUntilDone]) /\
  (if Assistant.raises e Assistant.AtSpeak
      || Assistant.raises e Assistant.AtWaitUntilDone
   then fst r = Assistant.Raise Assistant.Error /\
        Assistant.keep_running (snd r) = Assistant.keep_running a
   else fst r = Assistant.Ok tt /\
        Assistant.keep_running (snd r) = false) /\
  (fst r = Assistant.Ok tt ->
   TTS.reachable t -> TTS.client t = TTS.CIdle ->
   TTS.run acts t = Some t' ->
   filter TTS.client_action acts = flat_map Calls.steps made ->
   exists before after t0,
     acts = (before ++ TTS.ASpeak farewell :: after)%list /\
     Forall (fun x => TTS.client_action x = false) before /\
     TTS.run before t = Some t0 /\
     TTS.spoken t' (TTS.next_id t0) farewell /\
     TTS.speech_queue t' = [] /\
     TTS.worker_idle t' = true /\
     TTS.is_speaking t' = false /\
     TTS.client t' = TTS.CIdle).
Proof.
  cbv zeta. unfold Calls.made. rewrite skill_exit_run.
  destruct (Assistant.raises e Assistant.AtSpeak) eqn:Sp;
    [|destruct (Assistant.raises e Assistant.AtWaitUntilDone) eqn:Wt];
    cbn [orb fst snd Assistant.log Assistant.set_keep_running
         Assistant.calls Assistant.keep_running].
  - rewrite skipn_length_app. split; [reflexivity|].
    split; [split; reflexivity|]. discriminate.
  - rewrite <- app_assoc, skipn_length_app. split; [reflexivity|].
    split; [split; reflexivity|]. discriminate.
  - rewrite <- app_assoc, skipn_length_app. split; [reflexivity|].
    split; [split; reflexivity|].
    intros _ R C Run F.
    destruct (speak_then_wait _ R C Run F)
      as [before [after [t0 [Ea [W [R0 [S [Q [I C']]]]]]]]].
    exists before, after, t0.
    destruct Q as [QE [WI _]]. auto 10.
Qed.

(** The handler run to its end while the worker speaks the farewell. *)
Lemma skill_exit_stops_after_farewell_witness :
  let farewell := "Goodbye! Shutting down now."%string in
  let acts :=
    [TTS.ASpeak farewell; TTS.AWorkerTest; TTS.AWorkerGet; TTS.AWorkerSet;
     TTS.AWorkerAcquire; TTS.AWorkerFinish true; TTS.AWorkerClear;
     TTS.AWorkerTaskDone; TTS.AWaitUntilDone; TTS.AJoinReturn;
     TTS.AWaitReturn; TTS.AWorkerTest] in
  Assistant.keep_running
    (snd (Assistant._skill_exit Scenario.calm
            (Assistant.initial_state default_config))) = false /\
  exists t',
    TTS.run acts TTS.init = Some t' /\
    TTS.spoken t' 0 farewell /\
    TTS.speech_queue t' = [] /\
    TTS.is_speaking t' = false.
Proof.
  intros farewell acts.
  destruct (@skill_exit_stops_after_farewell Scenario.calm
              (Assistant.initial_state default_config) acts TTS.init)
    with (t' := match TTS.run acts TTS.init with
                | Some t' => t'
                | None => TTS.init
                end)
    as [_ [[_ K] H]].
  split; [exact K|].
  destruct (TTS.run acts TTS.init) as [t'|] eqn:Run;
    [|vm_compute in Run; discriminate Run].
  exists t'. split; [reflexivity|].
  destruct H as [before [after [t0 [Ea [W [R0 [S [Q [_ [I _]]]]]]]]]].
  - reflexivity.
  - apply reachable_init.
  - reflexivity.
  - reflexivity.
  - reflexivity.
  - destruct before as [|x before].
    + injection R0 as <-. auto.
    + injection Ea as <- _. inversion W as [|? ? Wx _]. discriminate Wx.
Defined.

(* ------------------------------------------------------------------ *)
(** ** The speech queue: shutdown *)
(* ------------------------------------------------------------------ *)

Section Shutdown.
Import TTS.
Local Open Scope nat_scope.

(** Putting a fresh number at the end keeps the queue in order. *)
Lemma sorted_snoc (q : list item) (n : nat) (x : option string) :
  StronglySorted (fun a b : item => fst a < fst b) q ->
  Forall (fun it : item => fst it < n) q ->
  StronglySorted (fun a b : item => fst a < fst b) (q ++ [(n, x)]).
Proof.
  induction 1 as [|a q S IH Hd]; intros B; simpl.
  - repeat constructor.
  - inversion B as [|? ? Ba Bq]; subst. constructor; [now apply IH|].
    apply Forall_app. split; [exact Hd|]. now repeat constructor.
Qed.

Lemma queue_ok_put s x :
  queue_ok s -> queue_ok (put x s).
Proof.
  intros [S B]. split; simpl.
  - now apply sorted_snoc.
  - apply Forall_app. split.
    + apply Forall_forall. intros it Hin.
      rewrite Forall_forall in B. specialize (B it Hin). simpl. lia.
    + constructor; [simpl; lia | constructor].
Qed.

(** Taking the head keeps the rest in order. *)
Lemma queue_ok_step a s s' :
  queue_ok s -> exec a s = Some s' -> queue_ok s'.
Proof.
  intros I E.
  step_cases E; try (apply queue_ok_put); try exact I.
  all: try (destruct I as [S B]; rewrite Q in S, B;
            inversion S; inversion B; subst; split; simpl; assumption).
Qed.

(** The worker only touches numbers that have been given out. *)
Lemma ids_inv_step a s s' :
  queue_ok s -> ids_inv s -> exec a s = Some s' -> ids_inv s'.
Proof.
  unfold ids_inv, worker_id. intros [S B] [I1 I2] E.
  step_cases E; simpl in *; rewrite ?HW in *; simpl in *.
  all: split; [intros id' Hid; try discriminate Hid; try (injection Hid as <-)
              | intros id' text' b' late' Hin;
                rewrite ?in_app_iff in Hin; simpl in Hin].
  all: try solve [ auto | eauto | specialize (I1 _ eq_refl); lia ].
  all: try solve [ apply I2 in Hin; lia ].
  all: try solve [ destruct Hin as [Hin|[Hin|[]]];
                   [ apply I2 in Hin; lia
                   | first [ discriminate Hin
                           | inversion Hin; subst; specialize (I1 _ eq_refl); lia ] ] ].
  all: try solve [ specialize (I1 _ Hid); lia ].
  all: try solve [ inversion B; subst; simpl in *; lia ].
Qed.

(** Until [shutdown()] has put its signal, the calling thread puts no
    request with the flag set. *)
Lemma before_sentinel_step a s s' :
  before_sentinel s -> exec a s = Some s' -> before_sentinel s'.
Proof.
  unfold before_sentinel. intros I E.
  step_cases E; simpl in *; intros SN;
    try (destruct (sentinel s) eqn:SE; try discriminate SN);
    destruct (I eq_refl) as [NN [FL NL]]; clear I.
  all: split; [|split].
  all: use_eqs.
  all: try solve [ assumption | discriminate | intros _; reflexivity ].
  all: try solve [ exfalso; specialize (FL eq_refl); discriminate FL ].
  all: try solve [ intros FT; specialize (FL FT); congruence ].
  all: try solve [ apply Forall_app; split; [exact NN | repeat constructor; discriminate] ].
  all: try solve [ inversion NN; assumption ].
  all: try solve [ intros id' text' Hin; rewrite in_app_iff in Hin; simpl in Hin;
                   destruct Hin as [Hin|[Hin|[]]];
                   [ exact (NL _ _ Hin)
                   | first [ discriminate Hin
                           | inversion Hin as [[E1 E2 E3]];
                             specialize (FL E3); congruence ] ] ].
Qed.

(** The head of the queue is older than every entry behind it. *)
Lemma sorted_head_lt (q : list item) (n sid : nat) (x y : option string) :
  StronglySorted (fun a b : item => fst a < fst b) ((n, x) :: q) ->
  In (sid, y) q -> n < sid.
Proof.
  intros S Hin. inversion S as [|? ? _ Hd]; subst.
  rewrite Forall_forall in Hd. exact (Hd _ Hin).
Qed.

(** The worker takes entries from the head, so it meets the signal before
    any request put after it. *)
Lemma after_sentinel_step a s s' :
  queue_ok s -> ids_inv s -> before_sentinel s -> after_sentinel s ->
  exec a s = Some s' -> after_sentinel s'.
Proof.
  unfold ids_inv, before_sentinel, after_sentinel, worker_id.
  intros [S B] [I1 I2] BS AS E.
  step_cases E; simpl in *; rewrite ?HW in *; simpl in *; intros sid SS.
  all: try (destruct (sentinel s) as [sid0|] eqn:SE; try discriminate SS;
            try (injection SS as <-)).
  all: try (destruct (AS _ eq_refl) as [A1 [A2 [A3 [A4 A5]]]]; clear AS).
  all: try (destruct (BS eq_refl) as [NN [FL NL]]; clear BS).
  all: try (assert (A2' := A2 ltac:(discriminate)); clear A2).
  all: split; [|split; [|split; [|split]]].
  all: try solve [ assumption | lia | discriminate | congruence | auto ].
  (* the sentinel is still queued *)
  all: try solve [ intros _; rewrite in_app_iff; simpl; auto ].
  all: try solve [ intros _; destruct A2' as [A2'|A2']; [discriminate A2' | exact A2'] ].
  all: try solve [ intros NE; exfalso; apply NE; reflexivity ].
  (* requests put after shutdown *)
  all: try solve [ intros id' text' Hin; rewrite in_app_iff in Hin; simpl in Hin;
                   destruct Hin as [Hin|[Hin|[]]];
                   [ first [ apply A3 in Hin; lia | destruct (NL _ _ Hin) ]
                   | first [ discriminate Hin | inversion Hin; subst; lia ] ] ].
  (* the request in the worker's hands *)
  all: try solve [ intros id' Hid; first [ discriminate Hid | injection Hid as <- ];
                   first [ apply A4; reflexivity
                         | specialize (I1 _ eq_refl); lia
                         | eapply sorted_head_lt; [exact S|];
                           destruct A2' as [A2'|A2']; [discriminate A2' | exact A2'] ] ].
  (* requests the worker has started *)
  all: try solve [ intros id' text' b' late' Hin;
                   try (rewrite in_app_iff in Hin; simpl in Hin;
                        destruct Hin as [Hin|[Hin|[]]];
                        [| first [ discriminate Hin
                                 | inversion Hin; subst;
                                   first [ apply A4; reflexivity
                                         | specialize (I1 _ eq_refl); lia ] ] ]);
                   first [ apply A5 in Hin; lia | apply I2 in Hin; lia ] ].
Qed.

Lemma shutdown_invariant s : reachable s -> shutdown_inv s.
Proof.
  revert s. apply reachable_invariant.
  - split; [split; constructor|].
    split; [split; [discriminate | intros ? ? ? ? []]|].
    split; [intros _; split; [constructor | split; [discriminate | intros ? ? []]]|].
    intros sid SS. discriminate SS.
  - intros a s s' [Q [I [B A]]] E. split; [|split; [|split]].
    + eapply queue_ok_step; eauto.
    + eapply ids_inv_step; eauto.
    + eapply before_sentinel_step; eauto.
    + eapply after_sentinel_step; eauto.
Qed.

(** A thread that has ended takes no further step. *)
Lemma worker_exit_is_final a s s' :
  worker s = WExit -> exec a s = Some s' -> worker s' = WExit.
Proof.
  intros W E. step_cases E; simpl in *; congruence.
Qed.

End Shutdown.

(** C9, amended for the blocking call.  After [shutdown()] has been called,
    a non-blocking [speak()] still succeeds as a call (the text is put on
    the queue) but is never played: the worker starts no playback for a
    request put while [shutdown_flag] is set.  The worker leaves its loop
    at its next test of the flag, and a worker thread that has ended stays
    ended.  A [speak(text, blocking=True)] is not covered: it does not
    consult [shutdown_flag]. *)
Theorem speak_after_shutdown_is_not_played (s : TTS.state) :
  TTS.reachable s ->
  (forall id text,
     In (TTS.EvPut id (Some text) true) (TTS.history s) ->
     forall text' b late,
       ~ In (TTS.EvPlayStart TTS.Worker (Some id) text' b late) (TTS.history s)) /\
  (forall text,
     TTS.client s = TTS.CIdle ->
     TTS.exec (TTS.ASpeak text) s = Some (TTS.put (Some text) s)) /\
  (forall s',
     TTS.shutdown_flag s = true ->
     TTS.exec TTS.AWorkerTest s = Some s' -> TTS.worker s' = TTS.WExit) /\
  (forall a s',
     TTS.worker s = TTS.WExit -> TTS.exec a s = Some s' ->
     TTS.worker s' = TTS.WExit).
Proof.
  intros R. destruct (shutdown_invariant R) as [_ [_ [B A]]].
  split; [|split; [|split]].
  - intros id text Put text' b late Play.
    destruct (TTS.sentinel s) as [sid|] eqn:SE.
    + destruct (A sid SE) as [_ [_ [A3 [_ A5]]]].
      apply A3 in Put. apply A5 in Play. lia.
    + destruct (B SE) as [_ [_ NL]]. exact (NL _ _ Put).
  - intros text HC. unfold TTS.exec. now rewrite HC.
  - intros s' SF E. unfold TTS.exec in E.
    destruct (TTS.worker s); try discriminate E.
    rewrite SF in E. now injection E as <-.
  - intros a s' W E. eapply worker_exit_is_final; eauto.
Qed.

(** [shutdown()] followed by a non-blocking [speak("hello")]: the worker
    has ended and the request stays in the queue. *)
Lemma speak_after_shutdown_is_not_played_witness :
  exists s,
    TTS.run [TTS.AShutdown; TTS.AShutdownPut; TTS.AWorkerTest;
             TTS.AShutdownJoined; TTS.ASpeak "hello"] TTS.init = Some s /\
    In (TTS.EvPut 1 (Some "hello"%string) true) (TTS.history s) /\
    ~ In (TTS.EvPlayStart TTS.Worker (Some 1%nat) "hello" true true)
         (TTS.history s).
Proof.
  eexists. split; [vm_compute; reflexivity|].
  assert (P : In (TTS.EvPut 1 (Some "hello"%string) true)
                 [TTS.EvShutdown; TTS.EvPut 0 None true;
                  TTS.EvPut 1 (Some "hello"%string) true])
    by (right; right; left; reflexivity).
  split; [exact P|].
  eapply speak_after_shutdown_is_not_played; [|exact P].
  exists [TTS.AShutdown; TTS.AShutdownPut; TTS.AWorkerTest;
          TTS.AShutdownJoined; TTS.ASpeak "hello"].
  vm_compute. reflexivity.
Defined.

(** C9 as worded fails for the blocking call: after [shutdown()] has
    returned and the worker has ended, [speak("hello", blocking=True)]
    starts a playback on the calling thread. *)
Lemma blocking_speak_after_shutdown_counterexample :
  exists s,
    TTS.run [TTS.AShutdown; TTS.AShutdownPut; TTS.AWorkerTest;
             TTS.AShutdownJoined; TTS.ASpeakBlocking "hello";
             TTS.AClientAcquire] TTS.init = Some s /\
    TTS.shutdown_flag s = true /\
    TTS.worker s = TTS.WExit /\
    TTS.client s = TTS.CPlay "hello" /\
    In (TTS.EvPlayStart TTS.Client None "hello" false true) (TTS.history s).
Proof.
  eexists. split; [vm_compute; reflexivity|].
  repeat split. simpl. auto.
Qed.

(* ================================================================== *)
(** * Further properties *)
(* ================================================================== *)

(* ------------------------------------------------------------------ *)
(** ** Normalising text *)
(* ------------------------------------------------------------------ *)

Section Normalising.
Import PyStr.

Lemma lower_char_idem c : lower_char (lower_char c) = lower_char c.
Proof. destruct c as [[] [] [] [] [] [] [] []]; reflexivity. Qed.

Lemma is_space_lower_char c : is_space (lower_char c) = is_space c.
Proof. destruct c as [[] [] [] [] [] [] [] []]; reflexivity. Qed.

Lemma lower_idem s : lower (lower s) = lower s.
Proof. induction s as [|c s IH]; simpl; [reflexivity|]. now rewrite lower_char_idem, IH. Qed.

Lemma lower_lstrip s : lower (lstrip s) = lstrip (lower s).
Proof.
  induction s as [|c s IH]; simpl; [reflexivity|].
  rewrite is_space_lower_char. destruct (is_space c); [exact IH | reflexivity].
Qed.

Lemma lower_rstrip s : lower (rstrip s) = rstrip (lower s).
Proof.
  induction s as [|c s IH]; [reflexivity|].
  rewrite rstrip_cons. simpl lower. rewrite rstrip_cons, <- IH, is_space_lower_char.
  assert (E : is_empty (lower (rstrip s)) = is_empty (rstrip s))
    by (destruct (rstrip s); reflexivity).
  rewrite E. destruct (is_empty (rstrip s) && is_space c); reflexivity.
Qed.

Lemma lower_strip s : lower (strip s) = strip (lower s).
Proof. unfold strip. now rewrite lower_rstrip, lower_lstrip. Qed.

Lemma lstrip_clean s : starts_with_space s = false -> lstrip s = s.
Proof. destruct s as [|c s]; simpl; [reflexivity|]. now intros ->. Qed.

Lemma lstrip_starts s : starts_with_space (lstrip s) = false.
Proof.
  induction s as [|c s IH]; simpl; [reflexivity|].
  destruct (is_space c) eqn:E; [exact IH | simpl; exact E].
Qed.

Lemma rstrip_ends s : ends_with_space (rstrip s) = false.
Proof.
  induction s as [|c s IH]; [reflexivity|].
  rewrite rstrip_cons.
  destruct (is_empty (rstrip s)) eqn:Em; simpl.
  - destruct (is_space c) eqn:Sp; [reflexivity|].
    destruct (rstrip s); [simpl; exact Sp | discriminate Em].
  - destruct (rstrip s); [discriminate Em | exact IH].
Qed.

Lemma rstrip_clean s : ends_with_space s = false -> rstrip s = s.
Proof.
  induction s as [|c s IH]; [reflexivity|].
  intros E. rewrite rstrip_cons.
  destruct s as [|c' s'].
  - simpl in *. now rewrite E.
  - rewrite IH by exact E. reflexivity.
Qed.

Lemma rstrip_starts s :
  starts_with_space s = false -> starts_with_space (rstrip s) = false.
Proof.
  destruct s as [|c s]; [reflexivity|]. intros E. simpl in E.
  rewrite rstrip_cons, E, andb_false_r. exact E.
Qed.

Lemma strip_clean s :
  starts_with_space s = false -> ends_with_space s = false -> strip s = s.
Proof. intros A B. unfold strip. now rewrite lstrip_clean, rstrip_clean. Qed.

Lemma strip_starts s : starts_with_space (strip s) = false.
Proof. unfold strip. apply rstrip_starts, lstrip_starts. Qed.

Lemma strip_ends s : ends_with_space (strip s) = false.
Proof. unfold strip. apply rstrip_ends. Qed.

Lemma strip_idem s : strip (strip s) = strip s.
Proof. apply strip_clean; [apply strip_starts | apply strip_ends]. Qed.

Lemma text_lower_idem t : Wake.text_lower (Wake.text_lower t) = Wake.text_lower t.
Proof.
  unfold Wake.text_lower. now rewrite lower_strip, lower_idem, strip_idem.
Qed.

End Normalising.

(* ------------------------------------------------------------------ *)
(** ** Sessions of the wake word detector *)
(* ------------------------------------------------------------------ *)

Section Sessions.
Import PyStr Wake.

Lemma checks_app d l1 l2 :
  checks d (l1 ++ l2) =
  (fst (checks d l1) ++ fst (checks (snd (checks d l1)) l2),
   snd (checks (snd (checks d l1)) l2)).
Proof.
  revert d. induction l1 as [|[now text] l1 IH]; intros d; simpl.
  - now destruct (checks d l2).
  - now rewrite IH.
Qed.

Lemma checks_asleep d l :
  is_awake d = false -> phrase_free d l ->
  checks d l = (repeat false (List.length l), d).
Proof.
  intros A F. induction F as [|[now text] l P _ IH]; [reflexivity|].
  simpl in *. rewrite (@check_asleep d now text P A). simpl.
  now rewrite IH.
Qed.

Lemma checks_within d l :
  is_awake d = true -> phrase_free d l ->
  Forall (fun nt => fst nt - last_wake_time d < timeout d) l ->
  checks d l = (repeat true (List.length l), d).
Proof.
  intros A F W. induction F as [|[now text] l P _ IH]; [reflexivity|].
  inversion W as [|? ? Wn Wl]; subst. simpl in *.
  rewrite (@check_awake_within d now text P A Wn). simpl.
  now rewrite (IH Wl).
Qed.

Lemma check_normalised d now text :
  check d now (strip (lower text)) = check d now text.
Proof.
  unfold check.
  change (strip (lower text)) with (text_lower text).
  now rewrite text_lower_idem.
Qed.

End Sessions.

(** X1.  [check] gives the same answer and the same detector on a text and
    on its normalised form: the normalisation that [handle_command] does
    before it calls [check] changes nothing. *)
Theorem check_ignores_prior_normalisation
    (d : Wake.WakeWordDetector) (now : Q) (text : string) :
  Wake.check d now (PyStr.strip (PyStr.lower text)) = Wake.check d now text.
Proof.
  unfold Wake.check.
  change (PyStr.strip (PyStr.lower text)) with (Wake.text_lower text).
  now rewrite text_lower_idem.
Qed.

(** X2.  A detector that is asleep (initially, after [reset()], or after a
    late check) refuses every utterance that does not contain the phrase,
    whatever the clock readings are, and is left exactly as it was. *)
Theorem asleep_until_phrase
    (d : Wake.WakeWordDetector) (l : list (Q * string)) :
  Wake.phrase_free d l ->
  (Wake.is_awake d = false ->
   Wake.checks d l = (repeat false (List.length l), d)) /\
  Wake.checks (Wake.reset d) l = (repeat false (List.length l), Wake.reset d).
Proof.
  intros F. split; [intros A; now apply checks_asleep|].
  now apply checks_asleep.
Qed.

Lemma asleep_until_phrase_witness :
  let d := Wake.init 10 "assistant" (7 # 10) in
  fst (Wake.checks d [(1, "tell me a joke"%string);
                      (2, "what time is it"%string)])
  = [false; false].
Proof.
  cbv zeta.
  destruct (@asleep_until_phrase (Wake.init 10 "assistant" (7 # 10))
              [(1, "tell me a joke"%string); (2, "what time is it"%string)])
    as [E _].
  - repeat constructor.
  - now rewrite E.
Defined.

(** X3.  The session opened by the phrase is measured from the activation
    and is not extended by commands: in a run of utterances without the
    phrase, all are accepted as long as each is checked less than [timeout]
    after the activation; the first one checked later is refused, puts the
    detector to sleep, and every utterance after it is refused too, even
    one whose clock reading lies within the window. *)
Theorem session_ends_at_first_late_check
    (d : Wake.WakeWordDetector) (l : list (Q * string)) :
  Wake.is_awake d = true -> Wake.phrase_free d l ->
  (Forall (fun nt => fst nt - Wake.last_wake_time d < Wake.timeout d) l ->
   Wake.checks d l = (repeat true (List.length l), d)) /\
  (forall l1 now text l2,
     l = l1 ++ (now, text) :: l2 ->
     Forall (fun nt => fst nt - Wake.last_wake_time d < Wake.timeout d) l1 ->
     Wake.timeout d <= now - Wake.last_wake_time d ->
     Wake.checks d l =
     (repeat true (List.length l1) ++ false :: repeat false (List.length l2),
      Wake.set_asleep d)).
Proof.
  intros A F. split; [now apply checks_within|].
  intros l1 now text l2 -> W1 Late.
  unfold Wake.phrase_free in F. apply Forall_app in F. destruct F as [F1 F2].
  inversion F2 as [|? ? P F3]; subst. simpl in P.
  rewrite checks_app, (@checks_within d l1 A F1 W1). simpl.
  rewrite (@check_awake_expired d now text P A Late). simpl.
  now rewrite (@checks_asleep (Wake.set_asleep d) l2 eq_refl F3).
Qed.

Lemma session_ends_at_first_late_check_witness :
  let d := Wake.set_awake (Wake.init 10 "assistant" (7 # 10)) 100 in
  fst (Wake.checks d [(105, "joke"%string); (111, "time"%string);
                      (106, "joke"%string)])
  = [true; false; false].
Proof.
  cbv zeta.
  destruct (@session_ends_at_first_late_check
              (Wake.set_awake (Wake.init 10 "assistant" (7 # 10)) 100)
              [(105, "joke"%string); (111, "time"%string); (106, "joke"%string)])
    as [_ E].
  - reflexivity.
  - repeat constructor.
  - rewrite (E [(105, "joke"%string)] 111 "time"%string [(106, "joke"%string)]).
    + reflexivity.
    + reflexivity.
    + repeat constructor.
    + discriminate.
Defined.

(* ------------------------------------------------------------------ *)
(** ** Occurrences and replacement *)
(* ------------------------------------------------------------------ *)

Section Occurrences.
Import PyStr.

Lemma prefix_refl s : prefix s s = true.
Proof.
  induction s as [|c s IH]; [reflexivity|]. simpl.
  destruct (ascii_dec c c); [exact IH | congruence].
Qed.

Lemma contains_refl s : contains s s = true.
Proof. destruct s; [reflexivity|]. now rewrite contains_cons, prefix_refl. Qed.

Lemma replace_from_skip old new k s :
  (String.length s <= k)%nat -> replace_from old new k s = EmptyString.
Proof.
  revert k. induction s as [|c s IH]; intros k L; [reflexivity|].
  simpl in *. destruct k as [|k]; [lia|]. apply IH. lia.
Qed.

(** Removing a non-empty phrase from itself leaves nothing. *)
Lemma replace_self w :
  w <> EmptyString -> replace w w EmptyString = EmptyString.
Proof.
  destruct w as [|c w]; [congruence|]. intros _.
  unfold replace. cbn [replace_from].
  rewrite prefix_refl. simpl.
  rewrite replace_from_skip; [reflexivity | lia].
Qed.

(** Replacing a phrase that does not occur changes nothing. *)
Lemma replace_absent s old new :
  old <> EmptyString -> contains old s = false -> replace s old new = s.
Proof.
  intros NE. destruct old as [|a old]; [congruence|]. unfold replace.
  induction s as [|c s IH]; [reflexivity|].
  rewrite contains_cons. intros H. apply orb_false_iff in H.
  destruct H as [P C]. cbn [replace_from]. rewrite P. now rewrite IH.
Qed.

Lemma is_upper_lower_char c : is_upper (lower_char c) = false.
Proof. destruct c as [[] [] [] [] [] [] [] []]; reflexivity. Qed.

Lemma has_upper_lower s : has_upper (lower s) = false.
Proof.
  induction s as [|c s IH]; [reflexivity|]. simpl.
  now rewrite is_upper_lower_char, IH.
Qed.

Lemma has_upper_lstrip s : has_upper s = false -> has_upper (lstrip s) = false.
Proof.
  induction s as [|c s IH]; [reflexivity|]. simpl. intros H.
  apply orb_false_iff in H. destruct H as [U H].
  destruct (is_space c); [now apply IH | simpl; now rewrite U, H].
Qed.

Lemma has_upper_rstrip s : has_upper s = false -> has_upper (rstrip s) = false.
Proof.
  induction s as [|c s IH]; [reflexivity|]. intros H. simpl in H.
  apply orb_false_iff in H. destruct H as [U H].
  rewrite rstrip_cons. destruct (_ && _); [reflexivity|].
  simpl. now rewrite U, IH.
Qed.

Lemma has_upper_strip s : has_upper s = false -> has_upper (strip s) = false.
Proof. intros H. unfold strip. now apply has_upper_rstrip, has_upper_lstrip. Qed.

Lemma has_upper_prefix p s :
  prefix p s = true -> has_upper s = false -> has_upper p = false.
Proof.
  revert p. induction s as [|c s IH]; intros p.
  - destruct p; [reflexivity | discriminate].
  - destruct p as [|a p]; [reflexivity|]. simpl.
    destruct (ascii_dec a c) as [->|]; [|discriminate].
    intros P H. apply orb_false_iff in H. destruct H as [U H].
    now rewrite U, (IH p P H).
Qed.

Lemma has_upper_contains p s :
  contains p s = true -> has_upper s = false -> has_upper p = false.
Proof.
  induction s as [|c s IH].
  - intros C H. eapply has_upper_prefix; [|exact H].
    unfold contains in C. now rewrite orb_false_r in C.
  - rewrite contains_cons. intros C H.
    apply orb_true_iff in C. destruct C as [P|C].
    + eapply has_upper_prefix; eauto.
    + simpl in H. apply orb_false_iff in H. now apply IH.
Qed.

(** A phrase with an upper-case letter never occurs in normalised text. *)
Lemma upper_phrase_absent w text :
  has_upper w = true -> contains w (strip (lower text)) = false.
Proof.
  intros U. destruct (contains w (strip (lower text))) eqn:C; [|reflexivity].
  apply has_upper_contains in C; [congruence|].
  apply has_upper_strip, has_upper_lower.
Qed.

End Occurrences.

(* ------------------------------------------------------------------ *)
(** ** Paths through handle_command *)
(* ------------------------------------------------------------------ *)

Section CommandPaths.
Import PyStr Assistant.

Variable cfg : Config.

Lemma state_eta s :
  mkState (command_map s) (restart_count s) (wake_word_detector s)
          (keep_running s) (audio_buffer s) (calls s) = s.
Proof. now destruct s. Qed.

Lemma handle_command_asleep e text s :
  Wake.is_awake (wake_word_detector s) = false ->
  contains (Wake.wake_word (wake_word_detector s)) (Wake.text_lower text) = false ->
  handle_command cfg e text s = (Ok tt, s).
Proof.
  intros A P. unfold handle_command.
  destruct (is_empty (strip (lower text))); [reflexivity|].
  unfold bind, detector_check, gets, set_detector, ret. simpl.
  rewrite check_normalised, (@check_asleep _ (now e) text P A). simpl.
  now rewrite state_eta.
Qed.

(** [tts.speak] returns unless the surroundings make it raise. *)
Lemma tts_speak_ok e text s :
  raises e AtSpeak = false -> fst (tts_speak e text s) = Ok tt.
Proof. intros H. unfold tts_speak, bind, log, guard. simpl. now rewrite H. Qed.

Lemma try_except_ok (m h : M unit) s :
  (forall s', fst (h s') = Ok tt) -> fst (try_except m h s) = Ok tt.
Proof.
  intros H. unfold try_except.
  destruct (m s) as [[[]|x] s1]; [reflexivity | apply H].
Qed.

Lemma dispatch_ok e table command_text s :
  raises e AtSpeak = false ->
  fst (dispatch cfg e table command_text s) = Ok tt.
Proof.
  intros H. revert s. induction table as [|[t k] rest IH]; intros s; simpl.
  - now apply tts_speak_ok.
  - destruct (contains t command_text); [|apply IH].
    apply try_except_ok. intros s'. now apply tts_speak_ok.
Qed.

(** The state in which the exit skill leaves the loop flag alone or clears
    it after the farewell and the wait. *)
Lemma run_skill_keep_running e sk s :
  keep_running s = true ->
  keep_running (snd (run_skill cfg e sk s)) = false ->
  sk = Exit /\
  raises e AtSpeak = false /\ raises e AtWaitUntilDone = false /\
  fst (run_skill cfg e sk s) = Ok tt /\
  calls (snd (run_skill cfg e sk s)) =
  (calls s ++ [CallSpeak "Goodbye! Shutting down now."; CallWaitUntilDone])%list.
Proof.
  intros T. destruct sk; simpl;
    unfold _skill_tell_joke, _skill_tell_time, _skill_exit, _skill_sleep,
           try_except, tts_wait_until_done, tts_speak, bind, log, guard,
           gets, set_detector, set_keep_running, raise, ret;
    simpl;
    repeat match goal with
           | |- context [if ?b then _ else _] => destruct b eqn:?; simpl
           end;
    try congruence.
  intros _. repeat split. now rewrite <- app_assoc.
Qed.

Lemma tts_speak_keep_running e text s :
  keep_running (snd (tts_speak e text s)) = keep_running s.
Proof.
  unfold tts_speak, bind, log, guard. simpl.
  now destruct (raises e AtSpeak).
Qed.

Lemma dispatch_keep_running e table command_text s :
  keep_running s = true ->
  keep_running (snd (dispatch cfg e table command_text s)) = false ->
  raises e AtSpeak = false /\ raises e AtWaitUntilDone = false /\
  fst (dispatch cfg e table command_text s) = Ok tt /\
  exists trigger,
    In (trigger, Exit) table /\
    contains trigger command_text = true /\
    calls (snd (dispatch cfg e table command_text s)) =
    (calls s ++ [CallSkill trigger Exit;
                 CallSpeak "Goodbye! Shutting down now.";
                 CallWaitUntilDone])%list.
Proof.
  intros T. induction table as [|[t k] rest IH]; simpl.
  - rewrite tts_speak_keep_running. congruence.
  - destruct (contains t command_text) eqn:C.
    + unfold try_except, bind. simpl.
      set (s0 := mkState _ _ _ _ _ _).
      intros Fl.
      assert (T0 : keep_running s0 = true) by exact T.
      destruct (run_skill cfg e k s0) as [[[]|x] s1] eqn:R; simpl in *.
      * pose proof (@run_skill_keep_running e k s0 T0) as K.
        rewrite R in K. simpl in K. destruct (K Fl) as [-> [A [B [_ L]]]].
        repeat split; auto. exists t. split; [now left|]. split; [exact C|].
        rewrite L. unfold s0. simpl. now rewrite <- app_assoc.
      * rewrite tts_speak_keep_running in Fl.
        pose proof (@run_skill_keep_running e k s0 T0) as K.
        rewrite R in K. simpl in K. destruct (K Fl) as [_ [_ [_ [O _]]]].
        discriminate O.
    + intros Fl. destruct (IH Fl) as [A [B [O [tr [I [Ct L]]]]]].
      repeat split; auto. exists tr. split; [now right | now split].
Qed.

End CommandPaths.

(** X4.  While the detector is asleep, an utterance that does not contain
    the detector's phrase is dropped by [handle_command] without a trace:
    it returns normally, makes no call (no reply is spoken, no handler
    runs), and leaves every attribute, the detector included, as it was. *)
Theorem handle_command_ignores_while_asleep
    (cfg : Config) (e : Assistant.Env) (text : string) (s : Assistant.state) :
  Wake.is_awake (Assistant.wake_word_detector s) = false ->
  PyStr.contains (Wake.wake_word (Assistant.wake_word_detector s))
                 (Wake.text_lower text) = false ->
  Assistant.handle_command cfg e text s = (Assistant.Ok tt, s).
Proof.
  intros A P. unfold Assistant.handle_command.
  destruct (PyStr.is_empty (PyStr.strip (PyStr.lower text)));
    [reflexivity|].
  cbv beta iota zeta delta [Assistant.bind Assistant.detector_check
                            Assistant.gets Assistant.set_detector
                            Assistant.ret].
  rewrite check_normalised, (@check_asleep _ (Assistant.now e) text P A).
  cbn [fst snd negb]. now rewrite state_eta.
Qed.

Lemma handle_command_ignores_while_asleep_witness :
  let e := Assistant.mkEnv 5 "a joke" "noon" (fun _ => false) in
  Assistant.handle_command default_config e "Tell me a joke"
    (Assistant.initial_state default_config)
  = (Assistant.Ok tt, Assistant.initial_state default_config).
Proof.
  cbv zeta. apply handle_command_ignores_while_asleep; reflexivity.
Defined.

(** X5.  The phrase said alone is acknowledged and nothing else happens:
    when the normalised utterance is exactly the configured phrase (and the
    detector was built from that phrase), [handle_command] wakes the
    detector at the current clock reading and makes the single call
    [tts.speak("Yes? I'm listening.")]; no handler runs. *)
Theorem bare_wake_word_is_acknowledged
    (cfg : Config) (e : Assistant.Env) (text : string) (s : Assistant.state) :
  Wake.wake_word (Assistant.wake_word_detector s) = PyStr.lower (WAKE_WORD cfg) ->
  PyStr.strip (PyStr.lower text) = WAKE_WORD cfg ->
  WAKE_WORD cfg <> ""%string ->
  Assistant.handle_command cfg e text s =
  Assistant.tts_speak e "Yes? I'm listening."
    (snd (Assistant.set_detector
            (Wake.set_awake (Assistant.wake_word_detector s) (Assistant.now e)) s)).
Proof.
  intros D T N. unfold Assistant.handle_command. rewrite T.
  assert (L : PyStr.lower (WAKE_WORD cfg) = WAKE_WORD cfg).
  { rewrite <- T at 1. now rewrite lower_strip, lower_idem. }
  assert (E : PyStr.is_empty (WAKE_WORD cfg) = false).
  { destruct (WAKE_WORD cfg); [congruence | reflexivity]. }
  rewrite E.
  cbv beta iota delta [Assistant.bind Assistant.detector_check Assistant.gets
                       Assistant.set_detector Assistant.ret].
  assert (C : Wake.check (Assistant.wake_word_detector s) (Assistant.now e)
                (WAKE_WORD cfg)
              = (true, Wake.set_awake (Assistant.wake_word_detector s)
                                      (Assistant.now e))).
  { unfold Wake.check, Wake.text_lower. rewrite D, L.
    rewrite <- T at 2. rewrite strip_idem, T, contains_refl. reflexivity. }
  rewrite C. cbn [fst snd negb].
  rewrite (replace_self N). cbn [PyStr.strip PyStr.lstrip PyStr.rstrip
                                  PyStr.is_empty andb orb].
  now rewrite String.eqb_refl.
Qed.

Lemma bare_wake_word_is_acknowledged_witness :
  let e := Assistant.mkEnv 5 "a joke" "noon" (fun _ => false) in
  let r := Assistant.handle_command default_config e " Assistant "
             (Assistant.initial_state default_config) in
  Assistant.calls (snd r) = [Assistant.CallSpeak "Yes? I'm listening."] /\
  Wake.is_awake (Assistant.wake_word_detector (snd r)) = true.
Proof.
  cbv zeta. rewrite bare_wake_word_is_acknowledged.
  - split; reflexivity.
  - reflexivity.
  - reflexivity.
  - discriminate.
Defined.

(** X6.  No failure of a handler escapes [handle_command]: as long as
    [tts.speak] itself does not raise, [handle_command] returns normally for
    every utterance, state and table, whatever else raises
    ([pyjokes.get_joke], the clock, [wait_until_done]). *)
Theorem handle_command_contains_failures
    (cfg : Config) (e : Assistant.Env) (text : string) :
  Assistant.raises e Assistant.AtSpeak = false ->
  Assistant.never_raises (Assistant.handle_command cfg e text).
Proof.
  intros H s. unfold Assistant.handle_command.
  destruct (PyStr.is_empty (PyStr.strip (PyStr.lower text)));
    [reflexivity|].
  cbv beta iota zeta delta [Assistant.bind Assistant.detector_check
                            Assistant.gets Assistant.set_detector
                            Assistant.ret].
  destruct (fst (Wake.check _ _ _)); cbn [negb]; [|reflexivity].
  destruct (_ && _); [reflexivity|].
  destruct (_ || _); [now apply tts_speak_ok | now apply dispatch_ok].
Qed.

Lemma handle_command_contains_failures_witness :
  let e := Assistant.mkEnv 5 "a joke" "noon"
             (fun x => match x with Assistant.AtSpeak => false | _ => true end) in
  let r := Assistant.handle_command default_config e "assistant goodbye"
             (Assistant.initial_state default_config) in
  fst r = Assistant.Ok tt /\
  Assistant.calls (snd r) =
  [Assistant.CallSkill "goodbye" Assistant.Exit;
   Assistant.CallSpeak "Goodbye! Shutting down now.";
   Assistant.CallWaitUntilDone;
   Assistant.CallSpeak "Sorry, something went wrong."] /\
  Assistant.keep_running (snd r) = true.
Proof.
  cbv zeta. split; [|split; reflexivity].
  apply handle_command_contains_failures. reflexivity.
Defined.

(** X7.  A configured phrase with an upper-case letter is never removed
    from the utterance: [handle_command] lower-cases the text but compares
    it with the raw [WAKE_WORD], so the acknowledgment is never spoken and
    the whole normalised text, phrase included, is what the table is
    searched with. *)
Theorem upper_case_phrase_is_never_stripped
    (cfg : Config) (e : Assistant.Env) (text : string) (s : Assistant.state) :
  PyStr.has_upper (WAKE_WORD cfg) = true ->
  PyStr.is_empty (PyStr.strip (PyStr.lower text)) = false ->
  Assistant.handle_command cfg e text s =
  Assistant.bind (Assistant.detector_check e (PyStr.strip (PyStr.lower text)))
    (fun awake =>
       if awake then
         Assistant.dispatch cfg e (Assistant.command_map s)
           (PyStr.strip (PyStr.lower text))
       else Assistant.ret tt) s.
Proof.
  intros U N. unfold Assistant.handle_command. rewrite N.
  pose proof (@upper_phrase_absent (WAKE_WORD cfg) text U) as A.
  assert (W : WAKE_WORD cfg <> ""%string).
  { intros E. rewrite E in U. discriminate U. }
  rewrite (@replace_absent _ _ EmptyString W A), strip_idem, N.
  assert (Q : (PyStr.strip (PyStr.lower text) =? WAKE_WORD cfg)%string = false).
  { apply String.eqb_neq. intros E.
    assert (H : PyStr.has_upper (PyStr.strip (PyStr.lower text)) = false)
      by apply has_upper_strip, has_upper_lower.
    rewrite E in H. congruence. }
  rewrite Q. cbn [andb orb].
  cbv beta iota delta [Assistant.bind Assistant.detector_check Assistant.gets
                       Assistant.set_detector Assistant.ret].
  cbn [Assistant.command_map].
  destruct (fst (Wake.check _ _ _)); reflexivity.
Qed.

Lemma upper_case_phrase_is_never_stripped_witness :
  let cfg := {| WAKE_WORD := "Assistant";
                WAKE_WORD_TIMEOUT := 10;
                wake_threshold := 7 # 10;
                sample_rate := 16000;
                chunk_duration_seconds := 3;
                rms_threshold := 15 # 1000;
                peak_threshold := 4 # 100;
                noise_gate_threshold := 1 # 100;
                max_restart_attempts := 3;
                restart_delay_seconds := 1 |} in
  let e := Assistant.mkEnv 5 "a joke" "noon" (fun _ => false) in
  Assistant.calls
    (snd (Assistant.handle_command cfg e "Assistant"
            (Assistant.initial_state cfg)))
  = [Assistant.CallSpeak (Assistant.fallback "assistant")].
Proof.
  cbv zeta. rewrite upper_case_phrase_is_never_stripped; reflexivity.
Defined.

(** X8.  The sleep skill closes the session whether or not its reply can be
    spoken: after [_skill_sleep] the detector is asleep, and the next
    utterance without the phrase is dropped without any call. *)
Theorem sleep_skill_closes_session
    (cfg : Config) (e e' : Assistant.Env) (text : string) (s : Assistant.state) :
  PyStr.contains (Wake.wake_word (Assistant.wake_word_detector s))
                 (Wake.text_lower text) = false ->
  let s1 := snd (Assistant._skill_sleep cfg e s) in
  Assistant.wake_word_detector s1 = Wake.reset (Assistant.wake_word_detector s) /\
  Assistant.handle_command cfg e' text s1 = (Assistant.Ok tt, s1).
Proof.
  intros P s1.
  assert (D : Assistant.wake_word_detector s1
              = Wake.reset (Assistant.wake_word_detector s)).
  { unfold s1, Assistant._skill_sleep, Assistant.tts_speak, Assistant.bind,
           Assistant.gets, Assistant.set_detector, Assistant.log,
           Assistant.guard, Assistant.raise, Assistant.ret.
    cbn [fst snd]. now destruct (Assistant.raises e Assistant.AtSpeak). }
  split; [exact D|].
  apply handle_command_asleep; rewrite D; [reflexivity | exact P].
Qed.

Lemma sleep_skill_closes_session_witness :
  let e := Assistant.mkEnv 5 "a joke" "noon" (fun _ => false) in
  let s := snd (Assistant.handle_command default_config e "assistant sleep"
                  (Assistant.initial_state default_config)) in
  Assistant.calls
    (snd (Assistant.handle_command default_config e "tell me a joke" s))
  = [Assistant.CallSkill "sleep" Assistant.Sleep;
     Assistant.CallSpeak "Going to sleep. Say assistant to wake me up."].
Proof.
  cbv zeta.
  set (s0 := snd (Assistant.set_detector
                    (Wake.set_awake (Wake.init 10 "assistant" (7 # 10)) 5)
                    (snd (Assistant.log
                            (Assistant.CallSkill "sleep" Assistant.Sleep)
                            (Assistant.initial_state default_config))))).
  change (snd (Assistant.handle_command default_config
                 (Assistant.mkEnv 5 "a joke" "noon" (fun _ => false))
                 "assistant sleep" (Assistant.initial_state default_config)))
    with (snd (Assistant._skill_sleep default_config
                 (Assistant.mkEnv 5 "a joke" "noon" (fun _ => false)) s0)).
  destruct (@sleep_skill_closes_session default_config
              (Assistant.mkEnv 5 "a joke" "noon" (fun _ => false))
              (Assistant.mkEnv 5 "a joke" "noon" (fun _ => false))
              "tell me a joke" s0 eq_refl) as [_ E].
  rewrite E. reflexivity.
Defined.

(** X9.  Only a completed exit skill stops the loop: if [handle_command]
    turns [keep_running] from true to false, then it returned normally, the
    utterance matched a trigger of the table bound to [_skill_exit], neither
    [speak] nor [wait_until_done] raised, and the calls it made are exactly
    that handler, the farewell and the wait, in this order. *)
Theorem only_exit_clears_keep_running
    (cfg : Config) (e : Assistant.Env) (text : string) (s : Assistant.state) :
  Assistant.keep_running s = true ->
  Assistant.keep_running (snd (Assistant.handle_command cfg e text s)) = false ->
  fst (Assistant.handle_command cfg e text s) = Assistant.Ok tt /\
  Assistant.raises e Assistant.AtSpeak = false /\
  Assistant.raises e Assistant.AtWaitUntilDone = false /\
  exists trigger,
    In (trigger, Assistant.Exit) (Assistant.command_map s) /\
    Assistant.calls (snd (Assistant.handle_command cfg e text s)) =
    (Assistant.calls s ++
     [Assistant.CallSkill trigger Assistant.Exit;
      Assistant.CallSpeak "Goodbye! Shutting down now.";
      Assistant.CallWaitUntilDone])%list.
Proof.
  intros T. unfold Assistant.handle_command.
  destruct (PyStr.is_empty (PyStr.strip (PyStr.lower text)));
    [cbn; congruence|].
  cbv beta iota delta [Assistant.bind Assistant.detector_check Assistant.gets
                       Assistant.set_detector Assistant.ret].
  cbn [Assistant.command_map].
  destruct (fst (Wake.check _ _ _)); cbn [negb]; [|cbn; congruence].
  destruct (_ && _); [cbn; congruence|].
  destruct (_ || _).
  - rewrite tts_speak_keep_running. cbn. congruence.
  - intros Fl.
    apply dispatch_keep_running in Fl; [|exact T].
    destruct Fl as [A [B [O [tr [I [_ L]]]]]].
    repeat split; auto. exists tr. split; [exact I | exact L].
Qed.

Lemma only_exit_clears_keep_running_witness :
  let e := Assistant.mkEnv 5 "a joke" "noon" (fun _ => false) in
  exists trigger,
    In (trigger, Assistant.Exit) Assistant.initial_command_map /\
    Assistant.calls
      (snd (Assistant.handle_command default_config e "Assistant, stop."
              (Assistant.initial_state default_config)))
    = [Assistant.CallSkill trigger Assistant.Exit;
       Assistant.CallSpeak "Goodbye! Shutting down now.";
       Assistant.CallWaitUntilDone].
Proof.
  cbv zeta.
  destruct (@only_exit_clears_keep_running default_config
              (Assistant.mkEnv 5 "a joke" "noon" (fun _ => false))
              "Assistant, stop." (Assistant.initial_state default_config)
              eq_refl eq_refl) as [_ [_ [_ [tr [I L]]]]].
  exists tr. split; [exact I | exact L].
Defined.

(* ------------------------------------------------------------------ *)
(** ** The sample buffer of the loop *)
(* ------------------------------------------------------------------ *)

Section BufferFrame.
Import PyStr Audio Assistant.

Lemma with_buffer_same s : with_buffer (audio_buffer s) s = s.
Proof. now destruct s. Qed.

Lemma with_buffer_twice b b' s :
  with_buffer b' (with_buffer b s) = with_buffer b' s.
Proof. reflexivity. Qed.

Lemma keeps_buffer_ret {A} (a : A) : keeps_buffer (ret a).
Proof. now intros s. Qed.

Lemma keeps_buffer_raise {A} (x : exn) : keeps_buffer (@raise A x).
Proof. now intros s. Qed.

Lemma keeps_buffer_gets {A} (f : state -> A) : keeps_buffer (gets f).
Proof. now intros s. Qed.

Lemma keeps_buffer_guard b : keeps_buffer (guard b).
Proof. now destruct b; intros s. Qed.

Lemma keeps_buffer_log c : keeps_buffer (log c).
Proof. now intros s. Qed.

Lemma keeps_buffer_set_detector d : keeps_buffer (set_detector d).
Proof. now intros s. Qed.

Lemma keeps_buffer_set_keep_running b : keeps_buffer (set_keep_running b).
Proof. now intros s. Qed.

Lemma keeps_buffer_bind {A B} (m : M A) (k : A -> M B) :
  keeps_buffer m -> (forall a, keeps_buffer (k a)) -> keeps_buffer (bind m k).
Proof.
  intros Hm Hk s. unfold bind. specialize (Hm s).
  destruct (m s) as [[a|x] s1]; simpl in *; [|exact Hm].
  now rewrite (Hk a s1).
Qed.

Lemma keeps_buffer_try_except {A} (m h : M A) :
  keeps_buffer m -> keeps_buffer h -> keeps_buffer (try_except m h).
Proof.
  intros Hm Hh s. unfold try_except. specialize (Hm s).
  destruct (m s) as [[a|x] s1]; simpl in *; [exact Hm|].
  now rewrite (Hh s1).
Qed.

Ltac buffer_steps :=
  repeat first
    [ apply keeps_buffer_ret | apply keeps_buffer_raise | apply keeps_buffer_gets
    | apply keeps_buffer_guard | apply keeps_buffer_log
    | apply keeps_buffer_set_detector | apply keeps_buffer_set_keep_running
    | apply keeps_buffer_try_except
    | apply keeps_buffer_bind; [|intros ?] ].

Variable cfg : Config.

Lemma keeps_buffer_tts_speak e text : keeps_buffer (tts_speak e text).
Proof. unfold tts_speak. buffer_steps. Qed.

Lemma keeps_buffer_run_skill e sk : keeps_buffer (run_skill cfg e sk).
Proof.
  destruct sk; simpl;
    unfold _skill_tell_joke, _skill_tell_time, _skill_exit, _skill_sleep,
           tts_wait_until_done, tts_speak;
    buffer_steps.
Qed.

Lemma keeps_buffer_dispatch e table command_text :
  keeps_buffer (dispatch cfg e table command_text).
Proof.
  induction table as [|[t k] rest IH]; simpl.
  - apply keeps_buffer_tts_speak.
  - destruct (contains t command_text); [|exact IH].
    apply keeps_buffer_try_except; [|apply keeps_buffer_tts_speak].
    apply keeps_buffer_bind; [apply keeps_buffer_log|].
    intros _. apply keeps_buffer_run_skill.
Qed.

Lemma keeps_buffer_handle_command e text :
  keeps_buffer (handle_command cfg e text).
Proof.
  unfold handle_command.
  destruct (is_empty _); [apply keeps_buffer_ret|].
  apply keeps_buffer_bind; [unfold detector_check; buffer_steps|].
  intros awake. destruct (negb awake); [apply keeps_buffer_ret|].
  destruct (_ && _); [apply keeps_buffer_ret|].
  destruct (_ || _); [apply keeps_buffer_tts_speak|].
  apply keeps_buffer_bind; [apply keeps_buffer_gets|].
  intros table. apply keeps_buffer_dispatch.
Qed.

Lemma keeps_buffer_for_segments w segs :
  keeps_buffer (for_segments cfg w segs).
Proof.
  induction segs as [|[t e] rest IH]; simpl; [apply keeps_buffer_ret|].
  apply keeps_buffer_bind; [apply keeps_buffer_guard | intros _].
  apply keeps_buffer_bind; [|intros _; exact IH].
  destruct (is_empty _); [apply keeps_buffer_ret|].
  apply keeps_buffer_handle_command.
Qed.

Lemma keeps_buffer_transcribe_audio w audio :
  keeps_buffer (transcribe_audio w audio).
Proof. unfold transcribe_audio. buffer_steps. Qed.

(** No block within the timeout: the pass changes nothing. *)
Lemma listen_try_no_block w s :
  queue_item w = None -> listen_try cfg w s = (Raise QueueEmpty, s).
Proof. intros E. unfold listen_try, bind, raise. now rewrite E. Qed.

(** A block that leaves the buffer short of a chunk is only appended. *)
Lemma listen_try_short w s data :
  queue_item w = Some data ->
  fails w AtConcatenate = false ->
  (Z.of_nat (List.length (audio_buffer s ++ data)) < CHUNK_SIZE_SAMPLES cfg)%Z ->
  listen_try cfg w s = (Ok tt, with_buffer (audio_buffer s ++ data) s).
Proof.
  intros Get F Short. apply Z.leb_gt in Short.
  unfold listen_try, bind, gets, guard, set_audio_buffer, ret, raise.
  rewrite Get, F. cbn [fst snd audio_buffer]. now rewrite Short.
Qed.

(** Where an exception of the [try] body leaves the buffer. *)
Lemma listen_try_error_buffer w s s' :
  listen_try cfg w s = (Raise Error, s') ->
  exists data,
    queue_item w = Some data /\
    (audio_buffer s' = audio_buffer s \/
     (CHUNK_SIZE_SAMPLES cfg
        <= Z.of_nat (List.length (audio_buffer s ++ data)))%Z /\
     (audio_buffer s' = (audio_buffer s ++ data)%list \/
      audio_buffer s' = noise_gate cfg (audio_buffer s ++ data) None)).
Proof.
  unfold listen_try.
  destruct (queue_item w) as [data|] eqn:Get;
    [|unfold bind, raise; intros H; inversion H].
  intros H. exists data. split; [reflexivity|]. revert H.
  unfold bind at 1. unfold ret at 1.
  unfold bind at 1. unfold gets at 1.
  unfold bind at 1.
  destruct (fails w AtConcatenate); unfold guard at 1.
  { unfold raise. intros H. inversion H. now left. }
  unfold ret at 1.
  unfold bind at 1. unfold set_audio_buffer at 1.
  unfold bind at 1. unfold gets at 1. cbn [audio_buffer].
  set (chunk := (audio_buffer s ++ data)%list).
  set (s1 := mkState _ _ _ _ chunk _).
  destruct (_ <=? _)%Z eqn:Full; [|unfold ret; intros H; inversion H].
  apply Z.leb_le in Full. intros H. right. split; [exact Full|]. revert H.
  unfold bind at 1. unfold log at 1.
  set (s2 := mkState _ _ _ _ _ (_ ++ _)%list).
  unfold bind at 1.
  destruct (fails w AtIsSignificant); unfold guard at 1.
  { unfold raise. intros H. inversion H. now left. }
  unfold ret at 1.
  destruct (negb _); [unfold set_audio_buffer; intros H; inversion H|].
  unfold bind at 1. unfold log at 1.
  set (s3 := mkState _ _ _ _ _ (_ ++ _)%list).
  unfold bind at 1.
  destruct (fails w AtNoiseGate); unfold guard at 1.
  { unfold raise. intros H. inversion H. now left. }
  unfold ret at 1.
  unfold bind at 1. unfold set_audio_buffer at 1.
  unfold bind at 1. unfold gets at 1. cbn [audio_buffer].
  set (s4 := mkState _ _ _ _ (noise_gate cfg chunk None) _).
  unfold bind at 1.
  destruct (negb (is_speaking w)).
  - unfold bind at 1. rewrite transcribe_audio_total. cbn [fst snd].
    set (segs := if fails w AtTranscribe then _ else _).
    set (s5 := snd (log _ s4)).
    pose proof (@keeps_buffer_for_segments w segs s5) as K.
    destruct (for_segments cfg w segs s5) as [[u|x] s6]; simpl in K.
    + cbn. intros H. inversion H.
    + cbn. intros H. inversion H; subst. right. exact K.
  - unfold ret, set_audio_buffer. intros H. inversion H.
Qed.

End BufferFrame.

Section Budget.
Import Assistant.

Variable cfg : Config.

Lemma sleeps_app l1 l2 : sleeps (l1 ++ l2)%list = (sleeps l1 + sleeps l2)%nat.
Proof. unfold sleeps. now rewrite filter_app, length_app. Qed.

(** What one pass does to the restart counter and to the pauses. *)
Lemma listen_pass_budget w s :
  let r := listen_pass cfg w s in
  (restart_count s <= restart_count (snd r))%nat /\
  (sleeps (calls (snd r)) + restart_count s
   = sleeps (calls s) + restart_count (snd r))%nat /\
  ((restart_count s <= max_restart_attempts cfg)%nat ->
   (restart_count (snd r) <= max_restart_attempts cfg)%nat) /\
  (sleep_refused (restart_delay_seconds cfg) || fails w AtSleep = false ->
   fst r = Reraised ->
   (max_restart_attempts cfg <= restart_count (snd r))%nat).
Proof.
  cbv zeta.
  pose proof (listen_try_restart_count cfg w s) as R.
  pose proof (listen_try_sleeps cfg w s) as S.
  destruct (listen_try cfg w s) as [[u|[|]] s1] eqn:Body; simpl in *.
  - rewrite (listen_pass_ok cfg w s Body). simpl.
    repeat split; try lia; try discriminate.
  - rewrite (listen_pass_empty cfg w s Body). simpl.
    repeat split; try lia; try discriminate.
  - destruct (restart_count s1 <? max_restart_attempts cfg)%nat eqn:Lt.
    + apply Nat.ltb_lt in Lt.
      rewrite (@listen_pass_retry cfg w s s1 Body Lt).
      cbn [fst snd restart_count calls]. rewrite sleeps_app.
      change (sleeps [CallSleep (restart_delay_seconds cfg)]) with 1%nat.
      repeat split; try lia.
      intros ->. discriminate.
    + apply Nat.ltb_ge in Lt.
      rewrite (@listen_pass_exhausted cfg w s s1 Body Lt). simpl.
      repeat split; try lia.
Qed.

Lemma listen_loop_budget ws s :
  let r := listen_loop cfg ws s in
  (restart_count s <= restart_count (snd r))%nat /\
  (sleeps (calls (snd r)) + restart_count s
   = sleeps (calls s) + restart_count (snd r))%nat /\
  ((restart_count s <= max_restart_attempts cfg)%nat ->
   (restart_count (snd r) <= max_restart_attempts cfg)%nat) /\
  (sleep_refused (restart_delay_seconds cfg) = false ->
   Forall (fun w => fails w AtSleep = false) ws ->
   fst r = Fatal ->
   (max_restart_attempts cfg <= restart_count (snd r))%nat).
Proof.
  cbv zeta. revert s. induction ws as [|w ws IH]; intros s; simpl.
  - destruct (keep_running s); simpl; repeat split; try lia; discriminate.
  - destruct (keep_running s); simpl;
      [|repeat split; try lia; discriminate].
    pose proof (listen_pass_budget w s) as P. cbv zeta in P.
    destruct (listen_pass cfg w s) as [[|] s1]; simpl in *.
    + destruct P as [P1 [P2 [P3 _]]].
      destruct (IH s1) as [I1 [I2 [I3 I4]]].
      repeat split; try lia; auto.
      intros Pos F. apply I4; [exact Pos|].
      now apply Forall_cons_iff in F.
    + destruct P as [P1 [P2 [P3 P4]]].
      repeat split; try lia; auto.
      intros Pos F _. apply Forall_cons_iff in F. destruct F as [Fw _].
      apply P4; [|reflexivity]. now rewrite Pos, Fw.
Qed.

End Budget.

(** X10.  Blocks that leave the buffer short of a chunk only accumulate:
    over any run of passes (passes with no block within the timeout
    included) in which [np.concatenate] does not raise and the samples
    delivered do not fill a chunk, the loop makes no call at all, changes
    no attribute, and holds the old buffer followed by all the delivered
    samples in their order. *)
Theorem short_blocks_accumulate
    (cfg : Config) (ws : list Assistant.World) (s : Assistant.state) :
  Assistant.keep_running s = true ->
  Forall (fun w => Assistant.fails w Assistant.AtConcatenate = false) ws ->
  (Z.of_nat (List.length (Assistant.audio_buffer s ++ Assistant.delivered ws))
   < Assistant.CHUNK_SIZE_SAMPLES cfg)%Z ->
  Assistant.listen_loop cfg ws s =
  (Assistant.Listening,
   Assistant.with_buffer
     (Assistant.audio_buffer s ++ Assistant.delivered ws)%list s).
Proof.
  intros KR F. revert s KR. induction F as [|w ws Fw _ IH]; intros s KR Short.
  - simpl. rewrite KR, app_nil_r. now rewrite with_buffer_same.
  - cbn [Assistant.listen_loop]. rewrite KR.
    unfold Assistant.delivered in *. cbn [flat_map] in *.
    destruct (Assistant.queue_item w) as [data|] eqn:Get.
    + assert (Sh : (Z.of_nat (List.length (Assistant.audio_buffer s ++ data))
                    < Assistant.CHUNK_SIZE_SAMPLES cfg)%Z).
      { rewrite app_assoc, length_app in Short. lia. }
      rewrite (listen_pass_ok cfg w s (@listen_try_short cfg w s data Get Fw Sh)).
      rewrite IH.
      * cbn [Assistant.with_buffer Assistant.set_audio_buffer snd
             Assistant.audio_buffer].
        now rewrite app_assoc.
      * exact KR.
      * cbn [Assistant.with_buffer Assistant.set_audio_buffer snd
             Assistant.audio_buffer].
        now rewrite <- app_assoc.
    + rewrite (listen_pass_empty cfg w s (@listen_try_no_block cfg w s Get)).
      now apply IH.
Qed.

Lemma short_blocks_accumulate_witness :
  let quiet := fun _ : Assistant.site => false in
  let block := fun xs => Assistant.mkWorld (Some xs) false [] quiet in
  let none := Assistant.mkWorld None false [] quiet in
  Assistant.listen_loop default_config
    [block [1 # 2; 1 # 3]; none; block [1 # 4]]
    (Assistant.initial_state default_config)
  = (Assistant.Listening,
     Assistant.with_buffer [1 # 2; 1 # 3; 1 # 4]
       (Assistant.initial_state default_config)).
Proof.
  cbv zeta. apply short_blocks_accumulate.
  - reflexivity.
  - repeat constructor.
  - reflexivity.
Defined.

(** X11.  The restart budget is spent once and never refilled: over any
    run of passes the restart counter only grows, it grows by exactly the
    number of calls of [time.sleep], and it never passes
    [max_restart_attempts]; so at most [max_restart_attempts] failures are
    met by a pause in the whole life of the loop, however many passes
    succeed in between.  When [time.sleep] accepts the configured delay
    and raises in no pass, the loop ends fatally only with the budget used
    up. *)
Theorem restart_budget_is_never_refilled
    (cfg : Config) (ws : list Assistant.World) (s : Assistant.state) :
  (Assistant.restart_count s <= max_restart_attempts cfg)%nat ->
  let r := Assistant.listen_loop cfg ws s in
  (Assistant.restart_count s <= Assistant.restart_count (snd r))%nat /\
  (Assistant.sleeps (Assistant.calls (snd r))
   = Assistant.sleeps (Assistant.calls s)
     + (Assistant.restart_count (snd r) - Assistant.restart_count s))%nat /\
  (Assistant.sleeps (Assistant.calls (snd r))
   <= Assistant.sleeps (Assistant.calls s)
      + (max_restart_attempts cfg - Assistant.restart_count s))%nat /\
  (Assistant.sleep_refused (restart_delay_seconds cfg) = false ->
   Forall (fun w => Assistant.fails w Assistant.AtSleep = false) ws ->
   fst r = Assistant.Fatal ->
   Assistant.restart_count (snd r) = max_restart_attempts cfg).
Proof.
  intros Le r. destruct (listen_loop_budget cfg ws s) as [A [B [C D]]].
  fold r in A, B, C, D. specialize (C Le).
  repeat split; try lia. intros Pos F Ft.
  specialize (D Pos F Ft). lia.
Qed.

Lemma restart_budget_is_never_refilled_witness :
  let quiet := fun _ : Assistant.site => false in
  let broken := fun x => match x with
                         | Assistant.AtConcatenate => true
                         | _ => false
                         end in
  let good := Assistant.mkWorld (Some [1 # 2]) false [] quiet in
  let bad := Assistant.mkWorld (Some [1 # 2]) false [] broken in
  let r := Assistant.listen_loop default_config
             [bad; good; bad; good; bad; good; bad; good]
             (Assistant.initial_state default_config) in
  fst r = Assistant.Fatal /\
  Assistant.sleeps (Assistant.calls (snd r)) = 3%nat /\
  Assistant.restart_count (snd r) = 3%nat.
Proof.
  cbv zeta.
  set (ws := [_; _; _; _; _; _; _; _]).
  destruct (@restart_budget_is_never_refilled default_config ws
              (Assistant.initial_state default_config))
    as [_ [E [_ Ft]]].
  - vm_compute. lia.
  - assert (R : fst (Assistant.listen_loop default_config ws
                       (Assistant.initial_state default_config))
                = Assistant.Fatal) by (vm_compute; reflexivity).
    assert (F : Forall (fun w => Assistant.fails w Assistant.AtSleep = false)
                  ws) by (repeat constructor).
    assert (Pos : Assistant.sleep_refused
                    (restart_delay_seconds default_config) = false)
      by reflexivity.
    split; [exact R|]. rewrite E, (Ft Pos F R). split; reflexivity.
Defined.

(** X12.  A pass that fails does not drop the samples it was working on:
    when an exception other than [queue.Empty] leaves the [try] body, a
    block had been taken from the queue, and the buffer is either untouched
    (the concatenation raised), or it is the full chunk, raw or already
    gated; it is never cleared.  The next pass therefore works on these
    samples again, together with the next block. *)
Theorem failed_pass_keeps_the_samples
    (cfg : Config) (w : Assistant.World) (s s' : Assistant.state) :
  Assistant.listen_try cfg w s = (Assistant.Raise Assistant.Error, s') ->
  exists data,
    Assistant.queue_item w = Some data /\
    Assistant.audio_buffer (snd (Assistant.listen_pass cfg w s))
    = Assistant.audio_buffer s' /\
    (Assistant.audio_buffer s' = Assistant.audio_buffer s \/
     (Assistant.CHUNK_SIZE_SAMPLES cfg
        <= Z.of_nat (List.length (Assistant.audio_buffer s ++ data)))%Z /\
     List.length (Assistant.audio_buffer s')
     = List.length (Assistant.audio_buffer s ++ data) /\
     (Assistant.audio_buffer s' = (Assistant.audio_buffer s ++ data)%list \/
      Assistant.audio_buffer s'
      = Audio.noise_gate cfg (Assistant.audio_buffer s ++ data) None)).
Proof.
  intros E. destruct (listen_try_error_buffer cfg w s E) as [data [Get B]].
  exists data. split; [exact Get|]. split.
  - destruct (Assistant.restart_count s' <? max_restart_attempts cfg)%nat
      eqn:Lt.
    + apply Nat.ltb_lt in Lt.
      now rewrite (@listen_pass_retry cfg w s s' E Lt).
    + apply Nat.ltb_ge in Lt.
      now rewrite (@listen_pass_exhausted cfg w s s' E Lt).
  - destruct B as [B|[Full B]]; [now left|]. right. split; [exact Full|].
    split; [|exact B].
    destruct B as [-> | ->]; [reflexivity | apply noise_gate_length].
Qed.

Lemma failed_pass_keeps_the_samples_witness :
  let cfg := {| WAKE_WORD := "assistant";
                WAKE_WORD_TIMEOUT := 10;
                wake_threshold := 7 # 10;
                sample_rate := 2;
                chunk_duration_seconds := 1;
                rms_threshold := 15 # 1000;
                peak_threshold := 4 # 100;
                noise_gate_threshold := 1 # 100;
                max_restart_attempts := 3;
                restart_delay_seconds := 1 |} in
  let e := Assistant.mkEnv 5 "a joke" "noon" (fun _ => false) in
  let w := Assistant.mkWorld (Some [1 # 2; 1 # 200]) false
             [("assistant"%string, e)]
             (fun x => match x with
                       | Assistant.AtSegmentText => true
                       | _ => false
                       end) in
  List.length
    (Assistant.audio_buffer
       (snd (Assistant.listen_pass cfg w (Assistant.initial_state cfg))))
  = 2%nat.
Proof.
  intros cfg e w.
  assert (E : Assistant.listen_try cfg w (Assistant.initial_state cfg)
              = (Assistant.Raise Assistant.Error,
                 snd (Assistant.listen_try cfg w (Assistant.initial_state cfg))))
    by (vm_compute; reflexivity).
  destruct (@failed_pass_keeps_the_samples cfg w _ _ E) as [data [Get [P B]]].
  rewrite P. injection Get as <-.
  destruct B as [B | [_ [L _]]]; [vm_compute in B; discriminate B | exact L].
Defined.

(** X13.  Silence never reaches the transcription engine: with thresholds
    that are not negative, a pass that completes a chunk of zero samples
    calls [is_significant_audio] and nothing else; the chunk is dropped
    without being gated or transcribed, and nothing but the buffer and the
    log changes. *)
Theorem silent_chunk_is_dropped_unheard
    (cfg : Config) (w : Assistant.World) (s : Assistant.state)
    (data : Audio.buffer) :
  Assistant.queue_item w = Some data ->
  Assistant.fails w Assistant.AtConcatenate = false ->
  Assistant.fails w Assistant.AtIsSignificant = false ->
  (Assistant.CHUNK_SIZE_SAMPLES cfg
     <= Z.of_nat (List.length (Assistant.audio_buffer s ++ data)))%Z ->
  Audio.all_zero (Assistant.audio_buffer s ++ data) ->
  0 <= rms_threshold cfg -> 0 <= peak_threshold cfg ->
  Assistant.listen_pass cfg w s =
  (Assistant.Continue,
   Assistant.with_buffer []
     (snd (Assistant.log
             (Assistant.CallIsSignificant (Assistant.audio_buffer s ++ data))
             s))).
Proof.
  intros Get F1 F2 Full Z R P. apply Z.leb_le in Full.
  assert (Sig : Audio.is_significant_audio cfg
                  (Assistant.audio_buffer s ++ data) None None = false).
  { destruct (Assistant.audio_buffer s ++ data)%list as [|x xs] eqn:E;
      [reflexivity|].
    destruct (Audio.is_significant_audio cfg (x :: xs) None None) eqn:S;
      [|reflexivity].
    change (Audio.is_significant_audio cfg (x :: xs)
              (Some (rms_threshold cfg)) (Some (peak_threshold cfg)) = true)
      in S.
    apply is_significant_audio_all_zero in S; [|discriminate | exact Z].
    exfalso. destruct S; qlra. }
  apply listen_pass_ok with (u := tt).
  unfold Assistant.listen_try, Assistant.bind, Assistant.gets, Assistant.guard,
         Assistant.log, Assistant.set_audio_buffer, Assistant.ret,
         Assistant.raise.
  rewrite Get, F1. cbn [fst snd Assistant.audio_buffer]. rewrite Full, F2.
  cbn [fst snd Assistant.audio_buffer Assistant.calls]. rewrite Sig.
  reflexivity.
Qed.

Lemma silent_chunk_is_dropped_unheard_witness :
  let cfg := {| WAKE_WORD := "assistant";
                WAKE_WORD_TIMEOUT := 10;
                wake_threshold := 7 # 10;
                sample_rate := 2;
                chunk_duration_seconds := 1;
                rms_threshold := 15 # 1000;
                peak_threshold := 4 # 100;
                noise_gate_threshold := 1 # 100;
                max_restart_attempts := 3;
                restart_delay_seconds := 1 |} in
  let w := Assistant.mkWorld (Some [0; 0]) false [] (fun _ => false) in
  Assistant.calls
    (snd (Assistant.listen_pass cfg w (Assistant.initial_state cfg)))
  = [Assistant.CallIsSignificant [0; 0]].
Proof.
  cbv zeta.
  erewrite silent_chunk_is_dropped_unheard.
  - reflexivity.
  - reflexivity.
  - reflexivity.
  - reflexivity.
  - vm_compute. discriminate.
  - repeat constructor.
  - vm_compute. discriminate.
  - vm_compute. discriminate.
Defined.

(* ------------------------------------------------------------------ *)
(** ** The two filters together *)
(* ------------------------------------------------------------------ *)

Section Filters.
Import Audio.

(** The gate on one sample. *)
Lemma gate_sample_cases t x :
  x * of_bool (np_greater (Qabs x) t) == x \/
  x * of_bool (np_greater (Qabs x) t) == 0.
Proof.
  destruct (np_greater (Qabs x) t); simpl; [left | right]; ring.
Qed.

Lemma gate_sample_idem t x :
  let y := x * of_bool (np_greater (Qabs x) t) in
  y * of_bool (np_greater (Qabs y) t) == y.
Proof.
  cbv zeta. destruct (np_greater (Qabs x) t) eqn:K; cbn [of_bool].
  - assert (E : Qabs (x * 1) == Qabs x).
    { apply Qabs_wd. ring. }
    rewrite (np_greater_compat t E), K. cbn [of_bool]. ring.
  - ring.
Qed.

(** The gated sample is the sample or zero. *)
Lemma noise_gate_shrinks cfg audio thr :
  Forall2 (fun x y => y == x \/ y == 0) audio (noise_gate cfg audio thr).
Proof.
  induction audio as [|x xs IH]; [constructor|].
  rewrite noise_gate_cons. constructor; [apply gate_sample_cases | exact IH].
Qed.

Lemma shrink_square x y : y == x \/ y == 0 -> y * y <= x * x.
Proof.
  intros [E|E]; rewrite E; [apply Qle_refl|].
  assert (0 <= x * x) by Lqa.nra. qlra.
Qed.

Lemma shrink_abs x y : y == x \/ y == 0 -> Qabs y <= Qabs x.
Proof.
  intros [E|E]; rewrite E; [apply Qle_refl | apply Qabs_nonneg].
Qed.

Lemma np_sum_square_shrinks (a g : buffer) :
  Forall2 (fun x y => y == x \/ y == 0) a g ->
  np_sum (square g) <= np_sum (square a).
Proof.
  induction 1 as [|x y a g H _ IH]; simpl; [apply Qle_refl|].
  pose proof (shrink_square H). qlra.
Qed.

Lemma np_max_monotone (l l' : buffer) (a a' : Q) :
  a' <= a -> Forall2 (fun x y => y <= x) l l' -> np_max a' l' <= np_max a l.
Proof.
  intros Ha F. revert a a' Ha. unfold np_max.
  induction F as [|x y l l' H _ IH]; intros a a' Ha; simpl; [exact Ha|].
  apply IH. apply Q.max_le_compat; assumption.
Qed.

Lemma np_abs_shrinks (a g : buffer) :
  Forall2 (fun x y => y == x \/ y == 0) a g ->
  Forall2 (fun x y => y <= x) (np_abs a) (np_abs g).
Proof.
  induction 1 as [|x y a g H _ IH]; simpl; constructor; [|exact IH].
  now apply shrink_abs.
Qed.

Lemma length_pos_inv (n : nat) : 0 <= / inject_Z (Z.of_nat n).
Proof.
  apply Qinv_le_0_compat. change 0 with (inject_Z 0).
  rewrite <- Zle_Qle. apply Nat2Z.is_nonneg.
Qed.

Lemma sqrt_gt_monotone m m' t :
  m' <= m -> sqrt_gt m' t = true -> sqrt_gt m t = true.
Proof.
  unfold sqrt_gt. intros Le. rewrite !orb_true_iff, !Qltb_lt.
  intros [H|H]; [now left | right; qlra].
Qed.

Lemma is_significant_audio_shrinks cfg (a g : buffer) r p :
  Forall2 (fun x y => y == x \/ y == 0) a g ->
  is_significant_audio cfg g r p = true ->
  is_significant_audio cfg a r p = true.
Proof.
  intros F. pose proof (Forall2_length F) as Len.
  destruct F as [|x y a g H F]; [easy|].
  unfold is_significant_audio. rewrite !orb_true_iff, !Qltb_lt.
  intros [S|P]; [left | right].
  - eapply sqrt_gt_monotone; [|exact S].
    unfold np_mean, square. rewrite !length_map, Len.
    unfold Qdiv. apply Qmult_le_compat_r; [|apply length_pos_inv].
    apply (@np_sum_square_shrinks (x :: a) (y :: g)). now constructor.
  - eapply Qlt_le_trans; [exact P|].
    apply np_max_monotone; [now apply shrink_abs | now apply np_abs_shrinks].
Qed.

End Filters.

(** X14.  Gating twice is gating once: applying [noise_gate] with the same
    threshold to its own output changes no sample. *)
Theorem noise_gate_is_idempotent
    (cfg : Config) (audio : Audio.buffer) (thr : option Q) :
  Forall2 Qeq (Audio.noise_gate cfg (Audio.noise_gate cfg audio thr) thr)
              (Audio.noise_gate cfg audio thr).
Proof.
  induction audio as [|x xs IH]; [constructor|].
  rewrite !noise_gate_cons. constructor; [apply gate_sample_idem | exact IH].
Qed.

(** X15.  The gate never makes a chunk significant: whatever the three
    thresholds are, a chunk whose gated form passes [is_significant_audio]
    passes it ungated too (the gate raises neither the root mean square nor
    the peak). *)
Theorem noise_gate_never_adds_significance
    (cfg : Config) (audio : Audio.buffer) (thr rms_thr peak_thr : option Q) :
  Audio.is_significant_audio cfg (Audio.noise_gate cfg audio thr)
    rms_thr peak_thr = true ->
  Audio.is_significant_audio cfg audio rms_thr peak_thr = true.
Proof.
  intros S.
  eapply is_significant_audio_shrinks; [|exact S]. apply noise_gate_shrinks.
Qed.

Lemma noise_gate_never_adds_significance_witness :
  Audio.is_significant_audio default_config [1 # 2; 1 # 200] None None = true.
Proof.
  apply (@noise_gate_never_adds_significance default_config
           [1 # 2; 1 # 200] None None None).
  vm_compute. reflexivity.
Defined.

(* ------------------------------------------------------------------ *)
(** ** The lock, the order of playback and the pending count *)
(* ------------------------------------------------------------------ *)

Section Playback.
Import TTS.
Local Open Scope nat_scope.

Lemma lock_inv_step a s s' :
  lock_inv s -> exec a s = Some s' -> lock_inv s'.
Proof.
  unfold lock_inv. intros I E.
  step_cases E; simpl in *; rewrite ?HC, ?HW in *;
    repeat match goal with
           | |- context [match lock s with _ => _ end] =>
               destruct (lock s) as [[|]|] eqn:?
           | H : context [match lock s with _ => _ end] |- _ =>
               destruct (lock s) as [[|]|] eqn:?
           end;
    try discriminate;
    repeat match goal with
           | H : _ /\ _ |- _ => destruct H
           | H : exists _, _ |- _ => destruct H
           end;
    try congruence;
    try (split; [try (intros ? ?; congruence); eauto
                | try (intros ?; congruence); eauto]).
Qed.

Lemma lock_invariant s : reachable s -> lock_inv s.
Proof.
  revert s. apply reachable_invariant.
  - split; [intros ? ?|intros ?]; discriminate.
  - intros a s s'. apply lock_inv_step.
Qed.

Lemma started_app h e : started (h ++ [e]) = (started h ++ started [e])%list.
Proof.
  induction h as [|x h IH]; [reflexivity|].
  cbn [app]. destruct x as [| [|] [|] | |]; cbn [started app]; now rewrite IH.
Qed.

Lemma started_in h id :
  In id (started h) <->
  exists text b late, In (EvPlayStart Worker (Some id) text b late) h.
Proof.
  induction h as [|x h IH]; simpl.
  - split; [tauto | intros [? [? [? []]]]].
  - split.
    + destruct x as [| [|] [i|] t b l | |]; simpl;
        try (intros H; apply IH in H; destruct H as [t' [b' [l' H]]];
             exists t', b', l'; now right).
      intros [<-|H].
      * exists t, b, l. now left.
      * apply IH in H. destruct H as [t' [b' [l' H]]].
        exists t', b', l'. now right.
    + intros [t' [b' [l' [H|H]]]].
      * subst x. now left.
      * assert (J : In id (started h)) by (apply IH; eauto).
        destruct x as [| [|] [i|] t b l | |]; simpl; auto.
Qed.

Lemma sorted_lt_snoc (l : list nat) (n : nat) :
  StronglySorted lt l -> (forall x, In x l -> x < n) ->
  StronglySorted lt (l ++ [n]).
Proof.
  induction 1 as [|a l S IH Hd]; intros B; simpl.
  - repeat constructor.
  - constructor; [apply IH; intros x Hx; apply B; now right|].
    apply Forall_app. split; [exact Hd|].
    repeat constructor. apply B. now left.
Qed.

End Playback.

Section Order.
Import TTS.
Local Open Scope nat_scope.

Lemma started_bound s id :
  ids_inv s -> In id (started (history s)) -> id < next_id s.
Proof.
  intros [_ I2] H. apply started_in in H. destruct H as [t [b [l H]]].
  exact (I2 _ _ _ _ H).
Qed.

Lemma in_queue_snoc (q : list item) (n k : nat) (x : option string) :
  In k (map fst (q ++ [(n, x)])) -> In k (map fst q) \/ k = n.
Proof.
  rewrite map_app, in_app_iff. simpl. intuition.
Qed.

Lemma sorted_head_lt_ids (q : list item) (n k : nat) (x : option string) :
  StronglySorted (fun a b : item => fst a < fst b) ((n, x) :: q) ->
  In k (map fst q) -> n < k.
Proof.
  intros S Hin. inversion S as [|? ? _ Hd]; subst.
  apply in_map_iff in Hin. destruct Hin as [[k' y] [<- Hin]].
  rewrite Forall_forall in Hd. exact (Hd _ Hin).
Qed.

Lemma fifo_inv_step a s s' :
  queue_ok s -> ids_inv s -> fifo_inv s -> exec a s = Some s' -> fifo_inv s'.
Proof.
  unfold fifo_inv, worker_id. intros [S B] I [F1 [F2 [F3 [F4 F5]]]] E.
  pose proof (@started_bound s) as SB.
  destruct I as [I1 I2]. unfold worker_id in I1.
  assert (SB' : forall id, In id (started (history s)) -> id < next_id s)
    by (intros id H; apply SB; [split; assumption | exact H]).
  clear SB I2.
  step_cases E; cbn [history speech_queue worker put record set_worker set_client
                     set_is_speaking set_shutdown_flag set_lock
                     set_queue set_unfinished add_lost] in *;
    rewrite ?HW in *; rewrite ?started_app; cbn [started app]; rewrite ?app_nil_r.
  all: try solve [ repeat split; auto; try discriminate;
                   try (intros; intuition congruence) ].
  all: split; [|split; [|split; [|split]]].
  all: try assumption.
  all: try solve [ intros; intuition congruence ].
  (* a put *)
  all: try solve [ intros id' q' Hid Hq; apply in_queue_snoc in Hq;
                   destruct Hq as [Hq| ->]; [eauto | auto] ].
  all: try solve [ intros w' q' Hw Hq; apply in_queue_snoc in Hq;
                   destruct Hq as [Hq| ->]; [eauto | auto] ].
  (* a get *)
  all: try solve [ intros id' q' Hid Hq; apply (F2 id' q' Hid);
                   simpl; auto ].
  all: try solve [ intros w' q' Hw Hq; injection Hw as <-;
                   eapply sorted_head_lt_ids; eauto ].
  all: try solve [ intros id' w' Hid Hw; injection Hw as <-;
                   apply Nat.lt_le_incl, (F2 id'); simpl; auto ].
  all: try solve [ intros id' w' t' Hid [Hw|Hw];
                   [injection Hw as <- <-; apply (F2 id'); simpl; auto
                   | discriminate Hw] ].
  (* the flag is set *)
  all: try solve [ intros id' w' t' Hid [Hw|Hw];
                   [ discriminate Hw
                   | injection Hw as <- <-; eapply F5; eauto ] ].
  (* an empty queue *)
  all: try solve [ rewrite Q; intros id' q' _ [] ].
  (* playback starts *)
  all: try solve [ apply sorted_lt_snoc; [exact F1|];
                   intros x Hx; eapply F5; eauto ].
  all: try solve [ intros id' q' Hid Hq; apply in_app_iff in Hid;
                   destruct Hid as [Hid|[<-|[]]]; eauto ].
  all: try solve [ intros id' w' Hid Hw; injection Hw as <-;
                   apply in_app_iff in Hid;
                   destruct Hid as [Hid|[<-|[]]];
                   [apply Nat.lt_le_incl; eapply F5; eauto | apply Nat.le_refl] ].
Qed.

Lemma fifo_invariant s : reachable s -> fifo_inv s.
Proof.
  intros R.
  assert (H : shutdown_inv s /\ fifo_inv s); [|tauto].
  revert s R. apply reachable_invariant.
  - split; [apply shutdown_invariant, reachable_init|].
    unfold fifo_inv. simpl.
    repeat split; try constructor; intros; try contradiction;
      try discriminate.
  - intros a s s' [[Q [I [B A]]] F] E. split.
    + split; [|split; [|split]].
      * eapply queue_ok_step; eauto.
      * eapply ids_inv_step; eauto.
      * eapply before_sentinel_step; eauto.
      * eapply after_sentinel_step; eauto.
    + eapply fifo_inv_step; eauto.
Qed.

Lemma was_put_record s e id text :
  was_put s id text -> was_put (record e s) id text.
Proof.
  intros [late H]. exists late. simpl. apply in_app_iff. now left.
Qed.

Lemma was_put_put s x id text :
  was_put s id text -> was_put (put x s) id text.
Proof.
  intros [late H]. exists late. simpl. apply in_app_iff. now left.
Qed.

Lemma origin_inv_step a s s' :
  origin_inv s -> exec a s = Some s' -> origin_inv s'.
Proof.
  unfold origin_inv. intros [O1 [O2 O3]] E.
  assert (Keep : forall (h : list event) (e : event) id text,
             (exists late, In (EvPut id (Some text) late) h) ->
             exists late, In (EvPut id (Some text) late) (h ++ [e])%list).
  { intros h e id text [late H]. exists late. apply in_app_iff. now left. }
  step_cases E; unfold was_put in *; simpl in *; rewrite ?HW in *.
  all: split; [|split].
  all: try assumption.
  (* the worker's hands *)
  all: try solve [ intros id' t' [H|[H|H]]; discriminate H ].
  all: try solve [ intros id' t' H; try apply Keep; apply O2;
                   destruct H as [H|[H|H]]; try discriminate H;
                   injection H as <- <-; auto ].
  all: try solve [ intros id' t' H; try apply Keep; apply O1;
                   destruct H as [H|[H|H]]; try discriminate H;
                   injection H as <- <-; simpl; auto ].
  (* the queue *)
  all: try solve [ intros id' t' H; apply in_app_iff in H;
                   destruct H as [H|[H|[]]];
                   [ apply Keep, O1, H
                   | inversion H; subst; eexists; apply in_app_iff; right;
                     left; reflexivity ] ].
  all: try solve [ intros id' t' H; try apply Keep; apply O1; simpl; auto ].
  (* the playbacks *)
  all: try solve [ intros id' t' b' l' H; apply in_app_iff in H;
                   destruct H as [H|[H|[]]];
                   [ apply Keep, (O3 _ _ _ _ H)
                   | first [ discriminate H
                           | inversion H; subst; apply Keep, O2; auto ] ] ].
  all: rewrite Q; intros id' t' [].
Qed.

Lemma origin_invariant s : reachable s -> origin_inv s.
Proof.
  revert s. apply reachable_invariant.
  - repeat split; simpl; intros; try contradiction;
      repeat match goal with H : _ \/ _ |- _ => destruct H end; discriminate.
  - intros a s s'. apply origin_inv_step.
Qed.

(** An entry that will never be marked done stays so. *)
Lemma undone_step a s s' :
  undone s -> exec a s = Some s' -> undone s'.
Proof.
  unfold undone. intros U E.
  step_cases E; simpl in *; rewrite ?Q in *.
  all: try solve [ exact U | left; lia ].
  all: try solve [ destruct U as [U|[sid U]]; [now left | right; exists sid;
                   apply in_app_iff; now left] ].
  all: try solve [ destruct U as [U|[sid U]]; [now left | right; exists sid;
                   destruct U as [U|U]; [discriminate U | exact U]] ].
  all: try solve [ destruct U as [U|[sid U]]; [left; lia | right; exists sid; exact U] ].
Qed.

Lemma sentinel_undone s : reachable s -> sentinel s <> None -> undone s.
Proof.
  revert s.
  apply (reachable_invariant (fun s => sentinel s <> None -> undone s));
    [intros H; now destruct H|].
  intros a s s' I E.
  destruct (sentinel s) as [sid|] eqn:SS.
  - intros _. eapply undone_step; [|exact E]. apply I. discriminate.
  - clear I. unfold undone.
    step_cases E; simpl in *; rewrite ?SS; try (intros H; now destruct H).
    all: intros _; right; exists (next_id s); apply in_app_iff; right;
      now left.
Qed.

Lemma undone_run acts s s' :
  undone s -> run acts s = Some s' -> undone s'.
Proof.
  intros U R. eapply run_invariant; [|exact U|exact R].
  intros a s0 s1. apply undone_step.
Qed.

Lemma undone_blocks_join s :
  count_inv s -> undone s -> exec AJoinReturn s = None.
Proof.
  intros [N _] U. unfold exec.
  destruct (client s); try reflexivity.
  assert (P : 0 < unfinished_tasks s).
  { rewrite N. destruct U as [U|[sid U]]; [lia|].
    destruct (speech_queue s); [destruct U | simpl; lia]. }
  destruct (unfinished_tasks s); [lia | reflexivity].
Qed.

End Order.

(** X17.  Synthesis and playback never overlap: in every state the two
    threads can reach, [self.lock] is held exactly by the thread that is
    inside the body of [_speak_blocking], so the worker and a caller of
    [speak(text, blocking=True)] are never both synthesizing or playing. *)
Theorem playback_is_mutually_exclusive (s : TTS.state) :
  TTS.reachable s ->
  TTS.lock_inv s /\
  (forall id t t',
     ~ (TTS.worker s = TTS.WPlay id t /\ TTS.client s = TTS.CPlay t')) /\
  (TTS.lock s = None <->
   (forall id t, TTS.worker s <> TTS.WPlay id t) /\
   (forall t, TTS.client s <> TTS.CPlay t)).
Proof.
  intros R. pose proof (lock_invariant R) as L. split; [exact L|].
  unfold TTS.lock_inv in L.
  destruct (TTS.lock s) as [[|]|]; split.
  - intros id t t' [W C]. destruct L as [_ L]. exact (L _ C).
  - split; [discriminate|]. intros [W _]. destruct L as [[id [t L]] _].
    destruct (W _ _ L).
  - intros id t t' [W C]. destruct L as [L _]. exact (L _ _ W).
  - split; [discriminate|]. intros [_ C]. destruct L as [_ [t L]].
    destruct (C _ L).
  - intros id t t' [W C]. destruct L as [L _]. exact (L _ _ W).
  - split; [intros _; exact L | reflexivity].
Qed.

Lemma playback_is_mutually_exclusive_witness :
  exists s,
    TTS.run [TTS.ASpeak "one"; TTS.ASpeakBlocking "two"; TTS.AWorkerTest;
             TTS.AWorkerGet; TTS.AWorkerSet; TTS.AWorkerAcquire]
            TTS.init = Some s /\
    TTS.lock s = Some TTS.Worker /\
    TTS.exec TTS.AClientAcquire s = None /\
    TTS.lock_inv s.
Proof.
  eexists. split; [vm_compute; reflexivity|].
  split; [reflexivity|]. split; [reflexivity|].
  eapply playback_is_mutually_exclusive.
  exists [TTS.ASpeak "one"; TTS.ASpeakBlocking "two"; TTS.AWorkerTest;
          TTS.AWorkerGet; TTS.AWorkerSet; TTS.AWorkerAcquire].
  vm_compute. reflexivity.
Defined.

(** X18.  The worker plays what was put, in the order of the puts, each
    request at most once: in every reachable state the numbers of the
    requests whose playback the worker has started are strictly increasing
    (requests are numbered in the order of [speech_queue.put]), and every
    playback of the worker is of a request that was put with the very text
    played. *)
Theorem worker_plays_in_put_order (s : TTS.state) :
  TTS.reachable s ->
  StronglySorted lt (TTS.started (TTS.history s)) /\
  (forall id text b late,
     In (TTS.EvPlayStart TTS.Worker (Some id) text b late) (TTS.history s) ->
     TTS.was_put s id text).
Proof.
  intros R. split.
  - now destruct (fifo_invariant R).
  - now destruct (origin_invariant R) as [_ [_ O]].
Qed.

Lemma worker_plays_in_put_order_witness :
  exists s,
    TTS.run [TTS.ASpeak "one"; TTS.ASpeak "two"; TTS.AWorkerTest;
             TTS.AWorkerGet; TTS.AWorkerSet; TTS.AWorkerAcquire;
             TTS.AWorkerFinish true; TTS.AWorkerClear; TTS.AWorkerTaskDone;
             TTS.AWorkerTest; TTS.AWorkerGet; TTS.AWorkerSet;
             TTS.AWorkerAcquire]
            TTS.init = Some s /\
    TTS.started (TTS.history s) = [0; 1]%nat /\
    StronglySorted lt (TTS.started (TTS.history s)).
Proof.
  eexists. split; [vm_compute; reflexivity|]. split; [reflexivity|].
  eapply worker_plays_in_put_order.
  exists [TTS.ASpeak "one"; TTS.ASpeak "two"; TTS.AWorkerTest;
          TTS.AWorkerGet; TTS.AWorkerSet; TTS.AWorkerAcquire;
          TTS.AWorkerFinish true; TTS.AWorkerClear; TTS.AWorkerTaskDone;
          TTS.AWorkerTest; TTS.AWorkerGet; TTS.AWorkerSet;
          TTS.AWorkerAcquire].
  vm_compute. reflexivity.
Defined.

(** X19.  [wait_until_done()] can never return again once [shutdown()] has
    put its signal, or once an exception has left [_speak_blocking] in the
    worker: the signal is taken without [task_done()] (or is never taken),
    and the [except] clause of the worker calls no [task_done()] either, so
    the count of unfinished tasks stays positive and [speech_queue.join()]
    blocks in every later state, whatever the two threads do. *)
Theorem join_never_returns_after_shutdown
    (s : TTS.state) (acts : list TTS.action) (s' : TTS.state) :
  TTS.reachable s ->
  TTS.sentinel s <> None \/ (0 < TTS.lost s)%nat ->
  TTS.run acts s = Some s' ->
  TTS.undone s' /\
  (0 < TTS.unfinished_tasks s')%nat /\
  TTS.exec TTS.AJoinReturn s' = None.
Proof.
  intros R H Run.
  assert (U : TTS.undone s).
  { destruct H as [H|H]; [now apply sentinel_undone | now left]. }
  pose proof (undone_run acts U Run) as U'.
  pose proof (count_invariant (reachable_run acts R Run)) as C.
  split; [exact U'|]. split; [|now apply undone_blocks_join].
  destruct C as [N _]. rewrite N.
  destruct U' as [L|[k I]]; [lia|].
  destruct (TTS.speech_queue s'); [destruct I | simpl; lia].
Qed.

Lemma join_never_returns_after_shutdown_witness :
  exists s s',
    TTS.run [TTS.AShutdown; TTS.AShutdownPut; TTS.AShutdownJoined] TTS.init
    = Some s /\
    TTS.run [TTS.AWorkerTest; TTS.AWaitUntilDone] s = Some s' /\
    TTS.client s' = TTS.CJoin /\
    TTS.exec TTS.AJoinReturn s' = None.
Proof.
  eexists. eexists. split; [vm_compute; reflexivity|].
  split; [vm_compute; reflexivity|]. split; [reflexivity|].
  eapply (fun R H Run =>
            proj2 (proj2 (@join_never_returns_after_shutdown _
                            [TTS.AWorkerTest; TTS.AWaitUntilDone] _ R H Run))).
  - exists [TTS.AShutdown; TTS.AShutdownPut; TTS.AShutdownJoined].
    vm_compute. reflexivity.
  - left. discriminate.
  - vm_compute. reflexivity.
Defined.

(* ------------------------------------------------------------------ *)
(** ** Merging the configuration file into the defaults *)
(* ------------------------------------------------------------------ *)

Section Merging.
Import ConfigFile.

Lemma merge_value_nil base : merge_value (Dict []) base = base.
Proof. reflexivity. Qed.

Lemma merge_value_cons key v rest base :
  merge_value (Dict ((key, v) :: rest)) base =
  merge_value (Dict rest)
    match lookup key base, v with
    | Some (Dict b), Dict _ => assign key (Dict (merge_value v b)) base
    | _, _ => assign key v base
    end.
Proof. reflexivity. Qed.

Lemma well_formed_cons key v rest :
  well_formed (Dict ((key, v) :: rest)) ->
  ~ In key (keys rest) /\ well_formed v /\ well_formed (Dict rest).
Proof.
  simpl. intros [N [W A]]. inversion N; subst. repeat split; assumption.
Qed.

Lemma same_shape_cons key v rest base :
  same_shape (Dict ((key, v) :: rest)) base ->
  match lookup key base, v with
  | Some (Dict b), Dict _ => same_shape v b
  | Some (Leaf _), Leaf _ => True
  | None, _ => True
  | _, _ => False
  end /\ same_shape (Dict rest) base.
Proof. simpl. tauto. Qed.

Lemma lookup_assign_same key v d : lookup key (assign key v d) = Some v.
Proof.
  induction d as [|[k v0] d IH]; simpl.
  - now rewrite String.eqb_refl.
  - destruct (k =? key)%string eqn:E; simpl; rewrite E; [reflexivity | exact IH].
Qed.

Lemma lookup_assign_other key key' v d :
  key <> key' -> lookup key' (assign key v d) = lookup key' d.
Proof.
  intros N. induction d as [|[k v0] d IH]; simpl.
  - apply String.eqb_neq in N. now rewrite N.
  - destruct (k =? key)%string eqn:E; simpl.
    + apply String.eqb_eq in E. subst k.
      apply String.eqb_neq in N. now rewrite N.
    + now rewrite IH.
Qed.

Lemma lookup_none key d : lookup key d = None -> ~ In key (keys d).
Proof.
  induction d as [|[k v] d IH]; simpl; [tauto|].
  destruct (k =? key)%string eqn:E; [discriminate|].
  apply String.eqb_neq in E. intros H [K|K]; [congruence | now apply IH].
Qed.


(** A key the update does not mention keeps its value. *)
Lemma merge_lookup_other key es base :
  ~ In key (keys es) ->
  lookup key (merge_value (Dict es) base) = lookup key base.
Proof.
  revert base. induction es as [|[k v] es IH]; intros base N; [reflexivity|].
  rewrite merge_value_cons. simpl in N.
  rewrite IH by tauto.
  assert (K : k <> key) by tauto.
  destruct (lookup k base) as [[x|b]|]; destruct v;
    now apply lookup_assign_other.
Qed.

(** A key the update mentions gets the update's value, merged into the
    old one where both are mappings. *)
Lemma merge_lookup_entry key v es base :
  NoDup (keys es) -> lookup key es = Some v ->
  lookup key (merge_value (Dict es) base) =
  Some match lookup key base, v with
       | Some (Dict b), Dict _ => Dict (merge_value v b)
       | _, _ => v
       end.
Proof.
  revert base. induction es as [|[k v0] es IH]; intros base N L;
    [discriminate|].
  rewrite merge_value_cons. simpl in N, L. inversion N as [|? ? Nk Nes]; subst.
  destruct (k =? key)%string eqn:E.
  - apply String.eqb_eq in E. subst k. injection L as ->.
    rewrite merge_lookup_other by exact Nk.
    destruct (lookup key base) as [[x|b]|]; destruct v;
      now rewrite lookup_assign_same.
  - apply String.eqb_neq in E. rewrite (IH _ Nes L).
    assert (K : forall w, lookup key (assign k w base) = lookup key base)
      by (intros w; now apply lookup_assign_other).
    destruct (lookup k base) as [[x|b]|]; destruct v0; now rewrite K.
Qed.

Lemma well_formed_lookup key v es :
  well_formed (Dict es) -> lookup key es = Some v -> well_formed v.
Proof.
  induction es as [|[k v0] es IH]; [discriminate|].
  intros W L. apply well_formed_cons in W. destruct W as [_ [Wv Wes]].
  simpl in L. destruct (k =? key)%string; [now injection L as <- | auto].
Qed.

Lemma well_formed_keys es : well_formed (Dict es) -> NoDup (keys es).
Proof. simpl. tauto. Qed.

Lemma same_shape_lookup key v es base :
  same_shape (Dict es) base -> lookup key es = Some v ->
  match lookup key base, v with
  | Some (Dict b), Dict _ => same_shape v b
  | Some (Leaf _), Leaf _ => True
  | None, _ => True
  | _, _ => False
  end.
Proof.
  induction es as [|[k v0] es IH]; [discriminate|].
  intros S L. apply same_shape_cons in S. destruct S as [Sv Ses].
  simpl in L. destruct (k =? key)%string eqn:E; [|exact (IH Ses L)].
  apply String.eqb_eq in E. subst k. injection L as <-. exact Sv.
Qed.

(** A scalar the update gives at some path is what the merged mapping has
    there. *)
Lemma merge_get_path_update path :
  forall es base x,
    well_formed (Dict es) ->
    get_path (Dict es) path = Some (Leaf x) ->
    get_path (Dict (merge_value (Dict es) base)) path = Some (Leaf x).
Proof.
  induction path as [|key rest IH]; intros es base x W G; [discriminate|].
  cbn [get_path] in *.
  destruct (lookup key es) as [v|] eqn:L; [|discriminate].
  rewrite (@merge_lookup_entry key v es base (well_formed_keys W) L).
  pose proof (@well_formed_lookup key v es W L) as Wv.
  destruct (lookup key base) as [[y|b]|]; destruct v as [z|es']; try exact G.
  now apply IH.
Qed.

(** A scalar of the base is still a scalar after the merge of an update
    of the same shape: the update's where it gives one, the old one
    otherwise. *)
Lemma merge_get_path_base path :
  forall es base x,
    well_formed (Dict es) -> same_shape (Dict es) base ->
    get_path (Dict base) path = Some (Leaf x) ->
    get_path (Dict (merge_value (Dict es) base)) path =
    Some (Leaf match get_path (Dict es) path with
               | Some (Leaf y) => y
               | _ => x
               end).
Proof.
  induction path as [|key rest IH]; intros es base x W S G; [discriminate|].
  cbn [get_path] in *.
  destruct (lookup key base) as [vb|] eqn:B; [|discriminate].
  destruct (lookup key es) as [v|] eqn:L.
  - rewrite (@merge_lookup_entry key v es base (well_formed_keys W) L), B.
    pose proof (@well_formed_lookup key v es W L) as Wv.
    pose proof (@same_shape_lookup key v es base S L) as Sv. rewrite B in Sv.
    destruct vb as [y|b]; destruct v as [z|es']; try contradiction.
    + destruct rest; [|discriminate]. reflexivity.
    + now apply IH.
  - rewrite (@merge_lookup_other key es base (@lookup_none key es L)), B. exact G.
Qed.

End Merging.

(** X20.  The file wins over the defaults, at any depth: a scalar that the
    update mapping gives at some path is what the merged mapping has at
    that path, whatever the base had there (a scalar, a whole section, or
    nothing); nothing can then be read below that path. *)
Theorem merge_dict_user_value_wins
    (base update : ConfigFile.dict) (path : list string)
    (x : ConfigFile.scalar) :
  ConfigFile.well_formed (ConfigFile.Dict update) ->
  ConfigFile.get_path (ConfigFile.Dict update) path
  = Some (ConfigFile.Leaf x) ->
  ConfigFile.get_path (ConfigFile.Dict (ConfigFile.merge_dict base update)) path
  = Some (ConfigFile.Leaf x) /\
  (forall key more,
     ConfigFile.get_path (ConfigFile.Dict (ConfigFile.merge_dict base update))
       (path ++ key :: more) = None).
Proof.
  intros W G.
  assert (M := @merge_get_path_update path update base x W G).
  split; [exact M|]. intros key more.
  unfold ConfigFile.merge_dict.
  revert M. generalize (ConfigFile.Dict
                          (ConfigFile.merge_value (ConfigFile.Dict update) base)).
  clear. induction path as [|k rest IH]; intros v M.
  - simpl in M. injection M as ->. reflexivity.
  - cbn [app ConfigFile.get_path] in *.
    destruct v as [y|d]; [discriminate|].
    destruct (ConfigFile.lookup k d); [now apply IH | discriminate].
Qed.

Lemma merge_dict_user_value_wins_witness :
  ConfigFile.get_path
    (ConfigFile.Dict
       (ConfigFile.merge_dict ConfigFile.default_config
          [("audio"%string, ConfigFile.Leaf (ConfigFile.SNum 5))]))
    ["audio"%string; "sample_rate"%string]
  = None.
Proof.
  apply (@merge_dict_user_value_wins ConfigFile.default_config
           [("audio"%string, ConfigFile.Leaf (ConfigFile.SNum 5))]
           ["audio"%string] (ConfigFile.SNum 5)).
  - simpl. repeat constructor. intros [].
  - reflexivity.
Defined.

(** X21.  [load_config] never loses a setting to a file of the right
    shape: whatever the file is (missing, unreadable, not a mapping, or a
    mapping that puts sections where the defaults have sections and
    scalars where they have scalars), every scalar setting of the defaults
    can still be read from the result, and its value is the file's where
    the file gives one and the default otherwise. *)
Theorem load_config_keeps_every_setting
    (f : ConfigFile.file) (path : list string) (x : ConfigFile.scalar) :
  match f with
  | ConfigFile.Parsed (ConfigFile.Dict user_config) =>
      ConfigFile.well_formed (ConfigFile.Dict user_config) /\
      ConfigFile.same_shape (ConfigFile.Dict user_config)
        ConfigFile.default_config
  | _ => True
  end ->
  ConfigFile.get_path (ConfigFile.Dict ConfigFile.default_config) path
  = Some (ConfigFile.Leaf x) ->
  ConfigFile.get_path (ConfigFile.Dict (ConfigFile.load_config f)) path
  = Some (ConfigFile.Leaf
            match f with
            | ConfigFile.Parsed (ConfigFile.Dict user_config) =>
                match ConfigFile.get_path (ConfigFile.Dict user_config) path with
                | Some (ConfigFile.Leaf y) => y
                | _ => x
                end
            | _ => x
            end).
Proof.
  intros H G. destruct f as [| |[y|user_config]]; try exact G.
  destruct H as [W S]. now apply merge_get_path_base.
Qed.

Lemma load_config_keeps_every_setting_witness :
  let user := [("wake_word"%string,
                ConfigFile.Dict
                  [("phrase"%string, ConfigFile.Leaf (ConfigFile.SStr "jarvis"))]);
               ("extra"%string, ConfigFile.Leaf ConfigFile.SNull)] in
  let cfg := ConfigFile.load_config (ConfigFile.Parsed (ConfigFile.Dict user)) in
  ConfigFile.get_path (ConfigFile.Dict cfg) ["wake_word"%string; "phrase"%string]
  = Some (ConfigFile.Leaf (ConfigFile.SStr "jarvis")) /\
  ConfigFile.get_path (ConfigFile.Dict cfg) ["wake_word"%string; "timeout"%string]
  = Some (ConfigFile.Leaf (ConfigFile.SNum 10)).
Proof.
  intros user cfg.
  assert (H : ConfigFile.well_formed (ConfigFile.Dict user) /\
              ConfigFile.same_shape (ConfigFile.Dict user)
                ConfigFile.default_config).
  { split; [|simpl; tauto].
    simpl. repeat split; repeat constructor; simpl; intuition discriminate. }
  split.
  - exact (@load_config_keeps_every_setting
             (ConfigFile.Parsed (ConfigFile.Dict user))
             ["wake_word"%string; "phrase"%string]
             (ConfigFile.SStr "assistant") H eq_refl).
  - exact (@load_config_keeps_every_setting
             (ConfigFile.Parsed (ConfigFile.Dict user))
             ["wake_word"%string; "timeout"%string]
             (ConfigFile.SNum 10) H eq_refl).
Defined.

(* ------------------------------------------------------------------ *)
(** ** The loop while nobody addresses the assistant *)
(* ------------------------------------------------------------------ *)

Section Unaddressed.
Import PyStr Audio Assistant.

Variable cfg : Config.

Lemma text_lower_strip t : Wake.text_lower (strip t) = Wake.text_lower t.
Proof. unfold Wake.text_lower. now rewrite lower_strip, strip_idem. Qed.

(** Segments without the phrase leave a sleeping assistant as it is. *)
Lemma for_segments_asleep w segs s :
  fails w AtSegmentText = false ->
  Wake.is_awake (wake_word_detector s) = false ->
  Forall (fun seg : string * Env =>
            contains (Wake.wake_word (wake_word_detector s))
                     (Wake.text_lower (fst seg)) = false) segs ->
  for_segments cfg w segs s = (Ok tt, s).
Proof.
  intros F A P. induction P as [|[t e] segs Pt _ IH]; [reflexivity|].
  cbn [for_segments]. rewrite F. unfold bind at 1. cbn [guard ret].
  unfold bind at 1.
  destruct (is_empty (strip t)).
  - cbn [ret]. exact IH.
  - rewrite handle_command_asleep; [exact IH | exact A|].
    rewrite text_lower_strip. exact Pt.
Qed.

Lemma extends_engine_log c s :
  engine_call c -> extends engine_call s (snd (log c s)).
Proof.
  intros E. repeat split. exists [c]. split; [reflexivity | now constructor].
Qed.

Ltac shape_with r b l :=
  exists r, b, l;
  split; [cbn; rewrite <- ?app_assoc, ?app_nil_r; reflexivity|];
  split; [discriminate | repeat constructor].

Lemma listen_try_asleep_shape w s :
  (forall x, x <> AtTranscribe -> fails w x = false) ->
  Wake.is_awake (wake_word_detector s) = false ->
  Forall (fun seg : string * Env =>
            contains (Wake.wake_word (wake_word_detector s))
                     (Wake.text_lower (fst seg)) = false) (segments w) ->
  exists r b l,
    listen_try cfg w s =
    (r, {| command_map := command_map s;
           restart_count := restart_count s;
           wake_word_detector := wake_word_detector s;
           keep_running := keep_running s;
           audio_buffer := b;
           calls := (calls s ++ l)%list |}) /\
    r <> Raise Error /\ Forall engine_call l.
Proof.
  intros F A P.
  assert (F1 : fails w AtConcatenate = false) by (apply F; discriminate).
  assert (F2 : fails w AtIsSignificant = false) by (apply F; discriminate).
  assert (F3 : fails w AtNoiseGate = false) by (apply F; discriminate).
  assert (F4 : fails w AtSegmentText = false) by (apply F; discriminate).
  unfold listen_try.
  destruct (queue_item w) as [data|].
  2:{ exists (Raise QueueEmpty), (audio_buffer s), (@nil call).
      split; [|split; [discriminate | constructor]].
      unfold bind, raise. rewrite app_nil_r. now destruct s. }
  unfold bind at 1. unfold ret at 1.
  unfold bind at 1. unfold gets at 1.
  unfold bind at 1. rewrite F1. unfold guard at 1. unfold ret at 1.
  unfold bind at 1. unfold set_audio_buffer at 1.
  unfold bind at 1. unfold gets at 1. cbn [audio_buffer].
  set (chunk := (audio_buffer s ++ data)%list).
  destruct (_ <=? _)%Z; [|shape_with (Ok tt) chunk (@nil call)].
  unfold bind at 1. unfold log at 1.
  unfold bind at 1. rewrite F2. unfold guard at 1. unfold ret at 1.
  destruct (negb _);
    [shape_with (Ok tt) (@nil Q) [CallIsSignificant chunk]|].
  unfold bind at 1. unfold log at 1.
  unfold bind at 1. rewrite F3. unfold guard at 1. unfold ret at 1.
  unfold bind at 1. unfold set_audio_buffer at 1.
  unfold bind at 1. unfold gets at 1. cbn [audio_buffer calls].
  unfold bind at 1.
  destruct (negb (is_speaking w)).
  - unfold bind at 1. rewrite transcribe_audio_total. cbn [fst snd].
    rewrite for_segments_asleep.
    + shape_with (Ok tt) (@nil Q)
        [CallIsSignificant chunk; CallNoiseGate chunk;
         CallTranscribe (noise_gate cfg chunk None)].
    + exact F4.
    + exact A.
    + destruct (fails w AtTranscribe); [constructor | exact P].
  - shape_with (Ok tt) (@nil Q) [CallIsSignificant chunk; CallNoiseGate chunk].
Qed.

Lemma listen_try_asleep w s :
  (forall x, x <> AtTranscribe -> fails w x = false) ->
  Wake.is_awake (wake_word_detector s) = false ->
  Forall (fun seg : string * Env =>
            contains (Wake.wake_word (wake_word_detector s))
                     (Wake.text_lower (fst seg)) = false) (segments w) ->
  let r := listen_try cfg w s in
  fst r <> Raise Error /\
  wake_word_detector (snd r) = wake_word_detector s /\
  keep_running (snd r) = keep_running s /\
  extends engine_call s (snd r).
Proof.
  intros F A P. cbv zeta.
  destruct (@listen_try_asleep_shape w s F A P) as [r [b [l [E [NE L]]]]].
  rewrite E. cbn [fst snd]. split; [exact NE|].
  repeat split. exists l. now split.
Qed.

End Unaddressed.

Section Threshold.
Import Wake.

Lemma check_threshold d1 d2 now text :
  wake_word d1 = wake_word d2 -> is_awake d1 = is_awake d2 ->
  last_wake_time d1 = last_wake_time d2 -> timeout d1 = timeout d2 ->
  let r1 := check d1 now text in
  let r2 := check d2 now text in
  fst r1 = fst r2 /\
  wake_word (snd r1) = wake_word (snd r2) /\
  is_awake (snd r1) = is_awake (snd r2) /\
  last_wake_time (snd r1) = last_wake_time (snd r2) /\
  timeout (snd r1) = timeout (snd r2).
Proof.
  intros W A L T. cbv zeta. unfold check. rewrite W, A, L, T.
  destruct (PyStr.contains _ _);
    [cbn [fst snd set_awake wake_word is_awake last_wake_time timeout]; auto|].
  destruct (is_awake d2) eqn:A2;
    [|cbn [fst snd]; rewrite A2; auto].
  destruct (Qltb _ _);
    cbn [fst snd set_asleep wake_word is_awake last_wake_time timeout];
    rewrite ?A2; auto.
Qed.

End Threshold.

(** X22.  An assistant that is asleep stays silent and keeps listening,
    whatever is said around it: over any run of passes in which no call but
    the transcription engine raises and no transcribed segment contains the
    phrase, the loop makes no call other than to the two filters and the
    engine (it never speaks, runs no handler and takes no back-off pause),
    the detector, the table, the restart counter and [keep_running] stay as
    they were, and the loop goes on. *)
Theorem asleep_assistant_stays_silent
    (cfg : Config) (ws : list Assistant.World) (s : Assistant.state) :
  Assistant.keep_running s = true ->
  Wake.is_awake (Assistant.wake_word_detector s) = false ->
  Forall (fun w =>
            (forall x, x <> Assistant.AtTranscribe ->
                       Assistant.fails w x = false) /\
            Forall (fun seg : string * Assistant.Env =>
                      PyStr.contains
                        (Wake.wake_word (Assistant.wake_word_detector s))
                        (Wake.text_lower (fst seg)) = false)
                   (Assistant.segments w)) ws ->
  let r := Assistant.listen_loop cfg ws s in
  fst r = Assistant.Listening /\
  Assistant.wake_word_detector (snd r) = Assistant.wake_word_detector s /\
  Assistant.keep_running (snd r) = true /\
  Assistant.extends Assistant.engine_call s (snd r).
Proof.
  revert s. induction ws as [|w ws IH]; intros s KR A H; cbv zeta.
  - simpl. rewrite KR. repeat split; auto.
    exists []. split; [now rewrite app_nil_r | constructor].
  - inversion H as [|? ? [F P] Hws]; subst.
    cbn [Assistant.listen_loop]. rewrite KR.
    destruct (@listen_try_asleep cfg w s F A P) as [NE [D [K X]]].
    unfold Assistant.listen_pass.
    destruct (Assistant.listen_try cfg w s) as [[u|[|]] s1];
      cbn [fst snd] in *; try congruence.
    all: rewrite <- D in Hws;
      destruct (IH s1 (eq_trans K KR) (eq_trans (f_equal _ D) A) Hws)
        as [E1 [D1 [K1 X1]]];
      split; [exact E1|]; split; [congruence|]; split; [exact K1|];
      exact (extends_trans X X1).
Qed.

Lemma asleep_assistant_stays_silent_witness :
  let cfg := {| WAKE_WORD := "assistant";
                WAKE_WORD_TIMEOUT := 10;
                wake_threshold := 7 # 10;
                sample_rate := 2;
                chunk_duration_seconds := 1;
                rms_threshold := 15 # 1000;
                peak_threshold := 4 # 100;
                noise_gate_threshold := 1 # 100;
                max_restart_attempts := 3;
                restart_delay_seconds := 1 |} in
  let e := Assistant.mkEnv 5 "a joke" "noon" (fun _ => false) in
  let w := Assistant.mkWorld (Some [1 # 2; 1 # 3]) false
             [("Tell me a joke."%string, e); ("What time is it?"%string, e)]
             (fun _ => false) in
  Assistant.calls (snd (Assistant.listen_loop cfg [w; w]
                          (Assistant.initial_state cfg)))
  = [Assistant.CallIsSignificant [1 # 2; 1 # 3];
     Assistant.CallNoiseGate [1 # 2; 1 # 3];
     Assistant.CallTranscribe [(1 # 2) * 1; (1 # 3) * 1];
     Assistant.CallIsSignificant [1 # 2; 1 # 3];
     Assistant.CallNoiseGate [1 # 2; 1 # 3];
     Assistant.CallTranscribe [(1 # 2) * 1; (1 # 3) * 1]] /\
  fst (Assistant.listen_loop cfg [w; w] (Assistant.initial_state cfg))
  = Assistant.Listening.
Proof.
  intros cfg e w. split; [vm_compute; reflexivity|].
  apply asleep_assistant_stays_silent.
  - reflexivity.
  - reflexivity.
  - repeat constructor.
Defined.

(** X23.  The configured [wake_word.threshold] has no effect on detection:
    two detectors that agree on the phrase, the state and the timeout give
    the same answers to every sequence of checks, whatever their thresholds
    are ([check] decides by exact containment and never reads
    [threshold]). *)
Theorem wake_threshold_is_never_consulted
    (d1 d2 : Wake.WakeWordDetector) (l : list (Q * string)) :
  Wake.wake_word d1 = Wake.wake_word d2 ->
  Wake.is_awake d1 = Wake.is_awake d2 ->
  Wake.last_wake_time d1 = Wake.last_wake_time d2 ->
  Wake.timeout d1 = Wake.timeout d2 ->
  fst (Wake.checks d1 l) = fst (Wake.checks d2 l).
Proof.
  revert d1 d2. induction l as [|[now text] l IH]; intros d1 d2 W A L T;
    [reflexivity|].
  cbn [Wake.checks fst].
  destruct (@check_threshold d1 d2 now text W A L T) as [R [W' [A' [L' T']]]].
  rewrite R. f_equal. now apply IH.
Qed.

Lemma wake_threshold_is_never_consulted_witness :
  let l := [(1, "hello"%string); (2, "assistant"%string);
            (5, "tell me a joke"%string); (20, "what time is it"%string)] in
  fst (Wake.checks (Wake.init 10 "assistant" (7 # 10)) l) =
  fst (Wake.checks (Wake.init 10 "assistant" (1 # 10)) l).
Proof.
  intros l.
  apply (@wake_threshold_is_never_consulted
           (Wake.init 10 "assistant" (7 # 10))
           (Wake.init 10 "assistant" (1 # 10)) l); reflexivity.
Defined.

(* ------------------------------------------------------------------ *)
(** ** Setting and getting by dotted path *)
(* ------------------------------------------------------------------ *)

Section DottedPaths.
Import ConfigFile QuickTune.

Lemma set_keys_get_keys keys :
  forall v config config' default,
    set_keys keys v config = Some config' ->
    get_keys keys config' default = v.
Proof.
  induction keys as [|key rest IH]; intros v config config' default S.
  - destruct config; discriminate S.
  - destruct config as [x|d]; [discriminate S|].
    cbn [set_keys] in S. destruct rest as [|k2 rest'].
    + injection S as <-. cbn [get_keys]. now rewrite lookup_assign_same.
    + destruct (match lookup key d with
                | Some inner => set_keys (k2 :: rest') v inner
                | None => set_keys (k2 :: rest') v (Dict [])
                end) as [inner'|] eqn:R; [|discriminate S].
      injection S as <-.
      cbn [get_keys]. rewrite lookup_assign_same.
      destruct (lookup key d); eapply IH; exact R.
Qed.

(** Into a mapping just created the loop never fails. *)
Lemma set_keys_fresh keys v :
  keys <> [] -> set_keys keys v (Dict []) <> None.
Proof.
  induction keys as [|key rest IH]; [congruence|]. intros _.
  cbn [set_keys lookup]. destruct rest as [|k2 rest']; [discriminate|].
  destruct (set_keys (k2 :: rest') v (Dict [])) eqn:R; [discriminate|].
  exfalso. apply IH; [discriminate | reflexivity].
Qed.

Lemma set_keys_fails keys :
  forall v config,
    set_keys keys v config = None <->
    keys = [] \/
    exists n x, (n < List.length keys)%nat /\
                get_path config (firstn n keys) = Some (Leaf x).
Proof.
  induction keys as [|key rest IH]; intros v config.
  - split; [now left|]. intros _. now destruct config.
  - destruct config as [y|d].
    + split; [|reflexivity]. intros _. right. exists 0%nat, y.
      split; [simpl; lia | reflexivity].
    + cbn [set_keys]. destruct rest as [|k2 rest'].
      * split; [discriminate|]. intros [H|[n [x [L G]]]]; [discriminate H|].
        simpl in L. assert (n = 0)%nat by lia. subst n. discriminate G.
      * destruct (lookup key d) as [inner|] eqn:Lk.
        -- specialize (IH v inner).
           destruct (set_keys (k2 :: rest') v inner) as [inner'|].
           ++ split; [discriminate|].
              intros [H|[n [x [L G]]]]; [discriminate H|].
              destruct n as [|n]; [discriminate G|].
              cbn [firstn get_path] in G. rewrite Lk in G.
              assert (C : @None value = None) by reflexivity.
              exfalso.
              destruct IH as [_ IH].
              assert (@Some value inner' = None); [|discriminate].
              apply IH. right. exists n, x. split; [simpl in L |- *; lia | exact G].
           ++ split; [|reflexivity]. intros _.
              destruct IH as [IH _]. destruct (IH eq_refl) as [H|[n [x [L G]]]];
                [discriminate H|].
              right. exists (S n), x. split; [simpl in L |- *; lia|].
              cbn [firstn get_path]. now rewrite Lk.
        -- destruct (set_keys (k2 :: rest') v (Dict [])) as [inner'|] eqn:R.
           ++ split; [discriminate|].
              intros [H|[n [x [L G]]]]; [discriminate H|].
              destruct n as [|n]; [discriminate G|].
              cbn [firstn get_path] in G. rewrite Lk in G. discriminate G.
           ++ exfalso. revert R. apply set_keys_fresh. discriminate.
Qed.

End DottedPaths.

(** X24.  What [set_value] writes, [get_value] reads: whenever
    [set_value(key_path, value)] returns, [get_value(key_path, default)]
    on the result gives [value], for every dotted path, every earlier
    content (missing sections are created) and every default. *)
Theorem set_value_then_get_value
    (key_path : string) (v default config config' : ConfigFile.value) :
  QuickTune.set_value key_path v config = Some config' ->
  QuickTune.get_value key_path default config' = v.
Proof.
  unfold QuickTune.set_value, QuickTune.get_value. intros S.
  eapply set_keys_get_keys. exact S.
Qed.

Lemma set_value_then_get_value_witness :
  let v := ConfigFile.Leaf (ConfigFile.SNum (4 # 10)) in
  exists config',
    QuickTune.set_value "whisper.vad.threshold" v
      (ConfigFile.Dict
         [("wake_word"%string,
           ConfigFile.Dict
             [("phrase"%string,
               ConfigFile.Leaf (ConfigFile.SStr "hey assistant"))])])
    = Some config' /\
    QuickTune.get_value "whisper.vad.threshold"
      (ConfigFile.Leaf ConfigFile.SNull) config' = v.
Proof.
  intros v.
  destruct (QuickTune.set_value "whisper.vad.threshold" v _) as [c|] eqn:E.
  - exists c. split; [reflexivity|].
    exact (@set_value_then_get_value _ _ _ _ _ E).
  - vm_compute in E. discriminate E.
Defined.

(** X26.  [set_value] raises exactly when the path runs through something
    that is not a mapping: the call fails if and only if the configuration
    itself, or what it holds at some proper beginning of the path, is a
    scalar; in particular it never fails on a path whose sections are all
    missing, and a failing call has changed nothing. *)
Theorem set_value_fails_on_scalars_only
    (key_path : string) (v config : ConfigFile.value) :
  QuickTune.set_value key_path v config = None <->
  exists n x,
    (n < List.length (QuickTune.split_dot key_path))%nat /\
    ConfigFile.get_path config (firstn n (QuickTune.split_dot key_path))
    = Some (ConfigFile.Leaf x).
Proof.
  unfold QuickTune.set_value. rewrite set_keys_fails.
  split; [|intros H; now right].
  intros [E|H]; [|exact H].
  exfalso. destruct key_path as [|c s]; [discriminate E|].
  cbn [QuickTune.split_dot] in E.
  destruct (Ascii.eqb c "."); [discriminate E|].
  destruct (QuickTune.split_dot s); discriminate E.
Qed.

(* ------------------------------------------------------------------ *)
(** ** Instances of [Config] and the sections they share with the class *)
(* ------------------------------------------------------------------ *)

Section Sharing.
Import ConfigFile Loader.
Local Open Scope nat_scope.





















End Sharing.





(* ------------------------------------------------------------------ *)
(** ** The [finally] clause of [listen] *)
(* ------------------------------------------------------------------ *)

Section CleanUp.
Import Assistant.

Variable cfg : Config.

Lemma listen_pass_shutdowns w s :
  shutdowns (calls (snd (listen_pass cfg w s))) = shutdowns (calls s).
Proof.
  unfold shutdowns.
  rewrite listen_pass_count by reflexivity.
  eapply extends_count; [|apply (keeps_listen_try cfg w s)].
  intros []; simpl; tauto.
Qed.

Lemma listen_loop_shutdowns ws :
  forall s,
    shutdowns (calls (snd (listen_loop cfg ws s))) = shutdowns (calls s).
Proof.
  induction ws as [|w ws IH]; intros s; simpl.
  - now destruct (keep_running s).
  - destruct (keep_running s); [|reflexivity].
    pose proof (listen_pass_shutdowns w s) as P.
    destruct (listen_pass cfg w s) as [[|] s1]; simpl in *.
    + now rewrite IH.
    + exact P.
Qed.

Lemma listen_loop_stopped ws :
  forall s,
    fst (listen_loop cfg ws s) = Stopped ->
    keep_running (snd (listen_loop cfg ws s)) = false.
Proof.
  induction ws as [|w ws IH]; intros s; simpl.
  - destruct (keep_running s) eqn:K; [discriminate | now intros _].
  - destruct (keep_running s) eqn:K; [|now intros _].
    destruct (listen_pass cfg w s) as [[|] s1]; simpl; [apply IH | discriminate].
Qed.

End CleanUp.

(** X30.  [listen] shuts the synthesizer down exactly once, as its last
    call, on every way out of the loop, and never inside the loop: while
    the loop goes on the log holds no [tts.shutdown()]; when the loop has
    ended, by [keep_running] becoming false or by a re-raised exception,
    the log is the log of the loop followed by the single
    [tts.shutdown()] of the [finally] clause, and nothing else has changed;
    the loop ends normally only with [keep_running] false. *)
Theorem listen_cleans_up_exactly_once
    (cfg : Config) (ws : list Assistant.World) (s : Assistant.state) :
  Assistant.shutdowns (Assistant.calls s) = 0%nat ->
  let loop := Assistant.listen_loop cfg ws s in
  let r := Assistant.listen cfg ws s in
  fst r = fst loop /\
  Assistant.shutdowns (Assistant.calls (snd loop)) = 0%nat /\
  match fst r with
  | Assistant.Listening => snd r = snd loop
  | _ =>
      snd r = snd (Assistant.log Assistant.CallShutdown (snd loop)) /\
      Assistant.shutdowns (Assistant.calls (snd r)) = 1%nat
  end /\
  (fst r = Assistant.Stopped -> Assistant.keep_running (snd r) = false).
Proof.
  intros Z loop r.
  assert (L : Assistant.shutdowns (Assistant.calls (snd loop)) = 0%nat)
    by (unfold loop; now rewrite listen_loop_shutdowns).
  pose proof (@listen_loop_stopped cfg ws s) as St. fold loop in St.
  unfold r, Assistant.listen. fold loop.
  assert (C : forall s1,
             Assistant.shutdowns (Assistant.calls s1) = 0%nat ->
             Assistant.shutdowns
               (Assistant.calls (snd (Assistant.log Assistant.CallShutdown s1)))
             = 1%nat).
  { intros s1 H. unfold Assistant.log, Assistant.shutdowns in *.
    cbn [snd Assistant.calls]. rewrite filter_app, length_app, H.
    reflexivity. }
  destruct loop as [[| |] s1]; cbn [fst snd] in *.
  - split; [reflexivity|]. split; [exact L|]. split.
    + split; [reflexivity | now apply C].
    + intros _. now apply St.
  - split; [reflexivity|]. split; [exact L|]. split.
    + split; [reflexivity | now apply C].
    + discriminate.
  - split; [reflexivity|]. split; [exact L|]. split.
    + reflexivity.
    + discriminate.
Qed.

Lemma listen_cleans_up_exactly_once_witness :
  let cfg := {| WAKE_WORD := "assistant";
                WAKE_WORD_TIMEOUT := 10;
                wake_threshold := 7 # 10;
                sample_rate := 2;
                chunk_duration_seconds := 1;
                rms_threshold := 15 # 1000;
                peak_threshold := 4 # 100;
                noise_gate_threshold := 1 # 100;
                max_restart_attempts := 3;
                restart_delay_seconds := 1 |} in
  let e := Assistant.mkEnv 5 "a joke" "noon" (fun _ => false) in
  let w := Assistant.mkWorld (Some [1 # 2; 1 # 3]) false
             [("Assistant, goodbye."%string, e)] (fun _ => false) in
  let r := Assistant.listen cfg [w; w] (Assistant.initial_state cfg) in
  fst r = Assistant.Stopped /\
  Assistant.shutdowns (Assistant.calls (snd r)) = 1%nat.
Proof.
  intros cfg e w r.
  destruct (@listen_cleans_up_exactly_once cfg [w; w]
              (Assistant.initial_state cfg) eq_refl) as [E [_ [M _]]].
  fold r in E, M.
  assert (R : fst r = Assistant.Stopped) by (vm_compute; reflexivity).
  split; [exact R|]. rewrite R in M. exact (proj2 M).
Defined.
